(** * Arrow C++ execution engine: thread pool, source node and aggregate nodes

    A shallow embedding of
      - cpp/src/arrow/util/thread_pool.cc        (ThreadPool, DefaultCapacity)
      - cpp/src/arrow/compute/exec/source_node.cc    (SourceNode)
      - cpp/src/arrow/compute/exec/aggregate_node.cc (ScalarAggregateNode,
        GroupByNode)
    and the properties of these that the design document states.

    Conventions.  C++ [int] and [int64_t] values are integers in [Z]; a
    conversion between widths is written out with [to_int].  Signed overflow
    of a counter is undefined in C++ and is not modelled: counters are
    unbounded.  Calls on the downstream and upstream nodes, and the
    resolution of a node's [finished_] future, are recorded in a trace of
    [Event]s, oldest first.  A [std::vector] is a list, indexed with stdpp's
    lookup; an access out of its bounds is undefined behaviour and makes the
    modelled operation return [None]. *)

From Stdlib Require Import ZArith Lia Bool List String Ascii.
From stdpp Require Import base option list gmap strings pretty.
Import ListNotations.

Local Open Scope string_scope.
Local Open Scope list_scope.
Local Open Scope Z_scope.

(* ===================================================================== *)
(** * Status and Result *)
(* ===================================================================== *)

(** arrow::StatusCode, the codes this development meets. *)
Inductive StatusCode : Type :=
| OK | KeyError | TypeError | Invalid | IOError | CapacityError
| IndexError | Cancelled | UnknownError | NotImplemented | ExecutionError.

Record Status : Type := mkStatus { code : StatusCode; msg : string }.

Definition Status_OK : Status := mkStatus OK "".
Definition Status_Invalid (m : string) : Status := mkStatus Invalid m.
Definition Status_IndexError (m : string) : Status := mkStatus IndexError m.

Definition ok (st : Status) : bool :=
  match code st with OK => true | _ => false end.

(** arrow::Result<T>: a value or a non-OK status. *)
Inductive Result (T : Type) : Type :=
| Ok (v : T)
| Err (st : Status).
Arguments Ok {T} v.
Arguments Err {T} st.

(** [static_cast<int>] of a wider integer: the low 32 bits, read as signed. *)
Definition to_int (z : Z) : Z := (z + 2 ^ 31) mod 2 ^ 32 - 2 ^ 31.

Definition INT_MAX : Z := 2 ^ 31 - 1.
Definition INT_MIN : Z := - 2 ^ 31.
Definition INT64_MAX : Z := 2 ^ 63 - 1.

(* ===================================================================== *)
(** * thread_pool.cc *)
(* ===================================================================== *)

Module ThreadPool.

(** ** std::stoi on a std::string

    [std::stoi(str)] is [strtol(str, &end, 10)]: leading white space is
    skipped, one sign is accepted, then the longest run of decimal digits is
    read.  It throws [invalid_argument] when no digit is read and
    [out_of_range] when the value does not fit an [int]; [stoi] is [None] in
    both cases (ParseOMPEnvVar catches everything). *)

Definition isspace (c : ascii) : bool :=
  let n := nat_of_ascii c in
  ((n =? 32) || ((9 <=? n) && (n <=? 13)))%nat.

Definition digit_of (c : ascii) : option Z :=
  let n := Z.of_nat (nat_of_ascii c) in
  if (48 <=? n) && (n <=? 57) then Some (n - 48) else None.

Fixpoint skip_spaces (s : string) : string :=
  match s with
  | String c s' => if isspace c then skip_spaces s' else s
  | EmptyString => s
  end.

Fixpoint parse_digits (acc : Z) (s : string) : Z :=
  match s with
  | String c s' =>
      match digit_of c with
      | Some d => parse_digits (10 * acc + d) s'
      | None => acc
      end
  | EmptyString => acc
  end.

Definition starts_with_digit (s : string) : bool :=
  match s with
  | String c _ => match digit_of c with Some _ => true | None => false end
  | EmptyString => false
  end.

Definition strtol10 (s : string) : option Z :=
  let s1 := skip_spaces s in
  let '(neg, s2) :=
    match s1 with
    | String "-"%char r => (true, r)
    | String "+"%char r => (false, r)
    | _ => (false, s1)
    end in
  if starts_with_digit s2
  then let v := parse_digits 0 s2 in Some (if neg then - v else v)
  else None.

Definition stoi (s : string) : option Z :=
  match strtol10 s with
  | Some v => if (INT_MIN <=? v) && (v <=? INT_MAX) then Some v else None
  | None => None
  end.

(** [str.find_first_of(',')]: position of the first comma, [None] for npos. *)
Fixpoint find_first_of (c : ascii) (s : string) : option nat :=
  match s with
  | EmptyString => None
  | String a s' =>
      if Ascii.eqb a c then Some O
      else match find_first_of c s' with
           | Some n => Some (S n)
           | None => None
           end
  end.

(** The process environment: [GetEnvVar] fails on a variable that is not
    set. *)
Definition Env : Type := gmap string string.

Definition GetEnvVar (env : Env) (name : string) : Result string :=
  match env !! name with
  | Some v => Ok v
  | None => Err (mkStatus KeyError "environment variable undefined")
  end.

Definition ParseOMPEnvVar (env : Env) (name : string) : Z :=
  match GetEnvVar env name with
  | Err _ => 0
  | Ok str =>
      let str :=
        match find_first_of ","%char str with
        | Some first_comma => substring 0 first_comma str
        | None => str
        end in
      match stoi str with
      | Some v => Z.max 0 v
      | None => 0
      end
  end.

(** [hardware_concurrency] is what [std::thread::hardware_concurrency()]
    returns, an unsigned value that is 0 when it cannot be determined. *)
Definition DefaultCapacity (env : Env) (hardware_concurrency : Z) : Z :=
  let capacity := ParseOMPEnvVar env "OMP_NUM_THREADS" in
  let capacity :=
    if capacity =? 0 then to_int hardware_concurrency else capacity in
  let limit := ParseOMPEnvVar env "OMP_THREAD_LIMIT" in
  let capacity := if 0 <? limit then Z.min limit capacity else capacity in
  if capacity =? 0 then 4 else capacity.

(** The text of a list of decimal digits, most significant first. *)
Definition digit_char (d : nat) : ascii := ascii_of_nat (48 + d).

Fixpoint digits_string (ds : list nat) : string :=
  match ds with
  | [] => EmptyString
  | d :: ds' => String (digit_char d) (digits_string ds')
  end.

Definition digits_value (ds : list nat) : Z :=
  fold_left (fun acc d => 10 * acc + Z.of_nat d) ds 0.

(** [field] is the first of the comma-separated fields of [str]: the text
    before the first comma, all of [str] when it has no comma. *)
Definition first_field_of (str field : string) : Prop :=
  ~ In ","%char (list_ascii_of_string field)
  /\ (str = field \/ exists rest, str = field +:+ String ","%char rest).

(** [field] reads as the number [v], which has no minus sign: white space,
    an optional plus sign, the decimal digits of [v], and then any text that
    does not start with a digit. *)
Definition reads_as (field : string) (v : Z) : Prop :=
  exists ws sign ds rest,
    field = ws +:+ sign +:+ digits_string ds +:+ rest
    /\ Forall (fun c => isspace c = true) (list_ascii_of_string ws)
    /\ (sign = "" \/ sign = "+")
    /\ ds <> [] /\ Forall (fun d => (d < 10)%nat) ds
    /\ starts_with_digit rest = false
    /\ v = digits_value ds.

(** ** The pool

    [struct Task].  The callable and the stop callback are closures; they are
    named by a number.  [stop_requested] is what [IsStopRequested()] answers
    when the worker looks at the token. *)
Record Task : Type := mkTask {
  callable : nat;
  stop_requested : bool;
  stop_callback : option nat
}.

(** [struct ThreadPool::State], without the mutex and the condition
    variables.  A [std::thread] is named by a number. *)
Record State : Type := mkState {
  workers_ : list nat;
  finished_workers_ : list nat;
  pending_tasks_ : list Task;
  desired_capacity_ : Z;
  tasks_queued_or_running_ : Z;
  please_shutdown_ : bool;
  quick_shutdown_ : bool
}.

Definition set_workers (s : State) (w : list nat) : State :=
  mkState w (finished_workers_ s) (pending_tasks_ s) (desired_capacity_ s)
    (tasks_queued_or_running_ s) (please_shutdown_ s) (quick_shutdown_ s).
Definition set_finished_workers (s : State) (w : list nat) : State :=
  mkState (workers_ s) w (pending_tasks_ s) (desired_capacity_ s)
    (tasks_queued_or_running_ s) (please_shutdown_ s) (quick_shutdown_ s).
Definition set_pending_tasks (s : State) (q : list Task) : State :=
  mkState (workers_ s) (finished_workers_ s) q (desired_capacity_ s)
    (tasks_queued_or_running_ s) (please_shutdown_ s) (quick_shutdown_ s).
Definition set_desired_capacity (s : State) (n : Z) : State :=
  mkState (workers_ s) (finished_workers_ s) (pending_tasks_ s) n
    (tasks_queued_or_running_ s) (please_shutdown_ s) (quick_shutdown_ s).
Definition set_tasks_queued_or_running (s : State) (n : Z) : State :=
  mkState (workers_ s) (finished_workers_ s) (pending_tasks_ s)
    (desired_capacity_ s) n (please_shutdown_ s) (quick_shutdown_ s).
Definition set_shutdown (s : State) (please quick : bool) : State :=
  mkState (workers_ s) (finished_workers_ s) (pending_tasks_ s)
    (desired_capacity_ s) (tasks_queued_or_running_ s) please quick.

(** [State() = default]. *)
Definition State_default : State :=
  mkState [] [] [] 0 0 false false.

(** The pool object.  [threads_created] counts the [std::thread]s the pool
    has started so far; it names the next one. *)
Record Pool : Type := mkPool {
  state_ : State;
  pid_ : Z;
  shutdown_on_destroy_ : bool;
  threads_created : nat
}.

(** What an operation does besides changing the pool. *)
Inductive Effect : Type :=
| cv_notify_one
| cv_notify_all
| cv_shutdown_notify_one
| cv_idle_notify_all
| thread_started (tid : nat)
| thread_joined (tid : nat)
| task_called (f : nat)
| stop_callback_called (f : nat).

Definition set_state (p : Pool) (s : State) : Pool :=
  mkPool s (pid_ p) (shutdown_on_destroy_ p) (threads_created p).

(** [ThreadPool::ThreadPool()], in the process [pid]. *)
Definition new_ThreadPool (pid : Z) : Pool :=
  mkPool State_default pid true 0.

Definition CollectFinishedWorkersUnlocked (p : Pool) : Pool * list Effect :=
  let s := state_ p in
  (set_state p (set_finished_workers s []),
   map thread_joined (finished_workers_ s)).

(** [LaunchWorkersUnlocked(threads)], the loop unrolled [threads] times. *)
Fixpoint LaunchWorkersUnlocked (threads : nat) (p : Pool) : Pool * list Effect :=
  match threads with
  | O => (p, [])
  | S n =>
      let s := state_ p in
      let tid := threads_created p in
      let p1 :=
        mkPool (set_workers s (workers_ s ++ [tid]))
          (pid_ p) (shutdown_on_destroy_ p) (S tid) in
      let '(p2, es) := LaunchWorkersUnlocked n p1 in
      (p2, thread_started tid :: es)
  end.

Definition size {A} (l : list A) : Z := Z.of_nat (length l).

(** The body of [SetCapacity] once the mutex is held. *)
Definition SetCapacity_locked (p : Pool) (threads : Z)
  : Status * Pool * list Effect :=
  if please_shutdown_ (state_ p) then
    (Status_Invalid "operation forbidden during or after shutdown", p, [])
  else if threads <=? 0 then
    (Status_Invalid "ThreadPool capacity must be > 0", p, [])
  else
    let '(p1, e1) := CollectFinishedWorkersUnlocked p in
    let s := state_ p1 in
    let p2 := set_state p1 (set_desired_capacity s threads) in
    let required :=
      Z.min (size (pending_tasks_ s)) (threads - size (workers_ s)) in
    if 0 <? required then
      let '(p3, e3) := LaunchWorkersUnlocked (Z.to_nat required) p2 in
      (Status_OK, p3, e1 ++ e3)
    else if required <? 0 then
      (Status_OK, p2, e1 ++ [cv_notify_all])
    else
      (Status_OK, p2, e1).

(** [ProtectAgainstFork()], called in the process [current_pid].  The
    [SetCapacity] it calls finds [pid_ == current_pid] in its own
    [ProtectAgainstFork], which therefore does nothing: what runs is
    [SetCapacity_locked]. *)
Definition ProtectAgainstFork (p : Pool) (current_pid : Z)
  : Pool * list Effect :=
  if pid_ p =? current_pid then (p, [])
  else
    let capacity := desired_capacity_ (state_ p) in
    let new_state :=
      mkState [] [] [] 0 0
        (please_shutdown_ (state_ p)) (quick_shutdown_ (state_ p)) in
    let p1 :=
      mkPool new_state current_pid (shutdown_on_destroy_ p)
        (threads_created p) in
    if negb (please_shutdown_ new_state) then
      let '(_, p2, es) := SetCapacity_locked p1 capacity in (p2, es)
    else (p1, []).

Definition SetCapacity (p : Pool) (current_pid : Z) (threads : Z)
  : Status * Pool * list Effect :=
  let '(p0, e0) := ProtectAgainstFork p current_pid in
  let '(st, p1, e1) := SetCapacity_locked p0 threads in
  (st, p1, e0 ++ e1).

Definition GetCapacity (p : Pool) (current_pid : Z) : Z * Pool * list Effect :=
  let '(p0, e0) := ProtectAgainstFork p current_pid in
  (desired_capacity_ (state_ p0), p0, e0).

Definition GetNumTasks (p : Pool) (current_pid : Z) : Z * Pool * list Effect :=
  let '(p0, e0) := ProtectAgainstFork p current_pid in
  (tasks_queued_or_running_ (state_ p0), p0, e0).

Definition GetActualCapacity (p : Pool) (current_pid : Z)
  : Z * Pool * list Effect :=
  let '(p0, e0) := ProtectAgainstFork p current_pid in
  (size (workers_ (state_ p0)), p0, e0).

Definition SpawnReal (p : Pool) (current_pid : Z) (task : Task)
  : Status * Pool * list Effect :=
  let '(p0, e0) := ProtectAgainstFork p current_pid in
  if please_shutdown_ (state_ p0) then
    (Status_Invalid "operation forbidden during or after shutdown", p0, e0)
  else
    let '(p1, e1) := CollectFinishedWorkersUnlocked p0 in
    let s := state_ p1 in
    let tasks := tasks_queued_or_running_ s + 1 in
    let p2 := set_state p1 (set_tasks_queued_or_running s tasks) in
    let '(p3, e3) :=
      if (size (workers_ s) <? tasks)
         && (size (workers_ s) <? desired_capacity_ s)
      then LaunchWorkersUnlocked 1 p2
      else (p2, []) in
    let s3 := state_ p3 in
    let p4 :=
      set_state p3 (set_pending_tasks s3 (pending_tasks_ s3 ++ [task])) in
    (Status_OK, p4, e0 ++ e1 ++ e3 ++ [cv_notify_one]).

(** [Shutdown(wait)] up to its wait on [cv_shutdown_]: either it returns
    an error at once ([inl]), or it sets the flags, wakes the workers and
    blocks ([inr]). *)
Definition Shutdown_begin (p : Pool) (current_pid : Z) (wait : bool)
  : (Status + unit) * Pool * list Effect :=
  let '(p0, e0) := ProtectAgainstFork p current_pid in
  let s := state_ p0 in
  if please_shutdown_ s then
    (inl (Status_Invalid "Shutdown() already called"), p0, e0)
  else
    (inr tt, set_state p0 (set_shutdown s true (negb wait)),
     e0 ++ [cv_notify_all]).

(** The predicate [Shutdown] waits for. *)
Definition Shutdown_may_resume (p : Pool) : bool :=
  match workers_ (state_ p) with [] => true | _ => false end.

(** [Shutdown] from the return of its wait to its end. *)
Definition Shutdown_end (p : Pool) : Status * Pool * list Effect :=
  let s := state_ p in
  let p1 :=
    if negb (quick_shutdown_ s) then p
    else set_state p (set_pending_tasks s []) in
  let '(p2, e2) := CollectFinishedWorkersUnlocked p1 in
  (Status_OK, p2, e2).

(** ** WorkerLoop

    A worker holds the mutex except while it runs a task and while it waits
    on [cv_]; what it does between two such points is one step.  [busy]
    lists the workers that are running a task. *)
Definition should_secede (s : State) : bool :=
  size (workers_ s) >? desired_capacity_ s.

Definition run_task (t : Task) : list Effect :=
  if negb (stop_requested t) then [task_called (callable t)]
  else match stop_callback t with
       | Some f => [stop_callback_called f]
       | None => []
       end.

Inductive worker_step : Pool * list nat -> list Effect -> Pool * list nat -> Prop :=
| worker_takes_task p busy tid t rest :
    In tid (workers_ (state_ p)) -> ~ In tid busy ->
    pending_tasks_ (state_ p) = t :: rest ->
    quick_shutdown_ (state_ p) = false ->
    should_secede (state_ p) = false ->
    worker_step (p, busy) (run_task t)
      (set_state p (set_pending_tasks (state_ p) rest), tid :: busy)
| worker_task_done p busy tid :
    In tid busy ->
    worker_step (p, busy)
      (if tasks_queued_or_running_ (state_ p) - 1 =? 0
       then [cv_idle_notify_all] else [])
      (set_state p
         (set_tasks_queued_or_running (state_ p)
            (tasks_queued_or_running_ (state_ p) - 1)),
       remove Nat.eq_dec tid busy)
| worker_exits p busy tid :
    In tid (workers_ (state_ p)) -> ~ In tid busy ->
    should_secede (state_ p) = true \/
    (please_shutdown_ (state_ p) = true /\
     (pending_tasks_ (state_ p) = [] \/ quick_shutdown_ (state_ p) = true)) ->
    worker_step (p, busy)
      (if please_shutdown_ (state_ p) then [cv_shutdown_notify_one] else [])
      (set_state p
         (set_finished_workers
            (set_workers (state_ p)
               (remove Nat.eq_dec tid (workers_ (state_ p))))
            (finished_workers_ (state_ p) ++ [tid])),
       busy).

(** One step of a program that uses the pool: a public operation called in
    some process, or a step of one of the workers. *)
Inductive pool_step : Pool * list nat -> Pool * list nat -> Prop :=
| step_SetCapacity p busy pid n st p' es :
    SetCapacity p pid n = (st, p', es) -> pool_step (p, busy) (p', busy)
| step_SpawnReal p busy pid t st p' es :
    SpawnReal p pid t = (st, p', es) -> pool_step (p, busy) (p', busy)
| step_Shutdown_begin p busy pid w r p' es :
    Shutdown_begin p pid w = (r, p', es) -> pool_step (p, busy) (p', busy)
| step_Shutdown_end p busy st p' es :
    Shutdown_may_resume p = true ->
    Shutdown_end p = (st, p', es) -> pool_step (p, busy) (p', busy)
| step_GetCapacity p busy pid n p' es :
    GetCapacity p pid = (n, p', es) -> pool_step (p, busy) (p', busy)
| step_worker p busy es p' busy' :
    worker_step (p, busy) es (p', busy') -> pool_step (p, busy) (p', busy').

Inductive pool_steps : Pool * list nat -> Pool * list nat -> Prop :=
| pool_steps_refl x : pool_steps x x
| pool_steps_cons x y z : pool_step x y -> pool_steps y z -> pool_steps x z.

(** The components of what an operation returns. *)
Definition status_of {P E} (r : Status * P * E) : Status := fst (fst r).
Definition pool_of {S E} (r : S * Pool * E) : Pool := snd (fst r).
Definition effects_of {S P} (r : S * P * list Effect) : list Effect := snd r.

(** A pool with one worker, two pending tasks and desired capacity 1. *)
Definition example_pool : Pool :=
  mkPool
    (mkState [0%nat] [] [mkTask 10 false None; mkTask 11 false None] 1 3
       false false)
    100 true 1.

(** ** Making a pool, the whole of Shutdown, WaitForIdle *)

(** [Shutdown(wait)] from its first line to its last, for a caller that
    does not have to wait on [cv_shutdown_]: [None] when there are workers
    left, for which the caller blocks. *)
Definition Shutdown (p : Pool) (current_pid : Z) (wait : bool)
  : option (Status * Pool * list Effect) :=
  let '(r, p1, e1) := Shutdown_begin p current_pid wait in
  match r with
  | inl st => Some (st, p1, e1)
  | inr _ =>
      if Shutdown_may_resume p1
      then let '(st, p2, e2) := Shutdown_end p1 in Some (st, p2, e1 ++ e2)
      else None
  end.

(** [~ThreadPool()]: what the destructor does besides freeing the pool. *)
Definition destroy (p : Pool) (current_pid : Z) : option (list Effect) :=
  if shutdown_on_destroy_ p
  then '(_, _, es) ← Shutdown p current_pid false; Some es
  else Some [].

(** [ThreadPool::Make(threads)], in the process [pid].  When SetCapacity
    fails, RETURN_NOT_OK leaves the function and the new pool is
    destroyed. *)
Definition Make (pid threads : Z) : option (Result Pool * list Effect) :=
  let pool := new_ThreadPool pid in
  let '(st, pool, es) := SetCapacity pool pid threads in
  if ok st then Some (Ok pool, es)
  else es' ← destroy pool pid; Some (Err st, es ++ es').

(** [ThreadPool::MakeEternal(threads)]; [win32] is whether [_WIN32] is
    defined. *)
Definition MakeEternal (win32 : bool) (pid threads : Z)
  : option (Result Pool * list Effect) :=
  '(r, es) ← Make pid threads;
  match r with
  | Err st => Some (Err st, es)
  | Ok pool =>
      Some (Ok (if win32
                then mkPool (state_ pool) (pid_ pool) false
                       (threads_created pool)
                else pool),
            es)
  end.

(** What [MakeCpuThreadPool] does: it returns the pool, or it aborts the
    process. *)
Inductive MadeOrAborted : Type :=
| Made (pool : Pool)
| Aborted (st : Status).

Definition MakeCpuThreadPool (win32 : bool) (env : Env)
    (hardware_concurrency pid : Z) : option MadeOrAborted :=
  '(maybe_pool, _) ←
    MakeEternal win32 pid (DefaultCapacity env hardware_concurrency);
  match maybe_pool with
  | Ok pool => Some (Made pool)
  | Err st => Some (Aborted st)
  end.

(** The predicate [WaitForIdle] waits for on [cv_idle_]. *)
Definition WaitForIdle_may_resume (p : Pool) : bool :=
  tasks_queued_or_running_ (state_ p) =? 0.

(** A caller that submits the tasks of a list one after the other, in the
    process [current_pid], while no worker gets to run. *)
Fixpoint SpawnReal_all (p : Pool) (current_pid : Z) (tasks : list Task)
  : list Status * Pool * list Effect :=
  match tasks with
  | [] => ([], p, [])
  | task :: rest =>
      let '(st, p1, e1) := SpawnReal p current_pid task in
      let '(sts, p2, e2) := SpawnReal_all p1 current_pid rest in
      (st :: sts, p2, e1 ++ e2)
  end.

(** One step of a program that uses the pool in the process that made it,
    without a fork: a public operation called in the process [pid_], or a
    step of one of the workers; the second component is what the step does
    besides changing the pool.  [Shutdown] resumes after its wait only in
    a pool whose shutdown it has requested.  GetCapacity, GetNumTasks and
    GetActualCapacity leave the pool as it is in this process. *)
Inductive process_step
  : Pool * list nat -> list Effect -> Pool * list nat -> Prop :=
| process_SetCapacity p busy n st p' es :
    SetCapacity p (pid_ p) n = (st, p', es) ->
    process_step (p, busy) es (p', busy)
| process_SpawnReal p busy t st p' es :
    SpawnReal p (pid_ p) t = (st, p', es) ->
    process_step (p, busy) es (p', busy)
| process_Shutdown_begin p busy w r p' es :
    Shutdown_begin p (pid_ p) w = (r, p', es) ->
    process_step (p, busy) es (p', busy)
| process_Shutdown_end p busy st p' es :
    please_shutdown_ (state_ p) = true ->
    Shutdown_may_resume p = true ->
    Shutdown_end p = (st, p', es) ->
    process_step (p, busy) es (p', busy)
| process_worker p busy es p' busy' :
    worker_step (p, busy) es (p', busy') ->
    process_step (p, busy) es (p', busy').

Inductive process_steps
  : Pool * list nat -> list Effect -> Pool * list nat -> Prop :=
| process_steps_refl x : process_steps x [] x
| process_steps_cons x es y es' z :
    process_step x es y -> process_steps y es' z ->
    process_steps x (es ++ es') z.

(** What holds of a pool and of its running workers between two steps:
    the workers are distinct threads that the pool has started, those that
    run a task are among them, the desired capacity is positive, a quick
    shutdown is a shutdown, the count [tasks_queued_or_running_] covers the
    queued and the running tasks and is exactly their number as long as no
    quick shutdown was requested, and a task is queued only while a worker
    is there to take it or a quick shutdown is under way. *)
Definition consistent (x : Pool * list nat) : Prop :=
  let s := state_ (fst x) in
  let busy := snd x in
  List.NoDup (workers_ s)
  /\ Forall (fun tid => (tid < threads_created (fst x))%nat) (workers_ s)
  /\ List.NoDup busy
  /\ incl busy (workers_ s)
  /\ 1 <= desired_capacity_ s
  /\ (please_shutdown_ s = false -> quick_shutdown_ s = false)
  /\ size (pending_tasks_ s) + size busy <= tasks_queued_or_running_ s
  /\ (quick_shutdown_ s = false ->
      tasks_queued_or_running_ s = size (pending_tasks_ s) + size busy)
  /\ (pending_tasks_ s <> [] ->
      quick_shutdown_ s = true \/ workers_ s <> []).

(** An effect that runs a task or starts a thread. *)
Definition is_activity (e : Effect) : bool :=
  match e with
  | thread_started _ | task_called _ | stop_callback_called _ => true
  | _ => false
  end.

End ThreadPool.

(** ** SerialExecutor *)

Module SerialExecutor.

(** [struct SerialExecutor::State], without the mutex and the condition
    variable; the tasks are those of the thread pool ([struct Task]). *)
Record State : Type := mkState {
  task_queue : list ThreadPool.Task;
  finished : bool
}.

(** [SpawnReal] and [MarkFinished]; each ends with
    [wait_for_tasks.notify_one()], which wakes the loop when it waits. *)
Definition SpawnReal (s : State) (task : ThreadPool.Task) : Status * State :=
  (Status_OK, mkState (task_queue s ++ [task]) (finished s)).

Definition MarkFinished (s : State) : State :=
  mkState (task_queue s) true.

(** The calls that reach the executor while RunLoop does not hold the
    mutex. *)
Inductive Action : Type :=
| Spawn (task : ThreadPool.Task)
| Finish.

Definition act (a : Action) (s : State) : State :=
  match a with
  | Spawn task => snd (SpawnReal s task)
  | Finish => MarkFinished s
  end.

Definition acts (l : list Action) (s : State) : State :=
  fold_left (fun s a => act a s) l s.

(** What the loop meets: [during n] are the calls that reach the executor
    while the mutex is released for the n-th task of the loop (made by the
    task itself or by other threads), in the order in which they take the
    mutex; [waiting k] are the calls made by other threads while the loop
    waits for the k-th time, none if nobody calls any more. *)
Record World : Type := mkWorld {
  during : nat -> list Action;
  waiting : nat -> list Action
}.

(** The inner loop of RunLoop, [n] tasks having been taken before; [fuel]
    bounds the number of tasks it takes. *)
Fixpoint drain (fuel : nat) (w : World) (n : nat) (s : State)
  : option (nat * State * list ThreadPool.Effect) :=
  match fuel with
  | O => None
  | S fuel' =>
      match task_queue s with
      | [] => Some (n, s, [])
      | task :: rest =>
          let s1 := acts (during w n) (mkState rest (finished s)) in
          '(n', s2, es) ← drain fuel' w (S n) s1;
          Some (n', s2, ThreadPool.run_task task ++ es)
      end
  end.

(** How [RunLoop] ends: it returns, or it waits for a call that never
    comes. *)
Inductive Outcome : Type := Returned | Waiting.

(** [wait_for_tasks.wait(lk, pred)], for the k-th time: [None] when the
    loop waits for ever. *)
Definition wait (w : World) (k : nat) (s : State) : option (nat * State) :=
  let pred s :=
    finished s || match task_queue s with [] => false | _ => true end in
  if pred s then Some (k, s)
  else match waiting w k with
       | [] => None
       | l => Some (S k, acts l s)
       end.

(** [RunLoop()], [n] tasks having been taken and [k] waits done before;
    [fuel] bounds the rounds of the outer loop and the tasks of each
    round. *)
Fixpoint RunLoop (fuel : nat) (w : World) (n k : nat) (s : State)
  : option (Outcome * State * list ThreadPool.Effect) :=
  match fuel with
  | O => None
  | S fuel' =>
      if finished s then Some (Returned, s, [])
      else
        '(n1, s1, es1) ← drain fuel' w n s;
        match wait w k s1 with
        | None => Some (Waiting, s1, es1)
        | Some (k1, s2) =>
            '(o, s3, es3) ← RunLoop fuel' w n1 k1 s2;
            Some (o, s3, es1 ++ es3)
        end
  end.

(** The loop is alone: no other thread calls the executor while it
    waits. *)
Definition alone (w : World) : Prop := forall k, waiting w k = [].

(** The calls that reach the executor during the tasks [n, n + m) spawn no
    task. *)
Definition no_spawn (w : World) (n m : nat) : Prop :=
  forall i, (n <= i < n + m)%nat ->
            Forall (fun a => a = Finish) (during w i).

(** A call reaches the executor during one of the tasks [n, n + m); when
    these calls spawn no task, it is a call of MarkFinished. *)
Definition finishes (w : World) (n m : nat) : bool :=
  existsb (fun i => match during w i with [] => false | _ => true end)
    (seq n m).

End SerialExecutor.

(* ===================================================================== *)
(** * Batches, counters and the calls between nodes *)
(* ===================================================================== *)

(** A value of a column: null, a 64-bit integer or a string. *)
Inductive Scalar : Type :=
| Null
| Int64 (z : Z)
| Utf8 (s : string).

(** arrow::Datum: nothing (a default-constructed Datum), one scalar, or an
    array. *)
Inductive Datum : Type :=
| Datum_NONE
| Datum_SCALAR (v : Scalar)
| Datum_ARRAY (vs : list Scalar).

(** arrow::compute::ExecBatch. *)
Module ExecBatch.
Record t : Type := mk { values : list Datum; length : Z }.

(** Modelled from the spec: ExecBatch::Slice is declared in exec.h, which is
    not among the sources.  The design document has the output "split into
    chunks of size output_batch_size", chunk n being "the n'th slice", and
    the last chunk possibly shorter: arrays are cut to the window
    [offset, offset + length), scalars are kept, and the length of the
    slice is what is left of the batch from [offset], at most [length]. *)
Definition Slice_Datum (offset len : Z) (d : Datum) : Datum :=
  match d with
  | Datum_ARRAY vs =>
      Datum_ARRAY (firstn (Z.to_nat len) (skipn (Z.to_nat offset) vs))
  | _ => d
  end.

Definition Slice (b : t) (offset len : Z) : t :=
  mk (map (Slice_Datum offset len) (values b))
     (Z.min len (length b - offset)).
End ExecBatch.

(** Modelled from the spec: AtomicCounter is declared in exec/util.h, which
    is not among the sources.  Design document, 4.1: "an atomic current
    count, an atomic total (sentinel = unset), and an atomic cancelled flag";
    increment "adds 1; returns true exactly once, when the new value equals
    a previously set total"; set_total "records the total; returns true iff
    the current count already equals n at the moment of setting"; cancel
    "returns true iff this is the first state-transition that completes the
    counter"; "at most one caller observes completion across all
    increment / set_total / cancel calls".  The sentinel is -1. *)
Module AtomicCounter.
Record t : Type := mk { count_ : Z; total_ : Z; complete_ : bool }.

Definition init : t := mk 0 (-1) false.

Definition total (c : t) : option Z :=
  if total_ c =? -1 then None else Some (total_ c).

(** The first caller gets [true], and the counter is complete from then
    on. *)
Definition DoneOnce (c : t) : bool * t :=
  (negb (complete_ c), mk (count_ c) (total_ c) true).

Definition Increment (c : t) : bool * t :=
  let c1 := mk (count_ c + 1) (total_ c) (complete_ c) in
  if count_ c1 =? total_ c1 then DoneOnce c1 else (false, c1).

Definition SetTotal (c : t) (n : Z) : bool * t :=
  let c1 := mk (count_ c) n (complete_ c) in
  if count_ c1 =? n then DoneOnce c1 else (false, c1).

Definition Cancel (c : t) : bool * t := DoneOnce c.
End AtomicCounter.

(** What a node does to its neighbours and to its own [finished_] future:
    calls on [outputs_[0]], calls on [inputs_[0]], tasks handed to the
    executor, and [finished_.MarkFinished()]. *)
Inductive Event : Type :=
| Output_InputReceived (batch : ExecBatch.t)
| Output_ErrorReceived (error : Status)
| Output_InputFinished (total_batches : Z)
| Input_StopProducing
| Executor_Spawn (n : Z)
| Executor_Submit (batch : ExecBatch.t)
| TaskGroup_End
| MarkFinished.

(** Modelled from the spec: ExecNode::ErrorIfNotOk is defined in
    exec_plan.cc, which is not among the sources.  Design document, 7:
    "Kernel / grouper errors inside a node become error_received calls on
    the single downstream".  It answers whether the status was an error. *)
Definition ErrorIfNotOk (st : Status) : bool * list Event :=
  if ok st then (false, []) else (true, [Output_ErrorReceived st]).

Definition count_InputReceived (es : list Event) : nat :=
  List.length
    (List.filter
       (fun e => match e with Output_InputReceived _ => true | _ => false end)
       es).

Definition count_MarkFinished (es : list Event) : nat :=
  List.length
    (List.filter (fun e => match e with MarkFinished => true | _ => false end)
       es).

(** What a node sends to its output: batches, and the number of batches
    that it is going to send. *)
Definition is_output (e : Event) : bool :=
  match e with
  | Output_InputReceived _ | Output_InputFinished _ => true
  | _ => false
  end.

(* ===================================================================== *)
(** * source_node.cc *)
(* ===================================================================== *)

Module SourceNode.

(** Modelled from the spec: AsyncTaskGroup is declared in
    util/async_util.h, which is not among the sources.  Design document,
    4.3: add_task "calls the factory to produce a signal representing an
    in-flight task; returns an error synchronously if the factory fails.
    Increments the outstanding counter on success"; end "returns a signal
    that resolves when no tasks are outstanding AND end has been called".
    The factory of the source node is [executor->Submit], and what it
    returns is given. *)
Record AsyncTaskGroup : Type := mkTaskGroup {
  running_tasks : list ExecBatch.t;
  ended : bool
}.

Definition AddTask (g : AsyncTaskGroup) (batch : ExecBatch.t) (submitted : Status)
  : Status * AsyncTaskGroup :=
  if ok submitted
  then (Status_OK, mkTaskGroup (running_tasks g ++ [batch]) (ended g))
  else (submitted, g).

Definition End (g : AsyncTaskGroup) : AsyncTaskGroup :=
  mkTaskGroup (running_tasks g) true.

(** The future that [End] returned has resolved. *)
Definition all_tasks_done (g : AsyncTaskGroup) : bool :=
  ended g && match running_tasks g with [] => true | _ => false end.

(** The members of [struct SourceNode] that change, and whether the plan's
    exec context has an executor. *)
Record t : Type := mk {
  stop_requested_ : bool;
  batch_count_ : Z;
  task_group_ : AsyncTaskGroup;
  executor : bool
}.

(** A node as its constructor leaves it. *)
Definition init (executor : bool) : t :=
  mk false 0 (mkTaskGroup [] false) executor.

(** [StopProducing()]. *)
Definition StopProducing (nd : t) : t :=
  mk true (batch_count_ nd) (task_group_ nd) (executor nd).

(** What the k-th call of [generator_()] resolves to. *)
Inductive Generated : Type :=
| Generated_batch (batch : ExecBatch.t)
| Generated_end
| Generated_error (error : Status).

(** What the node meets while it runs: the results of the generator, the
    moments at which another thread calls StopProducing (before iteration k
    takes the mutex, or while the k-th call of the generator is in flight),
    and what [executor->Submit] answers in iteration k. *)
Record World : Type := mkWorld {
  generator_ : nat -> Generated;
  stop_before : nat -> bool;
  stop_during : nat -> bool;
  submit : nat -> Status
}.

Inductive ControlFlow : Type :=
| Continue
| Break (total_batches : Z).

(** The body of the loop of StartProducing, iteration [k]. *)
Definition iteration (w : World) (k : nat) (nd : t)
  : t * list Event * ControlFlow :=
  let nd := if stop_before w k then StopProducing nd else nd in
  let total_batches := batch_count_ nd in
  let nd :=
    mk (stop_requested_ nd) (batch_count_ nd + 1) (task_group_ nd)
      (executor nd) in
  if stop_requested_ nd then (nd, [], Break total_batches)
  else
    let maybe_batch := generator_ w k in
    let nd := if stop_during w k then StopProducing nd else nd in
    match maybe_batch with
    | Generated_error error =>
        (StopProducing nd, [Output_ErrorReceived error], Break total_batches)
    | Generated_end => (StopProducing nd, [], Break total_batches)
    | Generated_batch batch =>
        if stop_requested_ nd then (StopProducing nd, [], Break total_batches)
        else if executor nd then
          let '(status, g) := AddTask (task_group_ nd) batch (submit w k) in
          let nd :=
            mk (stop_requested_ nd) (batch_count_ nd) g (executor nd) in
          if ok status then (nd, [Executor_Submit batch], Continue)
          else (nd, [Output_ErrorReceived status], Break total_batches)
        else (nd, [Output_InputReceived batch], Continue)
    end.

(** [Loop(iterate)]: iterate until the body breaks; [fuel] bounds the
    number of iterations. *)
Fixpoint Loop (fuel : nat) (w : World) (k : nat) (nd : t)
  : option (t * list Event * Z) :=
  match fuel with
  | O => None
  | S fuel' =>
      let '(nd1, es, cf) := iteration w k nd in
      match cf with
      | Break total_batches => Some (nd1, es, total_batches)
      | Continue =>
          match Loop fuel' w (S k) nd1 with
          | Some (nd2, es', total_batches) =>
              Some (nd2, es ++ es', total_batches)
          | None => None
          end
      end
  end.

(** [StartProducing()], run until [finished_] is the future of
    [task_group_.End()]. *)
Definition StartProducing (fuel : nat) (w : World) (nd : t)
  : option (Status * t * list Event) :=
  if stop_requested_ nd then Some (Status_OK, nd, [])
  else
    match Loop fuel w 0 nd with
    | Some (nd1, es, total_batches) =>
        Some (Status_OK,
              mk (stop_requested_ nd1) (batch_count_ nd1)
                (End (task_group_ nd1)) (executor nd1),
              es ++ [Output_InputFinished total_batches; TaskGroup_End])
    | None => None
    end.

(** A task of the task group runs: it delivers its batch. *)
Definition run_task (nd : t) : t * list Event :=
  match running_tasks (task_group_ nd) with
  | [] => (nd, [])
  | batch :: rest =>
      (mk (stop_requested_ nd) (batch_count_ nd)
         (mkTaskGroup rest (ended (task_group_ nd))) (executor nd),
       [Output_InputReceived batch])
  end.

(** Iteration [k] ends the loop. *)
Definition breaks (w : World) (executor : bool) (k : nat) : bool :=
  stop_before w k
  || match generator_ w k with
     | Generated_batch _ =>
         stop_during w k || (executor && negb (ok (submit w k)))
     | _ => true
     end.

(** The error that iteration [k] reports downstream when it ends the
    loop. *)
Definition reported_error (w : World) (executor : bool) (k : nat)
  : list Event :=
  if stop_before w k then []
  else match generator_ w k with
       | Generated_error error => [Output_ErrorReceived error]
       | Generated_end => []
       | Generated_batch _ =>
           if stop_during w k then []
           else if executor && negb (ok (submit w k))
                then [Output_ErrorReceived (submit w k)] else []
       end.

(** The delivery of the batch of iteration [k]: a call downstream, or a
    task that will make this call. *)
Definition delivery (w : World) (executor : bool) (k : nat) : list Event :=
  match generator_ w k with
  | Generated_batch batch =>
      [if executor then Executor_Submit batch else Output_InputReceived batch]
  | _ => []
  end.

Definition deliveries (w : World) (executor : bool) (n : nat) : list Event :=
  flat_map (delivery w executor) (seq 0 n).

Definition is_delivery (e : Event) : bool :=
  match e with
  | Output_InputReceived _ | Executor_Submit _ => true
  | _ => false
  end.

(** The batches the generator produced in iterations [k, k + n). *)
Definition generated_batches (w : World) (k n : nat) : list ExecBatch.t :=
  flat_map
    (fun j => match generator_ w j with
              | Generated_batch batch => [batch]
              | _ => []
              end)
    (seq k n).

(** Two worlds are the same up to iteration [k]. *)
Definition agree (w1 w2 : World) (k : nat) : Prop :=
  forall j, (j <= k)%nat ->
    generator_ w2 j = generator_ w1 j
    /\ stop_before w2 j = stop_before w1 j
    /\ stop_during w2 j = stop_during w1 j
    /\ submit w2 j = submit w1 j.

(** A generator that yields two batches and then ends; nobody stops the
    node and every task is accepted. *)
Definition example_batch (vs : list Scalar) : ExecBatch.t :=
  ExecBatch.mk [Datum_ARRAY vs] (Z.of_nat (List.length vs)).

Definition example_world : World :=
  mkWorld
    (fun k => match k with
              | 0%nat => Generated_batch (example_batch [Int64 1; Int64 2])
              | 1%nat => Generated_batch (example_batch [Null; Int64 4])
              | _ => Generated_end
              end)
    (fun _ => false) (fun _ => false) (fun _ => Status_OK).

(** A generator whose second call fails. *)
Definition example_failing_world : World :=
  mkWorld
    (fun k => match k with
              | 0%nat => Generated_batch (example_batch [Int64 1; Int64 2])
              | _ => Generated_error (mkStatus IOError "read failed")
              end)
    (fun _ => false) (fun _ => false) (fun _ => Status_OK).

End SourceNode.

(* ===================================================================== *)
(** * aggregate_node.cc: ScalarAggregateNode *)
(* ===================================================================== *)

Module ScalarAggregateNode.
Section Node.

(** The state of a kernel is opaque to the node. *)
Variable KernelState : Type.

(** [struct ScalarAggregateKernel], the functions the node calls.
    [consume] and [finalize] work on the state bound to their
    KernelContext; [consume] changes it in place, [finalize] returns a
    status and writes a Datum.  [MergeAll] is the static
    [ScalarAggregateKernel::MergeAll(kernel, ctx, states)]. *)
Record ScalarAggregateKernel : Type := mkKernel {
  consume : KernelState -> ExecBatch.t -> Status * KernelState;
  MergeAll : list KernelState -> Result KernelState;
  finalize : KernelState -> Status * Datum
}.

(** The members of [class ScalarAggregateNode].  [finished_] is whether the
    future is finished; it is born finished. *)
Record t : Type := mk {
  finished_ : bool;
  target_field_ids_ : list nat;
  kernels_ : list ScalarAggregateKernel;
  states_ : list (list KernelState);
  input_counter_ : AtomicCounter.t
}.

Definition set_finished (nd : t) (b : bool) : t :=
  mk b (target_field_ids_ nd) (kernels_ nd) (states_ nd) (input_counter_ nd).
Definition set_states (nd : t) (s : list (list KernelState)) : t :=
  mk (finished_ nd) (target_field_ids_ nd) (kernels_ nd) s (input_counter_ nd).
Definition set_input_counter (nd : t) (c : AtomicCounter.t) : t :=
  mk (finished_ nd) (target_field_ids_ nd) (kernels_ nd) (states_ nd) c.

(** The node that [Make] emplaces: every kernel has [capacity] states,
    initialised by [Kernel::InitAll]. *)
Definition emplaced (target_field_ids : list nat)
    (kernels : list ScalarAggregateKernel)
    (states : list (list KernelState)) : t :=
  mk true target_field_ids kernels states AtomicCounter.init.

(** The loop of [DoConsume], from kernel [i] on, [n] kernels to go;
    [states] is [states_]. *)
Fixpoint DoConsume_from (kernels : list ScalarAggregateKernel)
    (target_field_ids : list nat) (batch : ExecBatch.t) (thread_index : nat)
    (i n : nat) (states : list (list KernelState))
  : option (Status * list (list KernelState)) :=
  match n with
  | O => Some (Status_OK, states)
  | S n' =>
      kernel ← kernels !! i;
      row ← states !! i;
      state ← row !! thread_index;
      target ← target_field_ids !! i;
      column ← ExecBatch.values batch !! target;
      let single_column_batch :=
        ExecBatch.mk [column] (ExecBatch.length batch) in
      let '(status, state') := consume kernel state single_column_batch in
      let states' := <[i := <[thread_index := state']> row]> states in
      if ok status
      then DoConsume_from kernels target_field_ids batch thread_index
             (S i) n' states'
      else Some (status, states')
  end.

Definition DoConsume (batch : ExecBatch.t) (thread_index : nat) (nd : t)
  : option (Status * t) :=
  '(st, states) ←
    DoConsume_from (kernels_ nd) (target_field_ids_ nd) batch thread_index
      0 (List.length (kernels_ nd)) (states_ nd);
  Some (st, set_states nd states).

(** The loop of [Finish]: [values] is [batch.values].  [MergeAll] takes
    [states_[i]] by move, which leaves it empty. *)
Fixpoint Finish_from (kernels : list ScalarAggregateKernel) (i n : nat)
    (values : list Datum) (states : list (list KernelState))
  : option (Result (list Datum) * list (list KernelState)) :=
  match n with
  | O => Some (Ok values, states)
  | S n' =>
      kernel ← kernels !! i;
      row ← states !! i;
      let states' := <[i := []]> states in
      match MergeAll kernel row with
      | Err st => Some (Err st, states')
      | Ok merged =>
          let '(st, out) := finalize kernel merged in
          if negb (ok st) then Some (Err st, states')
          else Finish_from kernels (S i) n' (<[i := out]> values) states'
      end
  end.

Definition Finish (nd : t) : option (Status * t * list Event) :=
  let n := List.length (kernels_ nd) in
  '(r, states) ←
    Finish_from (kernels_ nd) 0 n (replicate n Datum_NONE) (states_ nd);
  match r with
  | Err st => Some (st, set_states nd states, [])
  | Ok values =>
      Some (Status_OK, set_finished (set_states nd states) true,
            [Output_InputReceived (ExecBatch.mk values 1); MarkFinished])
  end.

(** [ErrorIfNotOk(Finish())]. *)
Definition Finish_or_error (nd : t) : option (t * list Event) :=
  '(st, nd', es) ← Finish nd;
  Some (nd', es ++ snd (ErrorIfNotOk st)).

Definition InputReceived (thread_index : nat) (batch : ExecBatch.t) (nd : t)
  : option (t * list Event) :=
  '(st, nd1) ← DoConsume batch thread_index nd;
  let '(failed, es) := ErrorIfNotOk st in
  if failed then Some (nd1, es)
  else
    let '(complete, c) := AtomicCounter.Increment (input_counter_ nd1) in
    let nd2 := set_input_counter nd1 c in
    if complete then Finish_or_error nd2 else Some (nd2, []).

Definition ErrorReceived (error : Status) (nd : t) : t * list Event :=
  (nd, [Output_ErrorReceived error]).

Definition InputFinished (total_batches : Z) (nd : t)
  : option (t * list Event) :=
  let '(complete, c) :=
    AtomicCounter.SetTotal (input_counter_ nd) total_batches in
  let nd1 := set_input_counter nd c in
  if complete then Finish_or_error nd1 else Some (nd1, []).

Definition StartProducing (nd : t) : Status * t * list Event :=
  (Status_OK, set_finished nd false, [Output_InputFinished 1]).

Definition StopProducing (nd : t) : t * list Event :=
  let '(won, c) := AtomicCounter.Cancel (input_counter_ nd) in
  let nd1 := set_input_counter nd c in
  (if won then set_finished nd1 true else nd1,
   (if won then [MarkFinished] else []) ++ [Input_StopProducing]).

(** The calls a plan and the neighbours make on the node. *)
Inductive Call : Type :=
| Call_StartProducing
| Call_InputReceived (thread_index : nat) (batch : ExecBatch.t)
| Call_ErrorReceived (error : Status)
| Call_InputFinished (total_batches : Z)
| Call_StopProducing.

Definition call (c : Call) (nd : t) : option (t * list Event) :=
  match c with
  | Call_StartProducing =>
      let '(_, nd', es) := StartProducing nd in Some (nd', es)
  | Call_InputReceived thread_index batch =>
      InputReceived thread_index batch nd
  | Call_ErrorReceived error => Some (ErrorReceived error nd)
  | Call_InputFinished total_batches => InputFinished total_batches nd
  | Call_StopProducing => Some (StopProducing nd)
  end.

(** A sequence of calls, one after the other. *)
Fixpoint run (calls : list Call) (nd : t) : option (t * list Event) :=
  match calls with
  | [] => Some (nd, [])
  | c :: rest =>
      '(nd1, es1) ← call c nd;
      '(nd2, es2) ← run rest nd1;
      Some (nd2, es1 ++ es2)
  end.

(** [DoConsume] for each batch of a list, as long as it succeeds. *)
Fixpoint DoConsume_all (kernels : list ScalarAggregateKernel)
    (target_field_ids : list nat) (received : list (nat * ExecBatch.t))
    (states : list (list KernelState))
  : option (Status * list (list KernelState)) :=
  match received with
  | [] => Some (Status_OK, states)
  | (thread_index, batch) :: rest =>
      '(st, states') ←
        DoConsume_from kernels target_field_ids batch thread_index
          0 (List.length kernels) states;
      if ok st then DoConsume_all kernels target_field_ids rest states'
      else Some (st, states')
  end.

Definition received_calls (received : list (nat * ExecBatch.t)) : list Call :=
  map (fun r => Call_InputReceived (fst r) (snd r)) received.

(** [states'] has the rows of [states], with the same number of states in
    each, and in each row the states of the threads other than
    [thread_index] are those of [states]. *)
Definition others_kept (thread_index : nat)
    (states states' : list (list KernelState)) : Prop :=
  List.length states' = List.length states
  /\ forall i row,
       states !! i = Some row ->
       exists row',
         states' !! i = Some row'
         /\ List.length row' = List.length row
         /\ forall j, j <> thread_index -> row' !! j = row !! j.

End Node.

Arguments mkKernel {KernelState}.
Arguments consume {KernelState}.
Arguments MergeAll {KernelState}.
Arguments finalize {KernelState}.
Arguments mk {KernelState}.
Arguments finished_ {KernelState}.
Arguments target_field_ids_ {KernelState}.
Arguments kernels_ {KernelState}.
Arguments states_ {KernelState}.
Arguments input_counter_ {KernelState}.
Arguments others_kept {KernelState}.

(** A kernel that sums the integers of a column and skips the nulls; its
    state is the sum so far. *)
Definition sum_column (d : Datum) : Z :=
  match d with
  | Datum_ARRAY vs =>
      fold_right (fun v acc => match v with Int64 z => z + acc | _ => acc end)
        0 vs
  | Datum_SCALAR (Int64 z) => z
  | _ => 0
  end.

Definition sum_kernel : ScalarAggregateKernel Z :=
  mkKernel
    (fun state batch =>
       (Status_OK,
        state + fold_right (fun d acc => sum_column d + acc) 0
                  (ExecBatch.values batch)))
    (fun states => Ok (fold_right Z.add 0 states))
    (fun state => (Status_OK, Datum_SCALAR (Int64 state))).

(** A node with one sum over column 0 and three thread slots. *)
Definition example_node : t Z :=
  emplaced Z [0%nat] [sum_kernel] [[0; 0; 0]].

(** A kernel like [sum_kernel] whose [finalize] fails, and a node with
    this kernel that is producing and has received all its input, which
    was empty. *)
Definition failing_kernel : ScalarAggregateKernel Z :=
  mkKernel (consume sum_kernel) (MergeAll sum_kernel)
    (fun state => (Status_Invalid "sum does not fit", Datum_NONE)).

Definition example_failing_node : t Z :=
  mk false [0%nat] [failing_kernel] [[0; 0; 0]] (AtomicCounter.mk 0 0 true).

End ScalarAggregateNode.

(* ===================================================================== *)
(** * aggregate_node.cc: GroupByNode *)
(* ===================================================================== *)

Module GroupByNode.

(** ** Schemas, field references and options *)

Inductive DataType : Type := int64 | utf8 | boolean | float64.

Record Field : Type := mkField { name : string; type : DataType }.

Definition WithName (f : Field) (n : string) : Field := mkField n (type f).

(** A FieldVector holds shared pointers, which may be null. *)
Abbreviation FieldVector := (list (option Field)).
Abbreviation Schema := (list (option Field)).

Inductive Shape : Type := ANY | SCALAR | ARRAY.
Record ValueDescr : Type := mkValueDescr { descr_type : DataType; shape : Shape }.

(** Modelled from the spec: FieldRef and FieldRef::FindOne are declared in
    type.h, which is not among the sources.  Design document, 3: a field
    reference is "either a name or a position, resolvable against a schema
    to a field index".  [FindOne] fails unless exactly one field matches;
    the node uses the first component of the match, the index of the
    field. *)
Inductive FieldRef : Type :=
| FieldRef_name (n : string)
| FieldRef_index (i : nat).

Fixpoint FindAll_name (n : string) (schema : Schema) (i : nat) : list nat :=
  match schema with
  | [] => []
  | f :: rest =>
      let here :=
        match f with
        | Some f => if String.eqb (name f) n then [i] else []
        | None => []
        end in
      here ++ FindAll_name n rest (S i)
  end.

Definition FindOne (ref : FieldRef) (schema : Schema) : Result nat :=
  match ref with
  | FieldRef_index i =>
      if (i <? List.length schema)%nat then Ok i
      else Err (Status_Invalid "No match for FieldRef")
  | FieldRef_name n =>
      match FindAll_name n schema 0 with
      | [i] => Ok i
      | [] => Err (Status_Invalid "No match for FieldRef")
      | _ => Err (Status_Invalid "Multiple matches for FieldRef")
      end
  end.

Section Node.

(** Opaque to the node: the state of a kernel, the grouper, the options of
    an aggregate function and the executor of the plan. *)
Variables KernelState Grouper FunctionOptions Executor : Type.

(** [internal::Aggregate]. *)
Record Aggregate : Type := mkAggregate {
  function : string;
  options : option FunctionOptions
}.

(** [AggregateNodeOptions], from options.h. *)
Record AggregateNodeOptions : Type := mkAggregateNodeOptions {
  aggregates : list Aggregate;
  targets : list FieldRef;
  names : list string;
  keys : list FieldRef
}.

(** [struct HashAggregateKernel], the functions the node calls.  Each works
    on the state bound to its KernelContext; [resize], [consume] and
    [merge] change it in place, [merge] takes the state of another thread
    and the transposition of its group ids, [finalize] returns a status and
    writes a Datum. *)
Record HashAggregateKernel : Type := mkKernel {
  resize : KernelState -> Z -> Status * KernelState;
  consume : KernelState -> ExecBatch.t -> Status * KernelState;
  merge : KernelState -> KernelState -> Datum -> Status * KernelState;
  finalize : KernelState -> Status * Datum
}.

(** What the node calls and does not define: [internal::GetKernels],
    [internal::InitKernels] and [internal::ResolveKernels] (declared at
    the top of aggregate_node.cc), the grouper, and [Executor::Spawn]
    (the task is named by the index of the chunk it outputs). *)
Record Externals : Type := mkExternals {
  GetKernels : list Aggregate -> list ValueDescr -> Result (list HashAggregateKernel);
  InitKernels :
    list HashAggregateKernel -> list Aggregate -> list ValueDescr ->
    Result (list KernelState);
  ResolveKernels :
    list Aggregate -> list HashAggregateKernel -> list KernelState ->
    list ValueDescr -> Result FieldVector;
  Grouper_Make : list ValueDescr -> Result Grouper;
  Grouper_Consume : Grouper -> ExecBatch.t -> Result Datum * Grouper;
  Grouper_num_groups : Grouper -> Z;
  Grouper_GetUniques : Grouper -> Result ExecBatch.t * Grouper;
  Spawn : Executor -> Z -> Status * Executor
}.

Variable ext : Externals.

(** The part of the plan's ExecContext the node reads.  [exec_chunksize]
    is an [int64_t]; a context on which it was never set holds
    [INT64_MAX].  [executor] is null or an executor. *)
Record ExecContext : Type := mkExecContext {
  exec_chunksize : Z;
  executor : option Executor
}.

Record ThreadLocalState : Type := mkThreadLocalState {
  grouper : option Grouper;
  agg_states : list (option KernelState)
}.

Definition ThreadLocalState_default : ThreadLocalState :=
  mkThreadLocalState None [].

(** The members of [class GroupByNode]; [input_schema] is
    [inputs_[0]->output_schema()], [finished_] is whether the future is
    finished. *)
Record t : Type := mk {
  ctx_ : ExecContext;
  finished_ : bool;
  input_schema : Schema;
  output_schema : Schema;
  key_field_ids_ : list nat;
  agg_src_field_ids_ : list nat;
  aggs_ : list Aggregate;
  agg_kernels_ : list HashAggregateKernel;
  owned_options_ : list (option FunctionOptions);
  input_counter_ : AtomicCounter.t;
  output_counter_ : AtomicCounter.t;
  local_states_ : list ThreadLocalState;
  out_data_ : ExecBatch.t
}.

Definition set_ctx (nd : t) (c : ExecContext) : t :=
  mk c (finished_ nd) (input_schema nd) (output_schema nd)
    (key_field_ids_ nd) (agg_src_field_ids_ nd) (aggs_ nd) (agg_kernels_ nd)
    (owned_options_ nd) (input_counter_ nd) (output_counter_ nd)
    (local_states_ nd) (out_data_ nd).
Definition set_finished (nd : t) (b : bool) : t :=
  mk (ctx_ nd) b (input_schema nd) (output_schema nd)
    (key_field_ids_ nd) (agg_src_field_ids_ nd) (aggs_ nd) (agg_kernels_ nd)
    (owned_options_ nd) (input_counter_ nd) (output_counter_ nd)
    (local_states_ nd) (out_data_ nd).
Definition set_input_counter (nd : t) (c : AtomicCounter.t) : t :=
  mk (ctx_ nd) (finished_ nd) (input_schema nd) (output_schema nd)
    (key_field_ids_ nd) (agg_src_field_ids_ nd) (aggs_ nd) (agg_kernels_ nd)
    (owned_options_ nd) c (output_counter_ nd)
    (local_states_ nd) (out_data_ nd).
Definition set_output_counter (nd : t) (c : AtomicCounter.t) : t :=
  mk (ctx_ nd) (finished_ nd) (input_schema nd) (output_schema nd)
    (key_field_ids_ nd) (agg_src_field_ids_ nd) (aggs_ nd) (agg_kernels_ nd)
    (owned_options_ nd) (input_counter_ nd) c
    (local_states_ nd) (out_data_ nd).
Definition set_local_states (nd : t) (l : list ThreadLocalState) : t :=
  mk (ctx_ nd) (finished_ nd) (input_schema nd) (output_schema nd)
    (key_field_ids_ nd) (agg_src_field_ids_ nd) (aggs_ nd) (agg_kernels_ nd)
    (owned_options_ nd) (input_counter_ nd) (output_counter_ nd)
    l (out_data_ nd).
Definition set_out_data (nd : t) (b : ExecBatch.t) : t :=
  mk (ctx_ nd) (finished_ nd) (input_schema nd) (output_schema nd)
    (key_field_ids_ nd) (agg_src_field_ids_ nd) (aggs_ nd) (agg_kernels_ nd)
    (owned_options_ nd) (input_counter_ nd) (output_counter_ nd)
    (local_states_ nd) b.

(** ** GroupByNode::Make *)

(** The loops "find input field indices": [refs[i]] is resolved for
    [i = i0 .. i0 + n - 1], the first failure is returned. *)
Fixpoint find_field_ids (refs : list FieldRef) (schema : Schema)
    (i n : nat) (ids : list nat) : option (Result (list nat)) :=
  match n with
  | O => Some (Ok ids)
  | S n' =>
      ref ← refs !! i;
      match FindOne ref schema with
      | Err st => Some (Err st)
      | Ok id => find_field_ids refs schema (S i) n' (<[i := id]> ids)
      end
  end.

(** [*fields[i]]: the field behind the i-th pointer of a FieldVector. *)
Definition field (fields : FieldVector) (i : nat) : option Field :=
  match fields !! i with
  | Some (Some f) => Some f
  | _ => None
  end.

(** [ValueDescr(input_schema->field(id)->type(), shape)] for each id. *)
Definition descrs_of (schema : Schema) (ids : list nat) (sh : Shape)
  : option (list ValueDescr) :=
  mapM (fun i => f ← field schema i; Some (mkValueDescr (type f) sh)) ids.

(** The first loop over [output_fields]: the aggregate fields. *)
Fixpoint fill_agg_fields (agg_result_fields : FieldVector)
    (field_names : list string) (i n : nat) (output_fields : FieldVector)
  : option FieldVector :=
  match n with
  | O => Some output_fields
  | S n' =>
      f ← field agg_result_fields i;
      field_name ← field_names !! i;
      fill_agg_fields agg_result_fields field_names (S i) n'
        (<[i := Some (WithName f field_name)]> output_fields)
  end.

(** The second loop over [output_fields]: the key fields, from [base]. *)
Fixpoint fill_key_fields (schema : Schema) (key_field_ids : list nat)
    (base i n : nat) (output_fields : FieldVector) : option FieldVector :=
  match n with
  | O => Some output_fields
  | S n' =>
      key_field_id ← key_field_ids !! i;
      f ← schema !! key_field_id;
      fill_key_fields schema key_field_ids base (S i) n'
        (<[(base + i)%nat := f]> output_fields)
  end.

(** [GroupByNode::Make], for an input with schema [input_schema] in a plan
    with exec context [ctx]. *)
Definition Make (input_schema : Schema) (ctx : ExecContext)
    (aggregate_options : AggregateNodeOptions) : option (Result t) :=
  let keys := keys aggregate_options in
  let aggs := aggregates aggregate_options in
  let field_names := names aggregate_options in
  let K := List.length keys in
  let N := List.length aggs in
  r ← find_field_ids keys input_schema 0 K (replicate K 0%nat);
  match r with
  | Err st => Some (Err st)
  | Ok key_field_ids =>
  r ← find_field_ids (targets aggregate_options) input_schema 0 N
        (replicate N 0%nat);
  match r with
  | Err st => Some (Err st)
  | Ok agg_src_field_ids =>
  agg_src_descrs ← descrs_of input_schema agg_src_field_ids ARRAY;
  match GetKernels ext aggs agg_src_descrs with
  | Err st => Some (Err st)
  | Ok agg_kernels =>
  match InitKernels ext agg_kernels aggs agg_src_descrs with
  | Err st => Some (Err st)
  | Ok agg_states =>
  match ResolveKernels ext aggs agg_kernels agg_states agg_src_descrs with
  | Err st => Some (Err st)
  | Ok agg_result_fields =>
  output_fields ←
    fill_agg_fields agg_result_fields field_names 0 N (replicate (K + N) None);
  output_fields ←
    fill_key_fields input_schema key_field_ids N 0 K output_fields;
  let owned_options := map options aggs in
  Some (Ok (mk ctx true input_schema output_fields key_field_ids
              agg_src_field_ids aggs agg_kernels owned_options
              AtomicCounter.init AtomicCounter.init [] (ExecBatch.mk [] 0)))
  end end end end end.

(** ** Consuming a batch *)

(** Modelled from the spec: ExecBatch::Make is defined in exec.cc, which is
    not among the sources.  Design document, 4.7: "form a two-column batch
    (target_column_i, id_array)".  The length of the batch is the common
    length of its arrays, 1 when it has only scalars; it is an error to
    give no value, or arrays of different lengths. *)
Definition Datum_length (d : Datum) : option Z :=
  match d with
  | Datum_ARRAY vs => Some (Z.of_nat (List.length vs))
  | _ => None
  end.

Fixpoint ExecBatch_Make_length (values : list Datum) (len : option Z)
  : Result Z :=
  match values with
  | [] => Ok (default 1 len)
  | v :: rest =>
      match Datum_length v, len with
      | Some n, Some m =>
          if n =? m then ExecBatch_Make_length rest len
          else Err (Status_Invalid
                      "Arrays used to construct an ExecBatch must have equal length")
      | Some n, None => ExecBatch_Make_length rest (Some n)
      | None, _ => ExecBatch_Make_length rest len
      end
  end.

Definition ExecBatch_Make (values : list Datum) : Result ExecBatch.t :=
  match values with
  | [] => Err (Status_Invalid
                 "Cannot infer ExecBatch length without at least one value")
  | _ =>
      match ExecBatch_Make_length values None with
      | Ok n => Ok (ExecBatch.mk values n)
      | Err st => Err st
      end
  end.

Definition InitLocalStateIfNeeded (nd : t) (state : ThreadLocalState)
  : option (Status * ThreadLocalState) :=
  match grouper state with
  | Some _ => Some (Status_OK, state)
  | None =>
      key_descrs ← descrs_of (input_schema nd) (key_field_ids_ nd) ANY;
      match Grouper_Make ext key_descrs with
      | Err st => Some (st, state)
      | Ok g =>
          let state := mkThreadLocalState (Some g) (agg_states state) in
          agg_src_descrs ←
            descrs_of (input_schema nd) (agg_src_field_ids_ nd) ARRAY;
          match InitKernels ext (agg_kernels_ nd) (aggs_ nd) agg_src_descrs with
          | Err st => Some (st, state)
          | Ok states =>
              Some (Status_OK, mkThreadLocalState (Some g) (map Some states))
          end
      end
  end.

(** The loop "execute aggregate kernels" of [Consume], from kernel [i] on. *)
Fixpoint Consume_kernels (nd : t) (batch : ExecBatch.t) (id_batch : Datum)
    (num_groups : Z) (i n : nat) (states : list (option KernelState))
  : option (Status * list (option KernelState)) :=
  match n with
  | O => Some (Status_OK, states)
  | S n' =>
      kernel ← agg_kernels_ nd !! i;
      state ← states !! i;
      src ← agg_src_field_ids_ nd !! i;
      column ← ExecBatch.values batch !! src;
      match ExecBatch_Make [column; id_batch] with
      | Err st => Some (st, states)
      | Ok agg_batch =>
          state ← state;
          let '(st1, state1) := resize kernel state num_groups in
          if negb (ok st1) then Some (st1, <[i := Some state1]> states)
          else
            let '(st2, state2) := consume kernel state1 agg_batch in
            let states' := <[i := Some state2]> states in
            if negb (ok st2) then Some (st2, states')
            else Consume_kernels nd batch id_batch num_groups (S i) n' states'
      end
  end.

Definition Consume (thread_index : nat) (batch : ExecBatch.t) (nd : t)
  : option (Status * t) :=
  if (List.length (local_states_ nd) <=? thread_index)%nat then
    Some (Status_IndexError
            ("thread index " +:+ pretty thread_index
             +:+ " is out of range [0, "
             +:+ pretty (List.length (local_states_ nd)) +:+ ")"),
          nd)
  else
    state ← local_states_ nd !! thread_index;
    '(st, state) ← InitLocalStateIfNeeded nd state;
    let put state :=
      set_local_states nd (<[thread_index := state]> (local_states_ nd)) in
    if negb (ok st) then Some (st, put state)
    else
      keys ← mapM (fun i => ExecBatch.values batch !! i) (key_field_ids_ nd);
      let key_batch := ExecBatch.mk keys (ExecBatch.length batch) in
      g ← grouper state;
      let '(r, g) := Grouper_Consume ext g key_batch in
      let state := mkThreadLocalState (Some g) (agg_states state) in
      match r with
      | Err st => Some (st, put state)
      | Ok id_batch =>
          '(st, states) ←
            Consume_kernels nd batch id_batch (Grouper_num_groups ext g)
              0 (List.length (agg_kernels_ nd)) (agg_states state);
          Some (st, put (mkThreadLocalState (Some g) states))
      end.

(** ** Merging the thread-local states into slot 0 *)

(** The inner loop of [Merge]: the states of [state] are merged into those
    of [state0], kernel by kernel. *)
Fixpoint Merge_kernels (nd : t) (transposition : Datum) (num_groups : Z)
    (i n : nat) (states0 states : list (option KernelState))
  : option (Status * list (option KernelState) * list (option KernelState)) :=
  match n with
  | O => Some (Status_OK, states0, states)
  | S n' =>
      kernel ← agg_kernels_ nd !! i;
      state0 ← states0 !! i ≫= (fun p => p);
      let '(st1, state0) := resize kernel state0 num_groups in
      if negb (ok st1) then Some (st1, <[i := Some state0]> states0, states)
      else
        other ← states !! i ≫= (fun p => p);
        let '(st2, state0) := merge kernel state0 other transposition in
        let states0' := <[i := Some state0]> states0 in
        if negb (ok st2) then Some (st2, states0', states)
        else
          Merge_kernels nd transposition num_groups (S i) n'
            states0' (<[i := None]> states)
  end.

(** One round of the outer loop of [Merge]: slot [i] into slot 0. *)
Definition Merge_slot (nd : t) (i : nat) (l : list ThreadLocalState)
  : option (Status * list ThreadLocalState) :=
  state0 ← l !! 0%nat;
  state ← l !! i;
  match grouper state with
  | None => Some (Status_OK, l)
  | Some g =>
      let '(r, g) := Grouper_GetUniques ext g in
      let state := mkThreadLocalState (Some g) (agg_states state) in
      match r with
      | Err st => Some (st, <[i := state]> l)
      | Ok other_keys =>
          g0 ← grouper state0;
          let '(r, g0) := Grouper_Consume ext g0 other_keys in
          let state0 := mkThreadLocalState (Some g0) (agg_states state0) in
          match r with
          | Err st => Some (st, <[0%nat := state0]> (<[i := state]> l))
          | Ok transposition =>
              let state := mkThreadLocalState None (agg_states state) in
              '(st, states0, states) ←
                Merge_kernels nd transposition (Grouper_num_groups ext g0)
                  0 (List.length (agg_kernels_ nd))
                  (agg_states state0) (agg_states state);
              Some (st,
                    <[0%nat := mkThreadLocalState (Some g0) states0]>
                      (<[i := mkThreadLocalState None states]> l))
          end
      end
  end.

Fixpoint Merge_from (nd : t) (i n : nat) (l : list ThreadLocalState)
  : option (Status * list ThreadLocalState) :=
  match n with
  | O => Some (Status_OK, l)
  | S n' =>
      '(st, l') ← Merge_slot nd i l;
      if negb (ok st) then Some (st, l') else Merge_from nd (S i) n' l'
  end.

Definition Merge (nd : t) : option (Status * t) :=
  _ ← local_states_ nd !! 0%nat;
  '(st, l) ←
    Merge_from nd 1 (List.length (local_states_ nd) - 1) (local_states_ nd);
  Some (st, set_local_states nd l).

(** ** Finalize and output *)

Definition output_batch_size (nd : t) : Z :=
  let result := to_int (exec_chunksize (ctx_ nd)) in
  if result <? 0 then 32 * 1024 else result.

(** Modelled from the spec: bit_util::CeilDiv is defined in
    util/bit_util.h, which is not among the sources.  Design document,
    4.7: the total is "ceil(num_groups / output_batch_size)", and "if
    num_groups == 0, the code path sets the total to 0".  A division by
    zero is undefined. *)
Definition CeilDiv (value divisor : Z) : option Z :=
  if value =? 0 then Some 0
  else if divisor =? 0 then None
  else Some (1 + Z.quot (value - 1) divisor).

(** The loop of [Finalize] over the kernels. *)
Fixpoint Finalize_kernels (nd : t) (i n : nat) (values : list Datum)
    (states : list (option KernelState))
  : option (Status * list Datum * list (option KernelState)) :=
  match n with
  | O => Some (Status_OK, values, states)
  | S n' =>
      kernel ← agg_kernels_ nd !! i;
      state ← states !! i ≫= (fun p => p);
      let '(st, out) := finalize kernel state in
      if negb (ok st) then Some (st, values, states)
      else
        Finalize_kernels nd (S i) n' (<[i := out]> values)
          (<[i := None]> states)
  end.

(** [std::move(first, last, d_first)] into a vector: undefined when the
    target is too short. *)
Definition move_into {A} (src : list A) (pos : nat) (dst : list A)
  : option (list A) :=
  if (pos + List.length src <=? List.length dst)%nat
  then Some (take pos dst ++ src ++ drop (pos + List.length src) dst)
  else None.

Definition Finalize (nd : t) : option (Result ExecBatch.t * t * list Event) :=
  state ← local_states_ nd !! 0%nat;
  '(st, state) ← InitLocalStateIfNeeded nd state;
  let put nd state :=
    set_local_states nd (<[0%nat := state]> (local_states_ nd)) in
  if negb (ok st) then Some (Err st, put nd state, [])
  else
    g ← grouper state;
    let N := List.length (agg_kernels_ nd) in
    let K := List.length (key_field_ids_ nd) in
    let length := Grouper_num_groups ext g in
    let values := replicate (N + K) Datum_NONE in
    '(st, values, states) ←
      Finalize_kernels nd 0 N values (agg_states state);
    let state := mkThreadLocalState (Some g) states in
    if negb (ok st) then Some (Err st, put nd state, [])
    else
      let '(r, g) := Grouper_GetUniques ext g in
      let state := mkThreadLocalState (Some g) states in
      match r with
      | Err st => Some (Err st, put nd state, [])
      | Ok out_keys =>
          values ← move_into (ExecBatch.values out_keys) N values;
          let out_data := ExecBatch.mk values length in
          let nd := put nd (mkThreadLocalState None states) in
          total ← CeilDiv length (output_batch_size nd);
          let '(complete, c) :=
            AtomicCounter.SetTotal (output_counter_ nd) (to_int total) in
          let nd := set_output_counter nd c in
          if complete
          then Some (Ok out_data, set_finished nd true, [MarkFinished])
          else Some (Ok out_data, nd, [])
      end.

Definition OutputNthBatch (n : Z) (nd : t) : t * list Event :=
  if finished_ nd then (nd, [])
  else
    let batch_size := output_batch_size nd in
    let batch := ExecBatch.Slice (out_data_ nd) (batch_size * n) batch_size in
    let '(complete, c) := AtomicCounter.Increment (output_counter_ nd) in
    let nd := set_output_counter nd c in
    if complete
    then (set_finished nd true, [Output_InputReceived batch; MarkFinished])
    else (nd, [Output_InputReceived batch]).

(** The loop of [OutputResult], from chunk [i] on, [n] chunks to go. *)
Fixpoint OutputResult_loop (i : Z) (n : nat) (nd : t)
  : Status * t * list Event :=
  match n with
  | O => (Status_OK, nd, [])
  | S n' =>
      match executor (ctx_ nd) with
      | Some e =>
          if finished_ nd then (Status_OK, nd, [])
          else
            let '(st, e') := Spawn ext e i in
            let nd' :=
              set_ctx nd (mkExecContext (exec_chunksize (ctx_ nd)) (Some e')) in
            if negb (ok st) then (st, nd', [])
            else
              let '(st', nd'', es) := OutputResult_loop (i + 1) n' nd' in
              (st', nd'', Executor_Spawn i :: es)
      | None =>
          let '(nd', es) := OutputNthBatch i nd in
          let '(st', nd'', es') := OutputResult_loop (i + 1) n' nd' in
          (st', nd'', es ++ es')
      end
  end.

Definition OutputResult (nd : t) : option (Status * t * list Event) :=
  '(st, nd) ← Merge nd;
  if negb (ok st) then Some (st, nd, [])
  else
    '(r, nd, es) ← Finalize nd;
    match r with
    | Err st => Some (st, nd, es)
    | Ok out_data =>
        let nd := set_out_data nd out_data in
        num_output_batches ← AtomicCounter.total (output_counter_ nd);
        let '(st, nd, es') :=
          OutputResult_loop 0 (Z.to_nat num_output_batches) nd in
        Some (st, nd,
              es ++ [Output_InputFinished num_output_batches] ++ es')
    end.

(** [ErrorIfNotOk(OutputResult())]. *)
Definition OutputResult_or_error (nd : t) : option (t * list Event) :=
  '(st, nd, es) ← OutputResult nd;
  Some (nd, es ++ snd (ErrorIfNotOk st)).

(** ** The calls on the node *)

Definition InputReceived (thread_index : nat) (batch : ExecBatch.t) (nd : t)
  : option (t * list Event) :=
  if finished_ nd then Some (nd, [])
  else
    '(st, nd) ← Consume thread_index batch nd;
    let '(failed, es) := ErrorIfNotOk st in
    if failed then Some (nd, es)
    else
      let '(complete, c) := AtomicCounter.Increment (input_counter_ nd) in
      let nd := set_input_counter nd c in
      if complete then OutputResult_or_error nd else Some (nd, []).

Definition ErrorReceived (error : Status) (nd : t) : t * list Event :=
  (nd, [Output_ErrorReceived error]).

Definition InputFinished (total_batches : Z) (nd : t)
  : option (t * list Event) :=
  if finished_ nd then Some (nd, [])
  else
    let '(complete, c) :=
      AtomicCounter.SetTotal (input_counter_ nd) total_batches in
    let nd := set_input_counter nd c in
    if complete then OutputResult_or_error nd else Some (nd, []).

(** [StartProducing()]; [capacity] is [ThreadIndexer::Capacity()]. *)
Definition StartProducing (capacity : nat) (nd : t) : Status * t * list Event :=
  (Status_OK,
   set_local_states (set_finished nd false)
     (list.resize capacity ThreadLocalState_default (local_states_ nd)),
   []).

Definition StopProducing (nd : t) : t * list Event :=
  let '(_, c) := AtomicCounter.Cancel (input_counter_ nd) in
  let nd := set_input_counter nd c in
  let '(won, c) := AtomicCounter.Cancel (output_counter_ nd) in
  let nd := set_output_counter nd c in
  (if won then set_finished nd true else nd,
   (if won then [MarkFinished] else []) ++ [Input_StopProducing]).

Inductive Call : Type :=
| Call_StartProducing (capacity : nat)
| Call_InputReceived (thread_index : nat) (batch : ExecBatch.t)
| Call_ErrorReceived (error : Status)
| Call_InputFinished (total_batches : Z)
| Call_StopProducing
| Call_OutputNthBatch (n : Z).

(** One call on the node; [Call_OutputNthBatch] is a task that the
    executor runs. *)
Definition call (c : Call) (nd : t) : option (t * list Event) :=
  match c with
  | Call_StartProducing capacity =>
      let '(_, nd', es) := StartProducing capacity nd in Some (nd', es)
  | Call_InputReceived thread_index batch =>
      InputReceived thread_index batch nd
  | Call_ErrorReceived error => Some (ErrorReceived error nd)
  | Call_InputFinished total_batches => InputFinished total_batches nd
  | Call_StopProducing => Some (StopProducing nd)
  | Call_OutputNthBatch n => Some (OutputNthBatch n nd)
  end.

Fixpoint run (calls : list Call) (nd : t) : option (t * list Event) :=
  match calls with
  | [] => Some (nd, [])
  | c :: rest =>
      '(nd1, es1) ← call c nd;
      '(nd2, es2) ← run rest nd1;
      Some (nd2, es1 ++ es2)
  end.

(** The indices [i, i + 1, ...] of [n] chunks. *)
Fixpoint chunk_indices (i : Z) (n : nat) : list Z :=
  match n with
  | O => []
  | S n' => i :: chunk_indices (i + 1) n'
  end.

(** The n-th chunk of the output. *)
Definition chunk (nd : t) (n : Z) : ExecBatch.t :=
  ExecBatch.Slice (out_data_ nd) (output_batch_size nd * n)
    (output_batch_size nd).

(** The calls by which the input reaches the node. *)
Definition is_input_call (c : Call) : bool :=
  match c with
  | Call_InputReceived _ _ | Call_InputFinished _ => true
  | _ => false
  end.

Definition is_StartProducing (c : Call) : bool :=
  match c with Call_StartProducing _ => true | _ => false end.

(** The members that are [const] in the class, and the chunk size of the
    context: no call changes them.  The number of thread slots changes
    only in StartProducing. *)
Definition static (nd : t) :=
  (input_schema nd, output_schema nd, key_field_ids_ nd,
   agg_src_field_ids_ nd, aggs_ nd, agg_kernels_ nd, owned_options_ nd,
   exec_chunksize (ctx_ nd)).

Definition same_shape (nd nd' : t) : Prop :=
  List.length (local_states_ nd') = List.length (local_states_ nd)
  /\ static nd' = static nd.

(** Something that takes the node from [nd] to [nd'] with the events
    [es] resolves [finished_] at most once, not at all when the output
    counter was complete, and only as it completes the output counter. *)
Definition marks (nd nd' : t) (es : list Event) : Prop :=
  (AtomicCounter.complete_ (output_counter_ nd) = true ->
   AtomicCounter.complete_ (output_counter_ nd') = true
   /\ count_MarkFinished es = 0%nat)
  /\ (count_MarkFinished es <= 1)%nat
  /\ (count_MarkFinished es = 1%nat ->
      AtomicCounter.complete_ (output_counter_ nd') = true).

(** From [nd] to [nd'], [finished_] stays resolved if it was, and it is
    resolved if the output counter has become complete. *)
Definition settles (nd nd' : t) : Prop :=
  (finished_ nd = true -> finished_ nd' = true)
  /\ (AtomicCounter.complete_ (output_counter_ nd') = true ->
      AtomicCounter.complete_ (output_counter_ nd) = true
      \/ finished_ nd' = true).

(** The [j]-th field reference of [refs] matches exactly one field of the
    schema. *)
Definition resolves (schema : Schema) (refs : list FieldRef) (j : nat) : Prop :=
  exists ref id, refs !! j = Some ref /\ FindOne ref schema = Ok id.

(** The tasks that the node handed to the executor, in a trace. *)
Definition spawned_tasks (es : list Event) : list Z :=
  flat_map (fun e => match e with Executor_Spawn n => [n] | _ => [] end) es.

(** The executor runs only tasks that it was given: in the calls [calls]
    made on [nd], every task [OutputNthBatch(n)] comes after the node has
    spawned it; [spawned] are the tasks spawned before these calls. *)
Fixpoint tasks_follow_spawns (spawned : list Z) (calls : list Call) (nd : t)
  : bool :=
  match calls with
  | [] => true
  | c :: rest =>
      match c with
      | Call_OutputNthBatch n => existsb (Z.eqb n) spawned
      | _ => true
      end
      && match call c nd with
         | Some (nd1, es1) =>
             tasks_follow_spawns (spawned ++ spawned_tasks es1) rest nd1
         | None => true
         end
  end.

(** The columns of a batch of the output, [N] kernels and [K] keys: [N + K]
    columns; column [i < N] is what [finalize] of kernel [i] wrote for the
    [i]-th kernel state of the thread slot [state]; column [N + j] is the
    [j]-th column of the unique keys of the grouper of [state].  [cut] is
    what slicing does to a column (nothing, for the whole batch). *)
Definition output_columns (nd : t) (state : ThreadLocalState)
    (cut : Datum -> Datum) (values : list Datum) : Prop :=
  let N := List.length (agg_kernels_ nd) in
  let K := List.length (key_field_ids_ nd) in
  List.length values = (N + K)%nat
  /\ (forall i, (i < N)%nat ->
      exists kernel s st out,
        agg_kernels_ nd !! i = Some kernel
        /\ agg_states state !! i = Some (Some s)
        /\ finalize kernel s = (st, out) /\ ok st = true
        /\ values !! i = Some (cut out))
  /\ (exists g g' out_keys,
        grouper state = Some g
        /\ Grouper_GetUniques ext g = (Ok out_keys, g')
        /\ (List.length (ExecBatch.values out_keys) <= K)%nat
        /\ forall j, (j < List.length (ExecBatch.values out_keys))%nat ->
           values !! (N + j)%nat = cut <$> ExecBatch.values out_keys !! j).

(** Events among which no batch goes downstream and no task goes to the
    executor. *)
Definition quiet (es : list Event) : Prop :=
  (forall b, ~ In (Output_InputReceived b) es) /\ spawned_tasks es = [].

(** A batch that goes downstream is a slice of [out_data_]. *)
Definition slices_of (out_data : ExecBatch.t) (es : list Event) : Prop :=
  forall b, In (Output_InputReceived b) es ->
    exists offset len, b = ExecBatch.Slice out_data offset len.

(** [out_data_] holds a batch that Finalize returned on this node. *)
Definition finalized (base : t)
    (out_data : ExecBatch.t) : Prop :=
  exists state,
    output_columns base state (fun d => d) (ExecBatch.values out_data).

(** The batches of [es] are slices of a batch that Finalize returned. *)
Definition sends_columns (base : t)
    (es : list Event) : Prop :=
  forall b, In (Output_InputReceived b) es ->
    exists state offset len,
      output_columns base state (ExecBatch.Slice_Datum offset len)
        (ExecBatch.values b).

(** An [arrow::Result] that holds a status holds an error: what the
    grouper returns as an error is not OK. *)
Definition grouper_errors_are_errors : Prop :=
  (forall g st g', Grouper_GetUniques ext g = (Err st, g') -> ok st = false)
  /\ (forall g batch st g',
        Grouper_Consume ext g batch = (Err st, g') -> ok st = false).

End Node.

Arguments mkAggregate {FunctionOptions}.
Arguments function {FunctionOptions}.
Arguments options {FunctionOptions}.
Arguments mkAggregateNodeOptions {FunctionOptions}.
Arguments aggregates {FunctionOptions}.
Arguments targets {FunctionOptions}.
Arguments names {FunctionOptions}.
Arguments keys {FunctionOptions}.
Arguments mkKernel {KernelState}.
Arguments resize {KernelState}.
Arguments consume {KernelState}.
Arguments merge {KernelState}.
Arguments finalize {KernelState}.
Arguments mkExternals {KernelState Grouper FunctionOptions Executor}.
Arguments GetKernels {KernelState Grouper FunctionOptions Executor}.
Arguments InitKernels {KernelState Grouper FunctionOptions Executor}.
Arguments ResolveKernels {KernelState Grouper FunctionOptions Executor}.
Arguments Grouper_Make {KernelState Grouper FunctionOptions Executor}.
Arguments Grouper_Consume {KernelState Grouper FunctionOptions Executor}.
Arguments Grouper_num_groups {KernelState Grouper FunctionOptions Executor}.
Arguments Grouper_GetUniques {KernelState Grouper FunctionOptions Executor}.
Arguments Spawn {KernelState Grouper FunctionOptions Executor}.
Arguments mkExecContext {Executor}.
Arguments exec_chunksize {Executor}.
Arguments executor {Executor}.
Arguments mkThreadLocalState {KernelState Grouper}.
Arguments grouper {KernelState Grouper}.
Arguments agg_states {KernelState Grouper}.
Arguments ThreadLocalState_default {KernelState Grouper}.
Arguments mk {KernelState Grouper FunctionOptions Executor}.
Arguments ctx_ {KernelState Grouper FunctionOptions Executor}.
Arguments finished_ {KernelState Grouper FunctionOptions Executor}.
Arguments input_schema {KernelState Grouper FunctionOptions Executor}.
Arguments output_schema {KernelState Grouper FunctionOptions Executor}.
Arguments key_field_ids_ {KernelState Grouper FunctionOptions Executor}.
Arguments agg_src_field_ids_ {KernelState Grouper FunctionOptions Executor}.
Arguments aggs_ {KernelState Grouper FunctionOptions Executor}.
Arguments agg_kernels_ {KernelState Grouper FunctionOptions Executor}.
Arguments owned_options_ {KernelState Grouper FunctionOptions Executor}.
Arguments input_counter_ {KernelState Grouper FunctionOptions Executor}.
Arguments output_counter_ {KernelState Grouper FunctionOptions Executor}.
Arguments local_states_ {KernelState Grouper FunctionOptions Executor}.
Arguments out_data_ {KernelState Grouper FunctionOptions Executor}.
Arguments set_ctx {KernelState Grouper FunctionOptions Executor}.
Arguments set_finished {KernelState Grouper FunctionOptions Executor}.
Arguments set_input_counter {KernelState Grouper FunctionOptions Executor}.
Arguments set_output_counter {KernelState Grouper FunctionOptions Executor}.
Arguments set_local_states {KernelState Grouper FunctionOptions Executor}.
Arguments set_out_data {KernelState Grouper FunctionOptions Executor}.
Arguments Make {KernelState Grouper FunctionOptions Executor}.
Arguments InitLocalStateIfNeeded {KernelState Grouper FunctionOptions Executor}.
Arguments Consume_kernels {KernelState Grouper FunctionOptions Executor}.
Arguments Consume {KernelState Grouper FunctionOptions Executor}.
Arguments Merge_kernels {KernelState Grouper FunctionOptions Executor}.
Arguments Merge_slot {KernelState Grouper FunctionOptions Executor}.
Arguments Merge_from {KernelState Grouper FunctionOptions Executor}.
Arguments Merge {KernelState Grouper FunctionOptions Executor}.
Arguments output_batch_size {KernelState Grouper FunctionOptions Executor}.
Arguments Finalize_kernels {KernelState Grouper FunctionOptions Executor}.
Arguments Finalize {KernelState Grouper FunctionOptions Executor}.
Arguments OutputNthBatch {KernelState Grouper FunctionOptions Executor}.
Arguments OutputResult_loop {KernelState Grouper FunctionOptions Executor}.
Arguments OutputResult {KernelState Grouper FunctionOptions Executor}.
Arguments OutputResult_or_error {KernelState Grouper FunctionOptions Executor}.
Arguments InputReceived {KernelState Grouper FunctionOptions Executor}.
Arguments ErrorReceived {KernelState Grouper FunctionOptions Executor}.
Arguments InputFinished {KernelState Grouper FunctionOptions Executor}.
Arguments StartProducing {KernelState Grouper FunctionOptions Executor}.
Arguments StopProducing {KernelState Grouper FunctionOptions Executor}.
Arguments chunk {KernelState Grouper FunctionOptions Executor}.
Arguments static {KernelState Grouper FunctionOptions Executor}.
Arguments same_shape {KernelState Grouper FunctionOptions Executor}.
Arguments marks {KernelState Grouper FunctionOptions Executor}.
Arguments settles {KernelState Grouper FunctionOptions Executor}.
Arguments grouper_errors_are_errors
  {KernelState Grouper FunctionOptions Executor}.
Arguments tasks_follow_spawns {KernelState Grouper FunctionOptions Executor}.
Arguments output_columns {KernelState Grouper FunctionOptions Executor}.
Arguments finalized {KernelState Grouper FunctionOptions Executor}.
Arguments sends_columns {KernelState Grouper FunctionOptions Executor}.
Arguments call {KernelState Grouper FunctionOptions Executor}.
Arguments run {KernelState Grouper FunctionOptions Executor}.

(** ** An instance: grouping by rows of scalars, summing integers

    The grouper keeps the distinct key rows in the order in which it met
    them; the id of a row is its position.  The kernel keeps one sum per
    group.  The executor is a queue that accepts every task. *)

Definition Scalar_eqb (a b : Scalar) : bool :=
  match a, b with
  | Null, Null => true
  | Int64 x, Int64 y => x =? y
  | Utf8 x, Utf8 y => String.eqb x y
  | _, _ => false
  end.

Fixpoint row_eqb (a b : list Scalar) : bool :=
  match a, b with
  | [], [] => true
  | x :: a', y :: b' => Scalar_eqb x y && row_eqb a' b'
  | _, _ => false
  end.

Definition value_at (d : Datum) (r : nat) : Scalar :=
  match d with
  | Datum_ARRAY vs => nth r vs Null
  | Datum_SCALAR v => v
  | Datum_NONE => Null
  end.

Definition row_at (columns : list Datum) (r : nat) : list Scalar :=
  map (fun d => value_at d r) columns.

Record RowGrouper : Type := mkRowGrouper {
  key_count : nat;
  uniques : list (list Scalar)
}.

Fixpoint find_row (row : list Scalar) (rows : list (list Scalar)) (i : nat)
  : option nat :=
  match rows with
  | [] => None
  | r :: rest => if row_eqb r row then Some i else find_row row rest (S i)
  end.

Fixpoint RowGrouper_ids (rows : list (list Scalar)) (g : RowGrouper)
  : list Scalar * RowGrouper :=
  match rows with
  | [] => ([], g)
  | row :: rest =>
      match find_row row (uniques g) 0 with
      | Some i =>
          let '(ids, g') := RowGrouper_ids rest g in
          (Int64 (Z.of_nat i) :: ids, g')
      | None =>
          let i := List.length (uniques g) in
          let '(ids, g') :=
            RowGrouper_ids rest
              (mkRowGrouper (key_count g) (uniques g ++ [row])) in
          (Int64 (Z.of_nat i) :: ids, g')
      end
  end.

Definition RowGrouper_Consume (g : RowGrouper) (batch : ExecBatch.t)
  : Result Datum * RowGrouper :=
  let rows :=
    map (row_at (ExecBatch.values batch))
      (seq 0 (Z.to_nat (ExecBatch.length batch))) in
  let '(ids, g') := RowGrouper_ids rows g in
  (Ok (Datum_ARRAY ids), g').

Definition RowGrouper_GetUniques (g : RowGrouper)
  : Result ExecBatch.t * RowGrouper :=
  (Ok (ExecBatch.mk
         (map (fun c => Datum_ARRAY (map (fun row => nth c row Null) (uniques g)))
            (seq 0 (key_count g)))
         (Z.of_nat (List.length (uniques g)))),
   g).

Definition add_at (sums : list Z) (i : nat) (v : Z) : list Z :=
  match sums !! i with
  | Some s => <[i := s + v]> sums
  | None => sums
  end.

Definition Scalar_int (v : Scalar) : Z :=
  match v with Int64 z => z | _ => 0 end.

Definition hash_sum_kernel : HashAggregateKernel (list Z) :=
  mkKernel
    (fun sums num_groups =>
       (Status_OK,
        sums ++ replicate (Z.to_nat num_groups - List.length sums) 0))
    (fun sums batch =>
       match ExecBatch.values batch with
       | [column; ids] =>
           (Status_OK,
            fold_left
              (fun acc r =>
                 add_at acc (Z.to_nat (Scalar_int (value_at ids r)))
                   (Scalar_int (value_at column r)))
              (seq 0 (Z.to_nat (ExecBatch.length batch))) sums)
       | _ => (Status_Invalid "hash_sum takes a column and the group ids", sums)
       end)
    (fun sums other transposition =>
       (Status_OK,
        fold_left
          (fun acc r =>
             add_at acc (Z.to_nat (Scalar_int (value_at transposition r)))
               (nth r other 0))
          (seq 0 (List.length other)) sums))
    (fun sums => (Status_OK, Datum_ARRAY (map Int64 sums))).

Definition example_externals
  : Externals (list Z) RowGrouper unit (list Z) :=
  mkExternals
    (fun aggs descrs => Ok (map (fun _ => hash_sum_kernel) aggs))
    (fun kernels aggs descrs => Ok (map (fun _ => []) kernels))
    (fun aggs kernels states descrs =>
       Ok (map (fun d => Some (mkField "" int64)) descrs))
    (fun key_descrs => Ok (mkRowGrouper (List.length key_descrs) []))
    RowGrouper_Consume
    (fun g => Z.of_nat (List.length (uniques g)))
    RowGrouper_GetUniques
    (fun queue n => (Status_OK, queue ++ [n])).

(** The same with an executor that refuses the task of chunk 1. *)
Definition example_refusing_externals
  : Externals (list Z) RowGrouper unit (list Z) :=
  mkExternals
    (GetKernels example_externals) (InitKernels example_externals)
    (ResolveKernels example_externals) (Grouper_Make example_externals)
    RowGrouper_Consume
    (Grouper_num_groups example_externals)
    RowGrouper_GetUniques
    (fun queue n =>
       if n =? 1 then (Status_Invalid "the executor is shutting down", queue)
       else (Status_OK, queue ++ [n])).

(** Scenario S3: input columns k (utf8) and v (int64); group by k,
    aggregate sum(v) named "sum". *)
Definition example_schema : Schema :=
  [Some (mkField "k" utf8); Some (mkField "v" int64)].

Definition example_options : AggregateNodeOptions unit :=
  mkAggregateNodeOptions [mkAggregate "hash_sum" None]
    [FieldRef_name "v"] ["sum"] [FieldRef_name "k"].

(** The example node, as [Make] builds it, with the given chunk size and
    no executor. *)
Definition example_node (chunksize : Z)
  : option (Result (t (list Z) RowGrouper unit (list Z))) :=
  Make example_externals example_schema (mkExecContext chunksize None)
    example_options.

(** What [Make] returns for the example. *)
Definition example_made (chunksize : Z) : t (list Z) RowGrouper unit (list Z) :=
  mk (mkExecContext chunksize None) true example_schema
    [Some (mkField "sum" int64); Some (mkField "k" utf8)]
    [0%nat] [1%nat] [mkAggregate "hash_sum" None] [hash_sum_kernel] [None]
    AtomicCounter.init AtomicCounter.init [] (ExecBatch.mk [] 0).

(** The example node after [StartProducing] with two thread slots. *)
Definition example_started (chunksize : Z)
  : t (list Z) RowGrouper unit (list Z) :=
  snd (fst (StartProducing 2 (example_made chunksize))).

Definition example_batch_1 : ExecBatch.t :=
  ExecBatch.mk
    [Datum_ARRAY [Utf8 "a"; Utf8 "a"; Utf8 "b"];
     Datum_ARRAY [Int64 1; Int64 2; Int64 3]] 3.

Definition example_batch_2 : ExecBatch.t :=
  ExecBatch.mk
    [Datum_ARRAY [Utf8 "a"; Utf8 "b"]; Datum_ARRAY [Int64 4; Int64 5]] 2.

(** The example node after it received the first batch on thread 0. *)
Definition example_consumed (chunksize : Z)
  : t (list Z) RowGrouper unit (list Z) :=
  match run example_externals
          [Call_StartProducing 2; Call_InputReceived 0 example_batch_1]
          (example_made chunksize)
  with
  | Some (nd, _) => nd
  | None => example_started chunksize
  end.

(** What [Finalize] returns on it: the batch, the node and the events. *)
Definition example_finalized (chunksize : Z)
  : ExecBatch.t * t (list Z) RowGrouper unit (list Z) * list Event :=
  match Finalize example_externals (example_consumed chunksize) with
  | Some (Ok out_data, nd, es) => (out_data, nd, es)
  | _ => (ExecBatch.mk [] 0, example_consumed chunksize, [])
  end.

End GroupByNode.

(* ===================================================================== *)
(** * Properties of the thread pool *)
(* ===================================================================== *)

Section ThreadPoolFacts.
Import ThreadPool.

Lemma digit_of_digit_char d :
  (d < 10)%nat -> digit_of (digit_char d) = Some (Z.of_nat d).
Proof.
  intros Hd.
  do 10 (destruct d as [|d]; [reflexivity|]).
  lia.
Qed.

Lemma append_nil_l (s : string) : "" +:+ s = s.
Proof. reflexivity. Qed.

Lemma append_cons (c : ascii) (s r : string) :
  String c s +:+ r = String c (s +:+ r).
Proof. reflexivity. Qed.

Lemma digits_string_cons d ds rest :
  digits_string (d :: ds) +:+ rest
  = String (digit_char d) (digits_string ds +:+ rest).
Proof. reflexivity. Qed.

Lemma parse_digits_digits_string ds : forall acc rest,
  Forall (fun d => (d < 10)%nat) ds ->
  starts_with_digit rest = false ->
  parse_digits acc (digits_string ds +:+ rest)
  = fold_left (fun a d => 10 * a + Z.of_nat d) ds acc.
Proof.
  induction ds as [|d ds IH]; intros acc rest Hds Hrest.
  - cbn [digits_string fold_left]. rewrite append_nil_l.
    destruct rest as [|c r]; [reflexivity|].
    cbn in *. destruct (digit_of c); [discriminate|reflexivity].
  - apply Forall_cons_1 in Hds as [Hd Hds].
    rewrite digits_string_cons. cbn [parse_digits fold_left].
    rewrite (digit_of_digit_char d Hd). now apply IH.
Qed.

Lemma digits_value_nonneg ds : 0 <= digits_value ds.
Proof.
  unfold digits_value.
  assert (H : forall acc, 0 <= acc ->
            0 <= fold_left (fun a d => 10 * a + Z.of_nat d) ds acc).
  { induction ds as [|d ds IH]; intros acc Hacc; cbn; [assumption|].
    apply IH. lia. }
  apply H. lia.
Qed.

Lemma skip_spaces_digit d s :
  (d < 10)%nat -> skip_spaces (String (digit_char d) s) = String (digit_char d) s.
Proof.
  intros Hd. do 10 (destruct d as [|d]; [reflexivity|]). lia.
Qed.

Lemma stoi_digits_string ds rest :
  ds <> [] ->
  Forall (fun d => (d < 10)%nat) ds ->
  digits_value ds <= INT_MAX ->
  starts_with_digit rest = false ->
  stoi (digits_string ds +:+ rest) = Some (digits_value ds).
Proof.
  intros Hne Hds Hmax Hrest.
  destruct ds as [|d ds]; [congruence|].
  pose proof (digits_value_nonneg (d :: ds)) as Hpos.
  pose proof (parse_digits_digits_string (d :: ds) 0 rest Hds Hrest) as Hp.
  fold (digits_value (d :: ds)) in Hp.
  apply Forall_cons_1 in Hds as [Hd Hds].
  unfold stoi, strtol10.
  rewrite digits_string_cons in *.
  rewrite (skip_spaces_digit d _ Hd).
  assert (Hsign : match String (digit_char d) (digits_string ds +:+ rest) with
                  | String "-"%char r => (true, r)
                  | String "+"%char r => (false, r)
                  | _ => (false, String (digit_char d) (digits_string ds +:+ rest))
                  end = (false, String (digit_char d) (digits_string ds +:+ rest))).
  { do 10 (destruct d as [|d]; [reflexivity|]). lia. }
  rewrite Hsign.
  assert (Hsd : starts_with_digit
                  (String (digit_char d) (digits_string ds +:+ rest)) = true).
  { cbn. now rewrite (digit_of_digit_char d Hd). }
  rewrite Hsd, Hp.
  unfold INT_MIN, INT_MAX in *.
  destruct (_ <=? digits_value (d :: ds)) eqn:E1;
    destruct (digits_value (d :: ds) <=? _) eqn:E2; cbn; try reflexivity; lia.
Qed.

Lemma find_first_of_digits_string ds rest :
  Forall (fun d => (d < 10)%nat) ds ->
  find_first_of ","%char (digits_string ds +:+ String ","%char rest)
  = Some (length ds).
Proof.
  induction ds as [|d ds IH]; intros Hds; [reflexivity|].
  apply Forall_cons_1 in Hds as [Hd Hds].
  rewrite digits_string_cons. cbn [find_first_of]. rewrite (IH Hds).
  do 10 (destruct d as [|d]; [reflexivity|]). lia.
Qed.

Lemma find_first_of_digits_only ds :
  Forall (fun d => (d < 10)%nat) ds ->
  find_first_of ","%char (digits_string ds) = None.
Proof.
  induction ds as [|d ds IH]; intros Hds; [reflexivity|].
  apply Forall_cons_1 in Hds as [Hd Hds].
  cbn. rewrite (IH Hds).
  do 10 (destruct d as [|d]; [reflexivity|]). lia.
Qed.

Lemma substring_digits_string ds rest :
  substring 0 (length ds) (digits_string ds +:+ rest) = digits_string ds.
Proof.
  induction ds as [|d ds IH].
  - cbn [digits_string length]. rewrite append_nil_l.
    destruct rest; reflexivity.
  - rewrite digits_string_cons. cbn [length substring]. now rewrite IH.
Qed.

Lemma append_empty_r s : s +:+ "" = s.
Proof.
  induction s as [|c s IH]; [reflexivity|].
  rewrite append_cons. now rewrite IH.
Qed.

(** ParseOMPEnvVar reads the first number of a comma-separated list. *)
Lemma ParseOMPEnvVar_first_integer (env : Env) name ds rest :
  ds <> [] ->
  Forall (fun d => (d < 10)%nat) ds ->
  digits_value ds <= INT_MAX ->
  env !! name = Some (digits_string ds)
  \/ env !! name = Some (digits_string ds +:+ String ","%char rest) ->
  ParseOMPEnvVar env name = digits_value ds.
Proof.
  intros Hne Hds Hmax Henv.
  pose proof (digits_value_nonneg ds) as Hpos.
  unfold ParseOMPEnvVar, GetEnvVar.
  destruct Henv as [-> | ->].
  - rewrite (find_first_of_digits_only ds Hds).
    rewrite <- (append_empty_r (digits_string ds)).
    rewrite (stoi_digits_string ds "" Hne Hds Hmax eq_refl). lia.
  - rewrite (find_first_of_digits_string ds rest Hds).
    rewrite substring_digits_string.
    rewrite <- (append_empty_r (digits_string ds)).
    rewrite (stoi_digits_string ds "" Hne Hds Hmax eq_refl). lia.
Qed.

Lemma ParseOMPEnvVar_unset (env : Env) name :
  env !! name = None -> ParseOMPEnvVar env name = 0.
Proof. intros H. unfold ParseOMPEnvVar, GetEnvVar. now rewrite H. Qed.

Lemma ParseOMPEnvVar_nonneg (env : Env) name : 0 <= ParseOMPEnvVar env name.
Proof.
  unfold ParseOMPEnvVar.
  destruct (GetEnvVar env name); [|lia].
  destruct (stoi _); lia.
Qed.

Example stoi_examples :
  stoi "3" = Some 3 /\ stoi " +12x" = Some 12 /\ stoi "-7" = Some (-7)
  /\ stoi "" = None /\ stoi "threads" = None
  /\ stoi "2147483647" = Some INT_MAX /\ stoi "2147483648" = None.
Proof. repeat split; reflexivity. Qed.

Lemma digit_of_inv c d :
  digit_of c = Some d ->
  (Z.to_nat d < 10)%nat /\ c = digit_char (Z.to_nat d) /\ d = Z.of_nat (Z.to_nat d).
Proof.
  unfold digit_of, digit_char.
  destruct (_ && _) eqn:E; [|discriminate].
  apply andb_true_iff in E as [E1 E2].
  apply Z.leb_le in E1. apply Z.leb_le in E2.
  intros H. inversion H; subst. clear H.
  split; [lia|]. split; [|lia].
  replace (48 + Z.to_nat (Z.of_nat (nat_of_ascii c) - 48))%nat
    with (nat_of_ascii c) by lia.
  now rewrite ascii_nat_embedding.
Qed.

Lemma parse_digits_inv s : forall acc,
  exists ds rest,
    s = digits_string ds +:+ rest
    /\ Forall (fun d => (d < 10)%nat) ds
    /\ starts_with_digit rest = false
    /\ parse_digits acc s = fold_left (fun a d => 10 * a + Z.of_nat d) ds acc
    /\ (starts_with_digit s = true -> ds <> []).
Proof.
  induction s as [|c s IH]; intros acc.
  - exists [], "". repeat split; try reflexivity; [constructor|discriminate].
  - cbn [parse_digits starts_with_digit].
    destruct (digit_of c) as [d|] eqn:E.
    + destruct (digit_of_inv c d E) as (Hd & Hc & Hz).
      destruct (IH (10 * acc + d)) as (ds & rest & H1 & H2 & H3 & H4 & _).
      exists (Z.to_nat d :: ds), rest.
      split; [rewrite digits_string_cons, <- Hc, <- H1; reflexivity|].
      split; [now constructor|]. split; [exact H3|].
      split; [cbn [fold_left]; now rewrite <- Hz|]. discriminate.
    + exists [], (String c s).
      split; [reflexivity|]. split; [constructor|].
      split; [cbn; now rewrite E|]. split; [reflexivity|discriminate].
Qed.

Lemma skip_spaces_inv s :
  exists ws,
    s = ws +:+ skip_spaces s
    /\ Forall (fun c => isspace c = true) (list_ascii_of_string ws).
Proof.
  induction s as [|c s (ws & H1 & H2)].
  - exists "". split; [reflexivity|constructor].
  - cbn [skip_spaces]. destruct (isspace c) eqn:E.
    + exists (String c ws). split; [now rewrite append_cons, <- H1|].
      cbn. now constructor.
    + exists "". split; [reflexivity|constructor].
Qed.

Lemma skip_spaces_app ws s :
  Forall (fun c => isspace c = true) (list_ascii_of_string ws) ->
  skip_spaces (ws +:+ s) = skip_spaces s.
Proof.
  induction ws as [|c ws IH]; intros H; [reflexivity|].
  cbn in H. inversion H; subst.
  rewrite append_cons. cbn [skip_spaces]. rewrite H2. now apply IH.
Qed.

Lemma find_first_of_inv c s :
  match find_first_of c s with
  | Some n =>
      exists rest,
        s = substring 0 n s +:+ String c rest
        /\ ~ In c (list_ascii_of_string (substring 0 n s))
  | None => ~ In c (list_ascii_of_string s)
  end.
Proof.
  induction s as [|a s IH]; [cbn; tauto|].
  cbn [find_first_of]. destruct (Ascii.eqb a c) eqn:E.
  - apply Ascii.eqb_eq in E. subst a. exists s. cbn. tauto.
  - apply Ascii.eqb_neq in E.
    destruct (find_first_of c s) as [n|].
    + destruct IH as (rest & H1 & H2). exists rest.
      cbn [substring]. rewrite append_cons. split; [now rewrite <- H1|].
      cbn. intros [H|H]; [congruence|tauto].
    + cbn. intros [H|H]; [congruence|tauto].
Qed.

Lemma find_first_of_app c field rest :
  ~ In c (list_ascii_of_string field) ->
  find_first_of c (field +:+ String c rest) = Some (String.length field)
  /\ substring 0 (String.length field) (field +:+ String c rest) = field.
Proof.
  induction field as [|a field IH]; intros H.
  - rewrite append_nil_l. cbn [find_first_of String.length substring].
    rewrite Ascii.eqb_refl. split; reflexivity.
  - cbn in H. rewrite append_cons. cbn [find_first_of String.length substring].
    destruct (Ascii.eqb a c) eqn:E; [apply Ascii.eqb_eq in E; tauto|].
    destruct IH as [-> ->]; [tauto|]. split; reflexivity.
Qed.

Lemma find_first_of_none c s :
  ~ In c (list_ascii_of_string s) -> find_first_of c s = None.
Proof.
  induction s as [|a s IH]; intros H; [reflexivity|].
  cbn in H. cbn [find_first_of].
  destruct (Ascii.eqb a c) eqn:E; [apply Ascii.eqb_eq in E; tauto|].
  rewrite IH; tauto.
Qed.

Lemma fold_digits_nonneg ds : forall acc,
  0 <= acc -> 0 <= fold_left (fun a d => 10 * a + Z.of_nat d) ds acc.
Proof.
  induction ds as [|d ds IH]; intros acc Hacc; cbn; [assumption|].
  apply IH. lia.
Qed.

Lemma parse_digits_nonneg s : 0 <= parse_digits 0 s.
Proof.
  destruct (parse_digits_inv s 0) as (ds & rest & _ & _ & _ & -> & _).
  now apply fold_digits_nonneg.
Qed.

(** The sign that strtol reads. *)
Lemma strtol10_sign (s : string) :
  let r :=
    match s with
    | String "-"%char r => (true, r)
    | String "+"%char r => (false, r)
    | _ => (false, s)
    end in
  (fst r = true /\ s = String "-"%char (snd r))
  \/ (fst r = false /\ s = String "+"%char (snd r))
  \/ (r = (false, s) /\ forall r', s <> String "-"%char r' /\ s <> String "+"%char r').
Proof.
  destruct s as [|c s]; [right; right; split; [reflexivity|split; discriminate]|].
  destruct c as [[] [] [] [] [] [] [] []]; cbn;
    first [ left; split; reflexivity
          | right; left; split; reflexivity
          | right; right; split; [reflexivity|split; discriminate] ].
Qed.

Lemma strtol10_reads_as s v :
  0 < v -> (strtol10 s = Some v <-> reads_as s v).
Proof.
  intros Hv. unfold strtol10. split.
  - destruct (skip_spaces_inv s) as (ws & Hs & Hws).
    pose proof (strtol10_sign (skip_spaces s)) as Hsign. cbv zeta in Hsign.
    destruct (match skip_spaces s with
              | String "-"%char r => (true, r)
              | String "+"%char r => (false, r)
              | _ => (false, skip_spaces s)
              end) as [neg s2].
    cbn [fst snd] in Hsign.
    destruct (starts_with_digit s2) eqn:Esd; [|discriminate].
    intros H.
    assert (Hval : (if neg then - parse_digits 0 s2 else parse_digits 0 s2) = v)
      by congruence.
    clear H.
    pose proof (parse_digits_nonneg s2) as Hpos.
    destruct (parse_digits_inv s2 0) as (ds & rest & H1 & H2 & H3 & H4 & H5).
    specialize (H5 Esd).
    destruct Hsign as [[-> Hm] | [[-> Hp] | [Heq Hn]]].
    + lia.
    + exists ws, "+", ds, rest.
      split; [rewrite Hs at 1; rewrite Hp, H1; reflexivity|].
      split; [exact Hws|]. split; [now right|]. split; [exact H5|].
      split; [exact H2|]. split; [exact H3|].
      unfold digits_value. rewrite <- H4. symmetry. exact Hval.
    + injection Heq as -> Hs2. exists ws, "", ds, rest.
      split; [rewrite Hs at 1; rewrite <- Hs2, H1; reflexivity|].
      split; [exact Hws|]. split; [now left|]. split; [exact H5|].
      split; [exact H2|]. split; [exact H3|].
      unfold digits_value. rewrite <- H4. symmetry. exact Hval.
  - intros (ws & sign & ds & rest & -> & Hws & Hsign & Hne & Hds & Hrest & ->).
    rewrite (skip_spaces_app ws _ Hws).
    destruct ds as [|d ds]; [congruence|].
    pose proof (parse_digits_digits_string (d :: ds) 0 rest Hds Hrest) as Hp.
    fold (digits_value (d :: ds)) in Hp.
    assert (Hd : (d < 10)%nat) by now inversion Hds.
    assert (Hsd : starts_with_digit (digits_string (d :: ds) +:+ rest) = true).
    { rewrite digits_string_cons. cbn. now rewrite (digit_of_digit_char d Hd). }
    destruct Hsign as [-> | ->].
    + rewrite append_nil_l. rewrite digits_string_cons in *.
      rewrite (skip_spaces_digit d _ Hd).
      assert (Hsign : match String (digit_char d) (digits_string ds +:+ rest) with
                      | String "-"%char r => (true, r)
                      | String "+"%char r => (false, r)
                      | _ => (false, String (digit_char d) (digits_string ds +:+ rest))
                      end = (false, String (digit_char d) (digits_string ds +:+ rest))).
      { do 10 (destruct d as [|d]; [reflexivity|]). lia. }
      rewrite Hsign, Hsd, Hp. reflexivity.
    + change ("+" +:+ digits_string (d :: ds) +:+ rest)
        with (String "+"%char (digits_string (d :: ds) +:+ rest)).
      cbn [skip_spaces]. change (isspace "+"%char) with false. cbn iota.
      rewrite Hsd, Hp. reflexivity.
Qed.

(** The text that ParseOMPEnvVar gives to [std::stoi] is the first
    comma-separated field. *)
Lemma first_field_of_spec str field :
  first_field_of str field <->
  field = match find_first_of ","%char str with
          | Some first_comma => substring 0 first_comma str
          | None => str
          end.
Proof.
  split.
  - intros [Hno [-> | [rest ->]]].
    + now rewrite (find_first_of_none _ _ Hno).
    + destruct (find_first_of_app ","%char field rest Hno) as [-> ->].
      reflexivity.
  - intros ->. pose proof (find_first_of_inv ","%char str) as H.
    destruct (find_first_of ","%char str) as [n|].
    + destruct H as (rest & H1 & H2). split; [exact H2|].
      right. now exists rest.
    + split; [exact H|now left].
Qed.

(** ParseOMPEnvVar returns a positive number exactly when the first field
    reads as this number and the number fits an [int]. *)
Lemma ParseOMPEnvVar_positive (env : Env) name v :
  0 < v ->
  (ParseOMPEnvVar env name = v <->
   v <= INT_MAX
   /\ exists str field,
        env !! name = Some str /\ first_field_of str field
        /\ reads_as field v).
Proof.
  intros Hv. unfold ParseOMPEnvVar, GetEnvVar. split.
  - destruct (env !! name) as [str|] eqn:E; [|lia].
    set (field := match find_first_of ","%char str with
                  | Some first_comma => substring 0 first_comma str
                  | None => str
                  end).
    unfold stoi. destruct (strtol10 field) as [v'|] eqn:Es; [|lia].
    destruct (_ && _) eqn:Er; [|lia].
    apply andb_true_iff in Er as [_ Er]. apply Z.leb_le in Er.
    intros H. assert (v' = v) by lia. subst v'.
    split; [exact Er|]. exists str, field.
    split; [reflexivity|]. split; [now apply first_field_of_spec|].
    now apply strtol10_reads_as.
  - intros (Hmax & str & field & -> & Hf & Hr).
    apply first_field_of_spec in Hf. rewrite <- Hf.
    apply (strtol10_reads_as _ _ Hv) in Hr. unfold stoi. rewrite Hr.
    unfold INT_MIN.
    destruct (_ && _) eqn:Er; [lia|].
    apply andb_false_iff in Er as [Er|Er];
      [apply Z.leb_gt in Er|apply Z.leb_gt in Er]; lia.
Qed.

(** C1 (as amended).  ParseOMPEnvVar reads the first comma-separated field
    of the variable as [std::stoi] does: it returns a positive number [v]
    exactly when this field is white space, an optional plus sign, the
    digits of [v] and then anything that does not start with a digit, and
    [v] fits an [int]; it returns 0 in every other case (the variable is
    not set, the field has no digits there, its number is zero or negative,
    or it does not fit an [int]).  DefaultCapacity uses what ParseOMPEnvVar
    returns for OMP_NUM_THREADS when it is positive and the hardware
    concurrency, converted to [int], otherwise; a positive result of
    ParseOMPEnvVar for OMP_THREAD_LIMIT clamps this down; a result of zero
    is replaced by 4.  With OMP_NUM_THREADS="3,9" the result is 3 when
    OMP_THREAD_LIMIT is unset and 2 when OMP_THREAD_LIMIT=2. *)
Theorem C1_DefaultCapacity (env : Env) (hardware_concurrency : Z) :
  let n := ParseOMPEnvVar env "OMP_NUM_THREADS" in
  let limit := ParseOMPEnvVar env "OMP_THREAD_LIMIT" in
  (* what ParseOMPEnvVar reads *)
  (forall name v,
      0 < v ->
      (ParseOMPEnvVar env name = v <->
       v <= INT_MAX
       /\ exists str field,
            env !! name = Some str /\ first_field_of str field
            /\ reads_as field v))
  /\ (forall name, 0 <= ParseOMPEnvVar env name)
  /\ (forall name,
      ~ (exists v str field,
            0 < v <= INT_MAX /\ env !! name = Some str
            /\ first_field_of str field /\ reads_as field v) ->
      ParseOMPEnvVar env name = 0)
  /\ (forall name ds rest,
      ds <> [] -> Forall (fun d => (d < 10)%nat) ds ->
      digits_value ds <= INT_MAX ->
      env !! name = Some (digits_string ds)
      \/ env !! name = Some (digits_string ds +:+ String ","%char rest) ->
      ParseOMPEnvVar env name = digits_value ds)
  /\ (forall name, env !! name = None -> ParseOMPEnvVar env name = 0)
  /\ 0 <= n /\ 0 <= limit
  (* the four steps *)
  /\ (0 < n -> limit = 0 -> DefaultCapacity env hardware_concurrency = n)
  /\ (0 < n -> 0 < limit ->
      DefaultCapacity env hardware_concurrency = Z.min limit n)
  /\ (n = 0 -> to_int hardware_concurrency <> 0 -> limit = 0 ->
      DefaultCapacity env hardware_concurrency = to_int hardware_concurrency)
  /\ (n = 0 -> to_int hardware_concurrency <> 0 -> 0 < limit ->
      DefaultCapacity env hardware_concurrency
      = Z.min limit (to_int hardware_concurrency))
  /\ (n = 0 -> to_int hardware_concurrency = 0 ->
      DefaultCapacity env hardware_concurrency = 4)
  /\ (0 <= hardware_concurrency < 2 ^ 31 ->
      to_int hardware_concurrency = hardware_concurrency)
  (* the two scenarios *)
  /\ (env !! "OMP_NUM_THREADS" = Some "3,9" ->
      env !! "OMP_THREAD_LIMIT" = None ->
      DefaultCapacity env hardware_concurrency = 3)
  /\ (env !! "OMP_NUM_THREADS" = Some "3,9" ->
      env !! "OMP_THREAD_LIMIT" = Some "2" ->
      DefaultCapacity env hardware_concurrency = 2).
Proof.
  intros n limit.
  pose proof (ParseOMPEnvVar_nonneg env "OMP_NUM_THREADS") as Hn.
  pose proof (ParseOMPEnvVar_nonneg env "OMP_THREAD_LIMIT") as Hl.
  fold n in Hn. fold limit in Hl.
  split; [intros name v; apply ParseOMPEnvVar_positive|].
  split; [apply ParseOMPEnvVar_nonneg|].
  split.
  { intros name Hnone.
    pose proof (ParseOMPEnvVar_nonneg env name) as Hpos.
    destruct (Z.eq_dec (ParseOMPEnvVar env name) 0) as [E|E]; [exact E|].
    exfalso. apply Hnone.
    assert (Hv : 0 < ParseOMPEnvVar env name) by lia.
    destruct (proj1 (ParseOMPEnvVar_positive env name _ Hv) eq_refl)
      as (Hmax & str & field & H1 & H2 & H3).
    exists (ParseOMPEnvVar env name), str, field.
    split; [lia|]. split; [exact H1|]. split; [exact H2|exact H3]. }
  split; [intros name ds rest; apply ParseOMPEnvVar_first_integer|].
  split; [apply ParseOMPEnvVar_unset|].
  split; [exact Hn|]. split; [exact Hl|].
  unfold DefaultCapacity. fold n. fold limit.
  repeat split.
  - intros H1 H2. rewrite H2.
    destruct (n =? 0) eqn:E; [lia|]. cbn. rewrite E. reflexivity.
  - intros H1 H2.
    destruct (n =? 0) eqn:E; [lia|].
    destruct (0 <? limit) eqn:E2; [|lia].
    destruct (Z.min limit n =? 0) eqn:E3; [lia|reflexivity].
  - intros H1 H2 H3. rewrite H1, H3. cbn.
    destruct (to_int hardware_concurrency =? 0) eqn:E; [lia|reflexivity].
  - intros H1 H2 H3. rewrite H1. cbn.
    destruct (0 <? limit) eqn:E2; [|lia].
    destruct (Z.min limit (to_int hardware_concurrency) =? 0) eqn:E3;
      [lia|reflexivity].
  - intros H1 H2. rewrite H1, H2. cbn.
    destruct (0 <? limit) eqn:E2; [|reflexivity].
    destruct (Z.min limit 0 =? 0) eqn:E3; [reflexivity|lia].
  - intros H. unfold to_int.
    rewrite Z.mod_small by lia. lia.
  - intros H1 H2. subst n limit.
    unfold ParseOMPEnvVar, GetEnvVar. rewrite H1, H2. reflexivity.
  - intros H1 H2. subst n limit.
    unfold ParseOMPEnvVar, GetEnvVar. rewrite H1, H2. reflexivity.
Qed.

(** C1, counterexample to the sentence of the design document: with
    OMP_NUM_THREADS="2147483648,2" the first comma-separated integer is
    2147483648, which is positive, and DefaultCapacity does not return it:
    it does not fit an [int], [std::stoi] throws, and the hardware
    concurrency is used, here 8.  Text after the digits is ignored:
    OMP_NUM_THREADS="3 threads" gives 3. *)
Lemma C1_DefaultCapacity_counterexample :
  let env : Env := {[ "OMP_NUM_THREADS" := "2147483648,2" ]} in
  ParseOMPEnvVar env "OMP_NUM_THREADS" = 0
  /\ DefaultCapacity env 8 = 8
  /\ (DefaultCapacity env 8 =? 2147483648) = false
  /\ DefaultCapacity {[ "OMP_NUM_THREADS" := "3 threads" ]} 8 = 3.
Proof. vm_compute. repeat split; reflexivity. Qed.

(** ** Launching workers, fork protection *)

Lemma LaunchWorkersUnlocked_spec n : forall p,
  LaunchWorkersUnlocked n p
  = (mkPool (set_workers (state_ p)
               (workers_ (state_ p) ++ seq (threads_created p) n))
       (pid_ p) (shutdown_on_destroy_ p) (threads_created p + n)%nat,
     map thread_started (seq (threads_created p) n)).
Proof.
  induction n as [|n IH]; intros p.
  - cbn. destruct p as [[w f q d t ps qs] pid sd tc]; cbn.
    now rewrite app_nil_r, Nat.add_0_r.
  - cbn [LaunchWorkersUnlocked]. rewrite IH. cbn.
    rewrite <- app_assoc. cbn.
    now rewrite Nat.add_succ_r.
Qed.

(** What SetCapacity_locked leaves as it is. *)
Lemma SetCapacity_locked_frame p n :
  let s' := state_ (pool_of (SetCapacity_locked p n)) in
  please_shutdown_ s' = please_shutdown_ (state_ p)
  /\ quick_shutdown_ s' = quick_shutdown_ (state_ p)
  /\ pending_tasks_ s' = pending_tasks_ (state_ p)
  /\ tasks_queued_or_running_ s' = tasks_queued_or_running_ (state_ p)
  /\ pid_ (pool_of (SetCapacity_locked p n)) = pid_ p
  /\ (pending_tasks_ (state_ p) = [] -> workers_ s' = workers_ (state_ p)).
Proof.
  unfold SetCapacity_locked.
  destruct (please_shutdown_ (state_ p)) eqn:Es; [cbn; now rewrite Es|].
  destruct (n <=? 0); [cbn; now rewrite Es|].
  cbn [CollectFinishedWorkersUnlocked].
  cbn [state_ set_state pending_tasks_ workers_ set_finished_workers].
  set (required := Z.min _ _).
  destruct (0 <? required) eqn:E1.
  - rewrite LaunchWorkersUnlocked_spec. cbn. rewrite Es.
    repeat split; try reflexivity.
    intros Hq. subst required. rewrite Hq in E1.
    apply Z.ltb_lt in E1. unfold size in E1. simpl length in E1. lia.
  - destruct (required <? 0); cbn; rewrite Es; repeat split; reflexivity.
Qed.

Lemma ProtectAgainstFork_same_pid p pid :
  pid_ p = pid -> ProtectAgainstFork p pid = (p, []).
Proof. intros <-. unfold ProtectAgainstFork. now rewrite Z.eqb_refl. Qed.

Lemma ProtectAgainstFork_please_shutdown p pid :
  please_shutdown_ (state_ (fst (ProtectAgainstFork p pid)))
  = please_shutdown_ (state_ p).
Proof.
  unfold ProtectAgainstFork.
  destruct (pid_ p =? pid); [reflexivity|].
  cbn [negb please_shutdown_].
  destruct (please_shutdown_ (state_ p)) eqn:E; cbn [negb]; [reflexivity|].
  match goal with
  | |- context [SetCapacity_locked ?q ?n] =>
      pose proof (SetCapacity_locked_frame q n) as H;
      destruct (SetCapacity_locked q n) as [[st p2] es]
  end.
  cbn in *. now destruct H as [-> _].
Qed.

(** In the child of a fork the pool starts again without workers and
    without tasks. *)
Lemma ProtectAgainstFork_child p pid :
  pid_ p <> pid ->
  let p' := fst (ProtectAgainstFork p pid) in
  workers_ (state_ p') = [] /\ pending_tasks_ (state_ p') = []
  /\ tasks_queued_or_running_ (state_ p') = 0 /\ pid_ p' = pid.
Proof.
  intros Hpid. unfold ProtectAgainstFork.
  destruct (pid_ p =? pid) eqn:E; [lia|].
  cbn [negb please_shutdown_].
  destruct (please_shutdown_ (state_ p)) eqn:Es; cbn [negb]; [cbn; easy|].
  match goal with
  | |- context [SetCapacity_locked ?q ?n] =>
      pose proof (SetCapacity_locked_frame q n) as H;
      destruct (SetCapacity_locked q n) as [[st p2] es]
  end.
  cbn in *. destruct H as (_ & _ & -> & -> & -> & ->); easy.
Qed.

Lemma SetCapacity_positive p pid threads :
  1 <= threads ->
  let p0 := fst (ProtectAgainstFork p pid) in
  let s0 := state_ p0 in
  let r := SetCapacity p pid threads in
  let s' := state_ (pool_of r) in
  let required := Z.min (size (pending_tasks_ s0)) (threads - size (workers_ s0)) in
  please_shutdown_ s0 = false ->
  status_of r = Status_OK
  /\ desired_capacity_ s' = threads
  /\ pending_tasks_ s' = pending_tasks_ s0
  /\ tasks_queued_or_running_ s' = tasks_queued_or_running_ s0
  /\ workers_ s' = workers_ s0 ++ seq (threads_created p0) (Z.to_nat required)
  /\ effects_of r
     = snd (ProtectAgainstFork p pid)
       ++ map thread_joined (finished_workers_ s0)
       ++ map thread_started (seq (threads_created p0) (Z.to_nat required))
       ++ (if required <? 0 then [cv_notify_all] else []).
Proof.
  intros Hn. unfold SetCapacity.
  destruct (ProtectAgainstFork p pid) as [p0 e0]. cbn.
  intros Hs. unfold SetCapacity_locked. rewrite Hs.
  destruct (threads <=? 0) eqn:E; [lia|]. clear E.
  cbn [CollectFinishedWorkersUnlocked].
  cbn [state_ set_state pending_tasks_ workers_ set_finished_workers].
  set (required := Z.min _ _).
  destruct (0 <? required) eqn:E1.
  - rewrite LaunchWorkersUnlocked_spec. cbn.
    destruct (required <? 0) eqn:E2; [lia|].
    rewrite app_nil_r. repeat split; reflexivity.
  - replace (Z.to_nat required) with 0%nat by lia. cbn.
    rewrite app_nil_r.
    destruct (required <? 0) eqn:E2; cbn; rewrite ?app_nil_r;
      repeat split; reflexivity.
Qed.

(** SetCapacity with a capacity that is not positive, on a pool that is
    not shutting down: the error of the guard, and nothing but the fork
    protection done. *)
Lemma SetCapacity_rejects p pid threads :
  threads <= 0 ->
  please_shutdown_ (state_ p) = false ->
  SetCapacity p pid threads
  = (Status_Invalid "ThreadPool capacity must be > 0",
     fst (ProtectAgainstFork p pid), snd (ProtectAgainstFork p pid)).
Proof.
  intros Hn Hs. unfold SetCapacity.
  pose proof (ProtectAgainstFork_please_shutdown p pid) as H0.
  destruct (ProtectAgainstFork p pid) as [p0 e0]. cbn [fst snd] in *.
  unfold SetCapacity_locked. rewrite H0, Hs.
  destruct (threads <=? 0) eqn:E; [|lia].
  now rewrite app_nil_r.
Qed.

(** C2 (as amended).  SetCapacity works on the pool [p0] that the fork
    protection at the start of every operation leaves, which is the pool
    itself in the process that owns it.  On a pool that is not shutting
    down, a capacity that is not positive is rejected with the error
    Invalid, "ThreadPool capacity must be > 0", and [p0] is left as it is;
    a capacity [threads >= 1] is accepted and becomes the desired capacity,
    the pending tasks are kept, and then workers are launched when tasks
    are pending and [threads] exceeds the number of workers,
    [min(pending, threads - workers)] of them, the workers are woken
    ([cv_.notify_all()]), none being removed, when [threads] is below the
    number of workers, and the workers are left alone when no task is
    pending or [threads] is the number of workers. *)
Theorem C2_SetCapacity (p : Pool) (pid threads : Z) :
  let p0 := fst (ProtectAgainstFork p pid) in
  let s0 := state_ p0 in
  let r := SetCapacity p pid threads in
  let s' := state_ (pool_of r) in
  let pending := size (pending_tasks_ s0) in
  let workers := size (workers_ s0) in
  (pid_ p = pid -> ProtectAgainstFork p pid = (p, []))
  /\ (please_shutdown_ (state_ p) = false ->
      (threads <= 0 ->
       r = (Status_Invalid "ThreadPool capacity must be > 0", p0,
            snd (ProtectAgainstFork p pid))
       /\ ok (status_of r) = false /\ pool_of r = p0)
      /\ (1 <= threads ->
          status_of r = Status_OK
          /\ ok (status_of r) = true
          /\ desired_capacity_ s' = threads
          /\ pending_tasks_ s' = pending_tasks_ s0
          /\ (0 < pending -> workers < threads ->
              let launched :=
                seq (threads_created p0)
                  (Z.to_nat (Z.min pending (threads - workers))) in
              workers_ s' = workers_ s0 ++ launched
              /\ size launched = Z.min pending (threads - workers)
              /\ (forall tid, In tid launched ->
                              In (thread_started tid) (effects_of r)))
          /\ (threads < workers ->
              workers_ s' = workers_ s0 /\ In cv_notify_all (effects_of r))
          /\ (pending = 0 \/ workers = threads ->
              workers_ s' = workers_ s0))).
Proof.
  intros p0 s0 r s' pending workers.
  split; [apply ProtectAgainstFork_same_pid|].
  intros Hs.
  assert (Hs0 : please_shutdown_ s0 = false).
  { subst s0 p0. now rewrite ProtectAgainstFork_please_shutdown. }
  split.
  - intros Hn. subst r. rewrite (SetCapacity_rejects p pid threads Hn Hs).
    split; [reflexivity|]. split; reflexivity.
  - intros Hn.
    destruct (SetCapacity_positive p pid threads Hn Hs0)
      as (Hst & Hd & Hq & _ & Hw & He).
    fold p0 s0 r s' pending workers in Hst, Hd, Hq, Hw, He.
    split; [exact Hst|].
    split; [now rewrite Hst|]. split; [exact Hd|]. split; [exact Hq|].
    split; [|split].
    + intros Hp Hlt launched.
      split; [exact Hw|]. split.
      * subst launched. unfold size at 1. rewrite length_seq. lia.
      * intros tid Hin. rewrite He.
        apply in_or_app. right. apply in_or_app. right.
        apply in_or_app. left. now apply in_map.
    + intros Hlt. split.
      * rewrite Hw. replace (Z.to_nat _) with 0%nat by lia.
        cbn. now rewrite app_nil_r.
      * rewrite He.
        destruct (Z.min pending (threads - workers) <? 0) eqn:E.
        -- apply in_or_app. right. apply in_or_app. right.
           apply in_or_app. right. now left.
        -- assert (0 <= pending) by (subst pending; unfold size; lia). lia.
    + intros Hcase. rewrite Hw.
      replace (Z.to_nat _) with 0%nat.
      * cbn. now rewrite app_nil_r.
      * assert (0 <= pending) by (subst pending; unfold size; lia). lia.
Qed.

Lemma C2_SetCapacity_witness :
  please_shutdown_ (state_ example_pool) = false
  /\ SetCapacity example_pool 100 0
     = (Status_Invalid "ThreadPool capacity must be > 0", example_pool, [])
  /\ SetCapacity example_pool 200 0
     = (Status_Invalid "ThreadPool capacity must be > 0",
        mkPool (mkState [] [] [] 1 0 false false) 200 true 1, [])
  /\ ok (status_of (SetCapacity example_pool 100 3)) = true
  /\ desired_capacity_ (state_ (pool_of (SetCapacity example_pool 100 3))) = 3
  /\ workers_ (state_ (pool_of (SetCapacity example_pool 100 3)))
     = [0; 1; 2]%nat.
Proof.
  pose proof (C2_SetCapacity example_pool 100 0) as (_ & H0).
  pose proof (C2_SetCapacity example_pool 200 0) as (_ & H0').
  pose proof (C2_SetCapacity example_pool 100 3) as (_ & H3).
  destruct (H0 eq_refl) as [H0x _]. destruct (H0' eq_refl) as [H0x' _].
  destruct (H3 eq_refl) as [_ H3x].
  clear H0 H0' H3.
  pose proof (H0x ltac:(lia)) as H0. pose proof (H0x' ltac:(lia)) as H0'.
  pose proof (H3x ltac:(lia)) as H3.
  destruct H0 as [H0a _]. destruct H0' as [H0a' _].
  destruct H3 as (_ & H3a & H3b & _ & H3c & _).
  specialize (H3c ltac:(reflexivity) ltac:(reflexivity)).
  destruct H3c as [H3c _].
  repeat split; assumption.
Defined.

(** C2, counterexample to the sentence of the design document:
    SetCapacity(0) does not succeed and does not set the desired capacity
    to 1; it returns Invalid and the desired capacity stays what it was,
    here 4. *)
Lemma C2_SetCapacity_counterexample :
  let p := mkPool (mkState [] [] [] 4 0 false false) 100 true 0 in
  SetCapacity p 100 0
  = (Status_Invalid "ThreadPool capacity must be > 0", p, [])
  /\ SetCapacity p 100 (-3)
     = (Status_Invalid "ThreadPool capacity must be > 0", p, [])
  /\ ok (status_of (SetCapacity p 100 0)) = false
  /\ desired_capacity_ (state_ (pool_of (SetCapacity p 100 0))) = 4.
Proof. repeat split; reflexivity. Qed.

(** ** Submitting tasks and shutting down *)

Lemma SpawnReal_shutdown p pid task :
  please_shutdown_ (state_ p) = true ->
  SpawnReal p pid task
  = (Status_Invalid "operation forbidden during or after shutdown",
     fst (ProtectAgainstFork p pid), snd (ProtectAgainstFork p pid)).
Proof.
  intros Hs. unfold SpawnReal.
  pose proof (ProtectAgainstFork_please_shutdown p pid) as H.
  destruct (ProtectAgainstFork p pid) as [p0 e0]. cbn in *.
  rewrite H, Hs. reflexivity.
Qed.

Lemma SpawnReal_accepts p pid task :
  please_shutdown_ (state_ p) = false ->
  let p0 := fst (ProtectAgainstFork p pid) in
  let s0 := state_ p0 in
  let r := SpawnReal p pid task in
  let s' := state_ (pool_of r) in
  let launch :=
    (size (workers_ s0) <? tasks_queued_or_running_ s0 + 1)
    && (size (workers_ s0) <? desired_capacity_ s0) in
  status_of r = Status_OK
  /\ pending_tasks_ s' = pending_tasks_ s0 ++ [task]
  /\ tasks_queued_or_running_ s' = tasks_queued_or_running_ s0 + 1
  /\ desired_capacity_ s' = desired_capacity_ s0
  /\ please_shutdown_ s' = false
  /\ workers_ s'
     = workers_ s0 ++ (if launch then [threads_created p0] else []).
Proof.
  intros Hs. unfold SpawnReal.
  pose proof (ProtectAgainstFork_please_shutdown p pid) as H.
  destruct (ProtectAgainstFork p pid) as [p0 e0]. cbn [fst snd] in *.
  rewrite H, Hs.
  cbn [CollectFinishedWorkersUnlocked].
  cbn [state_ set_state pending_tasks_ workers_ set_finished_workers
       tasks_queued_or_running_ desired_capacity_].
  destruct (_ && _) eqn:E.
  - rewrite LaunchWorkersUnlocked_spec. cbn. rewrite H, Hs.
    repeat split; reflexivity.
  - cbn. rewrite H, Hs, app_nil_r. repeat split; reflexivity.
Qed.

Lemma Shutdown_begin_sets_flag p pid w :
  please_shutdown_ (state_ (pool_of (Shutdown_begin p pid w))) = true.
Proof.
  unfold Shutdown_begin.
  pose proof (ProtectAgainstFork_please_shutdown p pid) as H.
  destruct (ProtectAgainstFork p pid) as [p0 e0]. cbn [fst snd] in *.
  destruct (please_shutdown_ (state_ p0)) eqn:E; cbn; [exact E|reflexivity].
Qed.

Lemma Shutdown_begin_again p pid w :
  please_shutdown_ (state_ p) = true ->
  fst (fst (Shutdown_begin p pid w))
  = inl (Status_Invalid "Shutdown() already called").
Proof.
  intros Hs. unfold Shutdown_begin.
  pose proof (ProtectAgainstFork_please_shutdown p pid) as H.
  destruct (ProtectAgainstFork p pid) as [p0 e0]. cbn [fst snd] in *.
  now rewrite H, Hs.
Qed.

(** No step of the pool or of a worker takes a shutdown request back. *)
Lemma pool_step_please_shutdown x y :
  pool_step x y ->
  please_shutdown_ (state_ (fst x)) = true ->
  please_shutdown_ (state_ (fst y)) = true.
Proof.
  intros Hstep. destruct Hstep as
      [p busy pid n st p' es H | p busy pid t st p' es H
      | p busy pid w r p' es H | p busy st p' es Hr H
      | p busy pid n p' es H | p busy es p' busy' H]; cbn [fst]; intros Hs.
  - unfold SetCapacity in H.
    pose proof (ProtectAgainstFork_please_shutdown p pid) as Hp.
    destruct (ProtectAgainstFork p pid) as [p0 e0]. cbn [fst] in Hp.
    pose proof (SetCapacity_locked_frame p0 n) as Hf.
    destruct (SetCapacity_locked p0 n) as [[st1 p1] e1].
    inversion H; subst. cbn in Hf. destruct Hf as [-> _]. congruence.
  - rewrite (SpawnReal_shutdown p pid t Hs) in H. inversion H; subst.
    now rewrite ProtectAgainstFork_please_shutdown.
  - pose proof (Shutdown_begin_sets_flag p pid w) as Hb.
    rewrite H in Hb. exact Hb.
  - unfold Shutdown_end in H.
    destruct (negb (quick_shutdown_ (state_ p))); inversion H; subst;
      cbn; exact Hs.
  - unfold GetCapacity in H.
    pose proof (ProtectAgainstFork_please_shutdown p pid) as Hp.
    destruct (ProtectAgainstFork p pid) as [p0 e0]. cbn [fst] in Hp.
    inversion H; subst. congruence.
  - inversion H; subst; cbn; exact Hs.
Qed.

Lemma pool_steps_please_shutdown x y :
  pool_steps x y ->
  please_shutdown_ (state_ (fst x)) = true ->
  please_shutdown_ (state_ (fst y)) = true.
Proof.
  induction 1 as [x | x y z Hxy Hyz IH]; intros Hs; [exact Hs|].
  apply IH. exact (pool_step_please_shutdown x y Hxy Hs).
Qed.

(** C7.  Submitting a task ([SpawnReal]) fails exactly when shutdown has
    been requested.  When it succeeds, the task is appended to the queue,
    the count of queued or running tasks grows by one, and one worker is
    launched exactly when the number of workers is below both the desired
    capacity and the new count; no worker is launched otherwise.  Once
    Shutdown has been called, every later call of Shutdown returns an
    error, whatever the pool and its workers did in between. *)
Theorem C7_SpawnReal_and_Shutdown (p : Pool) (pid : Z) (task : Task) :
  let p0 := fst (ProtectAgainstFork p pid) in
  let s0 := state_ p0 in
  let r := SpawnReal p pid task in
  let s' := state_ (pool_of r) in
  let workers := size (workers_ s0) in
  ok (status_of r) = negb (please_shutdown_ (state_ p))
  /\ (please_shutdown_ (state_ p) = true ->
      pool_of r = p0 /\ code (status_of r) = Invalid)
  /\ (please_shutdown_ (state_ p) = false ->
      pending_tasks_ s' = pending_tasks_ s0 ++ [task]
      /\ tasks_queued_or_running_ s' = tasks_queued_or_running_ s0 + 1
      /\ (workers < desired_capacity_ s0 ->
          workers < tasks_queued_or_running_ s0 + 1 ->
          workers_ s' = workers_ s0 ++ [threads_created p0]
          /\ In (thread_started (threads_created p0)) (effects_of r))
      /\ (desired_capacity_ s0 <= workers
          \/ tasks_queued_or_running_ s0 + 1 <= workers ->
          workers_ s' = workers_ s0)
      /\ size (workers_ s') <= workers + 1)
  /\ (forall wait busy x' pid' wait',
      pool_steps (pool_of (Shutdown_begin p pid wait), busy) x' ->
      fst (fst (Shutdown_begin (fst x') pid' wait'))
      = inl (Status_Invalid "Shutdown() already called")).
Proof.
  intros p0 s0 r s' workers.
  destruct (please_shutdown_ (state_ p)) eqn:Hs.
  - pose proof (SpawnReal_shutdown p pid task Hs) as Hr. fold r in Hr.
    repeat split; try discriminate; try (rewrite Hr; reflexivity).
    intros wait busy x' pid' wait' Hsteps.
    apply Shutdown_begin_again.
    apply (pool_steps_please_shutdown _ _ Hsteps).
    apply Shutdown_begin_sets_flag.
  - destruct (SpawnReal_accepts p pid task Hs)
      as (Hst & Hq & Ht & _ & _ & Hw).
    fold p0 s0 r s' workers in Hst, Hq, Ht, Hw.
    split; [now rewrite Hst|]. split; [discriminate|]. split.
    + intros _. split; [exact Hq|]. split; [exact Ht|].
      split; [|split].
      * intros H1 H2. rewrite Hw.
        replace (workers <? _) with true by (symmetry; apply Z.ltb_lt; lia).
        replace (workers <? _) with true by (symmetry; apply Z.ltb_lt; lia).
        split; [reflexivity|].
        unfold r, SpawnReal.
        pose proof (ProtectAgainstFork_please_shutdown p pid) as H.
        fold p0 in H. subst workers s0.
        destruct (ProtectAgainstFork p pid) as [q0 e0]. cbn [fst snd] in *.
        subst p0. rewrite H, Hs.
        cbn [CollectFinishedWorkersUnlocked].
        cbn [state_ set_state pending_tasks_ workers_ set_finished_workers
             tasks_queued_or_running_ desired_capacity_].
        replace (_ <? _) with true by (symmetry; apply Z.ltb_lt; lia).
        replace (_ <? _) with true by (symmetry; apply Z.ltb_lt; lia).
        cbn. apply in_or_app. right. apply in_or_app. right. now left.
      * intros Hcase. rewrite Hw.
        destruct Hcase as [Hc | Hc].
        -- replace (workers <? desired_capacity_ s0) with false
             by (symmetry; apply Z.ltb_ge; lia).
           rewrite andb_false_r. now rewrite app_nil_r.
        -- replace (workers <? tasks_queued_or_running_ s0 + 1) with false
             by (symmetry; apply Z.ltb_ge; lia).
           cbn. now rewrite app_nil_r.
      * rewrite Hw. unfold size, workers, size. rewrite length_app.
        destruct (_ && _); cbn; lia.
    + intros wait busy x' pid' wait' Hsteps.
      apply Shutdown_begin_again.
      apply (pool_steps_please_shutdown _ _ Hsteps).
      apply Shutdown_begin_sets_flag.
Qed.

End ThreadPoolFacts.

(* ===================================================================== *)
(** * Properties of the source node *)
(* ===================================================================== *)

Section SourceNodeFacts.
Import SourceNode.

Lemma iteration_continues w k nd :
  breaks w (executor nd) k = false ->
  stop_requested_ nd = false ->
  batch_count_ nd = Z.of_nat k ->
  exists batch,
    generator_ w k = Generated_batch batch
    /\ iteration w k nd
       = (mk false (Z.of_nat (S k))
            (if executor nd
             then mkTaskGroup (running_tasks (task_group_ nd) ++ [batch])
                    (ended (task_group_ nd))
             else task_group_ nd)
            (executor nd),
          delivery w (executor nd) k, Continue).
Proof.
  intros Hb Hs Hc. unfold breaks in Hb.
  apply orb_false_elim in Hb as [Hb1 Hb2].
  destruct (generator_ w k) as [batch| |error] eqn:Hg; try discriminate.
  apply orb_false_elim in Hb2 as [Hb2 Hb3].
  exists batch. split; [reflexivity|].
  unfold iteration, delivery. rewrite Hb1, Hg, Hb2.
  destruct nd as [stop cnt g ex]. cbn in *. subst stop cnt.
  replace (Z.of_nat k + 1) with (Z.of_nat (S k)) by lia.
  destruct ex; cbn in *; [|reflexivity].
  apply negb_false_iff in Hb3. unfold AddTask. now rewrite Hb3.
Qed.

Lemma iteration_breaks w k nd :
  breaks w (executor nd) k = true ->
  stop_requested_ nd = false ->
  batch_count_ nd = Z.of_nat k ->
  exists nd',
    iteration w k nd
    = (nd', reported_error w (executor nd) k, Break (Z.of_nat k))
    /\ executor nd' = executor nd
    /\ task_group_ nd' = task_group_ nd.
Proof.
  intros Hb Hs Hc. unfold breaks in Hb. unfold iteration, reported_error.
  destruct nd as [stop cnt g ex]. cbn in *. subst stop cnt.
  destruct (stop_before w k); cbn; [eexists; repeat split|].
  cbn in Hb.
  destruct (generator_ w k) as [batch| |error] eqn:Hg.
  - destruct (stop_during w k); cbn; [eexists; repeat split|].
    cbn in Hb. destruct ex; cbn in Hb; [|discriminate].
    apply negb_true_iff in Hb. unfold AddTask. rewrite Hb. cbn.
    rewrite Hb. eexists; repeat split.
  - destruct (stop_during w k); cbn; eexists; repeat split.
  - destruct (stop_during w k); cbn; eexists; repeat split.
Qed.

Lemma Loop_runs_to_the_break w n : forall k nd fuel,
  (forall j, (k <= j < k + n)%nat -> breaks w (executor nd) j = false) ->
  breaks w (executor nd) (k + n) = true ->
  stop_requested_ nd = false ->
  batch_count_ nd = Z.of_nat k ->
  (n < fuel)%nat ->
  exists nd',
    Loop fuel w k nd
    = Some (nd',
            flat_map (delivery w (executor nd)) (seq k n)
            ++ reported_error w (executor nd) (k + n),
            Z.of_nat (k + n))
    /\ executor nd' = executor nd
    /\ ended (task_group_ nd') = ended (task_group_ nd)
    /\ running_tasks (task_group_ nd')
       = running_tasks (task_group_ nd)
         ++ (if executor nd then generated_batches w k n else []).
Proof.
  induction n as [|n IH]; intros k nd fuel Hno Hbr Hs Hc Hfuel.
  - rewrite Nat.add_0_r in *.
    destruct fuel as [|fuel]; [lia|].
    destruct (iteration_breaks w k nd Hbr Hs Hc) as (nd' & Hit & Hex & Hg).
    exists nd'. cbn [Loop]. rewrite Hit. cbn.
    rewrite Hg. destruct (executor nd); now rewrite app_nil_r.
  - destruct fuel as [|fuel]; [lia|].
    assert (Hk : breaks w (executor nd) k = false) by (apply Hno; lia).
    destruct (iteration_continues w k nd Hk Hs Hc) as (batch & Hgen & Hit).
    cbn [Loop]. rewrite Hit.
    set (nd1 := mk false _ _ _) in *.
    destruct (IH (S k) nd1 fuel) as (nd' & HL & Hex & Hend & Hrun);
      try reflexivity; try lia.
    + intros j Hj. apply Hno. lia.
    + cbn. now replace (S (k + n)) with (k + S n)%nat by lia.
    + exists nd'. rewrite HL. cbn [executor nd1] in *.
      replace (S k + n)%nat with (k + S n)%nat by lia.
      split; [|split; [exact Hex|split]].
      * cbn [seq flat_map]. now rewrite app_assoc.
      * rewrite Hend. subst nd1. cbn. now destruct (executor nd).
      * rewrite Hrun. subst nd1. cbn.
        unfold generated_batches. cbn [seq flat_map]. rewrite Hgen.
        destruct (executor nd); cbn; [now rewrite <- app_assoc|reflexivity].
Qed.

Lemma deliveries_are_deliveries w ex n :
  (forall j, (j < n)%nat -> breaks w ex j = false) ->
  List.length (deliveries w ex n) = n
  /\ List.filter is_delivery (deliveries w ex n) = deliveries w ex n.
Proof.
  unfold deliveries.
  assert (H : forall k,
             (forall j, (k <= j < k + n)%nat -> breaks w ex j = false) ->
             List.length (flat_map (delivery w ex) (seq k n)) = n
             /\ List.filter is_delivery (flat_map (delivery w ex) (seq k n))
                = flat_map (delivery w ex) (seq k n)).
  { induction n as [|n IH]; intros k Hno; [easy|].
    cbn [seq flat_map].
    assert (Hk : breaks w ex k = false) by (apply Hno; lia).
    unfold breaks in Hk. apply orb_false_elim in Hk as [_ Hk].
    destruct (IH (S k)) as [IH1 IH2]; [intros j Hj; apply Hno; lia|].
    rewrite List.length_app, List.filter_app, IH1, IH2.
    assert (Hd : exists e, delivery w ex k = [e] /\ is_delivery e = true).
    { unfold delivery. destruct (generator_ w k); try discriminate.
      eexists. split; [reflexivity|]. now destruct ex. }
    destruct Hd as (e & -> & He). cbn. rewrite He. split; reflexivity. }
  intros Hno. apply (H 0%nat). intros j Hj. apply Hno. lia.
Qed.

Lemma reported_error_no_delivery w ex k :
  List.filter is_delivery (reported_error w ex k) = [].
Proof.
  unfold reported_error.
  destruct (stop_before w k); [reflexivity|].
  destruct (generator_ w k); try reflexivity.
  destruct (stop_during w k); [reflexivity|].
  destruct (ex && _); reflexivity.
Qed.

(** C8.  When iteration [k] is the first to end the loop of the source node
    (the generator is at its end, a stop was requested, the generator
    failed, or a task could not be submitted), StartProducing returns, and
    what the node has done is: the deliveries of the [k] batches before,
    then [error_received] in the two error cases, then
    [input_finished(total = k)], and only then the end of the task group, on
    which [finished_] resolves. *)
Theorem C8_source_loop_end (w : World) (ex : bool) (k fuel : nat) :
  (forall j, (j < k)%nat -> breaks w ex j = false) ->
  breaks w ex k = true ->
  (k < fuel)%nat ->
  exists nd' trace,
    StartProducing fuel w (init ex) = Some (Status_OK, nd', trace)
    /\ trace
       = deliveries w ex k ++ reported_error w ex k
         ++ [Output_InputFinished (Z.of_nat k); TaskGroup_End]
    /\ List.length (List.filter is_delivery trace) = k
    /\ List.length (deliveries w ex k) = k
    /\ (forall error,
          stop_before w k = false ->
          generator_ w k = Generated_error error ->
          reported_error w ex k = [Output_ErrorReceived error])
    /\ (forall batch,
          stop_before w k = false -> stop_during w k = false ->
          generator_ w k = Generated_batch batch ->
          reported_error w ex k = [Output_ErrorReceived (submit w k)]
          /\ ok (submit w k) = false)
    /\ (stop_before w k = true \/ generator_ w k = Generated_end
        \/ (exists batch, generator_ w k = Generated_batch batch
                          /\ stop_during w k = true) ->
        reported_error w ex k = [])
    /\ ended (task_group_ nd') = true
    /\ running_tasks (task_group_ nd')
       = (if ex then generated_batches w 0 k else []).
Proof.
  intros Hno Hbr Hfuel.
  destruct (Loop_runs_to_the_break w k 0 (init ex) fuel)
    as (nd1 & HL & Hex & Hend & Hrun); try reflexivity; try assumption.
  { intros j Hj. apply Hno. lia. }
  cbn [executor init Nat.add] in HL, Hrun.
  destruct (deliveries_are_deliveries w ex k Hno) as [Hlen Hfil].
  eexists. eexists.
  unfold StartProducing. cbn [stop_requested_ init]. rewrite HL.
  split; [reflexivity|].
  fold (deliveries w ex k).
  split; [now rewrite <- app_assoc|].
  split.
  { rewrite <- app_assoc, !List.filter_app, Hfil, reported_error_no_delivery.
    cbn. now rewrite app_nil_r. }
  split; [exact Hlen|].
  split.
  { intros error H1 H2. unfold reported_error. now rewrite H1, H2. }
  split.
  { intros batch H1 H2 H3. unfold breaks in Hbr. rewrite H1, H2, H3 in Hbr.
    cbn in Hbr. unfold reported_error. rewrite H1, H2, H3, Hbr.
    split; [reflexivity|].
    apply andb_true_iff in Hbr as [_ Hbr]. now apply negb_true_iff in Hbr. }
  split.
  { intros [H | [H | (batch & H1 & H2)]]; unfold reported_error.
    - now rewrite H.
    - rewrite H. now destruct (stop_before w k).
    - rewrite H1, H2. now destruct (stop_before w k). }
  cbn. split; [reflexivity|exact Hrun].
Qed.

Lemma C8_source_loop_end_witness :
  exists nd' trace,
    StartProducing 5 example_world (init false) = Some (Status_OK, nd', trace)
    /\ trace
       = [Output_InputReceived (example_batch [Int64 1; Int64 2]);
          Output_InputReceived (example_batch [Null; Int64 4]);
          Output_InputFinished 2; TaskGroup_End].
Proof.
  destruct (C8_source_loop_end example_world false 2 5)
    as (nd' & trace & H1 & H2 & _).
  - intros j Hj. destruct j as [|[|j]]; [reflexivity|reflexivity|lia].
  - reflexivity.
  - lia.
  - exists nd', trace. split; [exact H1|]. rewrite H2. reflexivity.
Defined.

Example source_error_then_input_finished :
  StartProducing 5 example_failing_world (init true)
  = Some (Status_OK,
          mk true 2
            (mkTaskGroup [example_batch [Int64 1; Int64 2]] true) true,
          [Executor_Submit (example_batch [Int64 1; Int64 2]);
           Output_ErrorReceived (mkStatus IOError "read failed");
           Output_InputFinished 1; TaskGroup_End]).
Proof. reflexivity. Qed.

End SourceNodeFacts.

(* ===================================================================== *)
(** * Properties of the atomic counter *)
(* ===================================================================== *)

Section AtomicCounterFacts.
Import AtomicCounter.

(** Completion is observed by at most one caller: an operation answers
    [true] only on a counter that was not complete, and the counter is
    complete afterwards and stays so. *)
Lemma completion_observed_once (c : t) (r : bool * t) :
  (r = Increment c \/ (exists n, r = SetTotal c n) \/ r = Cancel c) ->
  (fst r = true -> complete_ c = false)
  /\ (complete_ c = true -> complete_ (snd r) = true)
  /\ (fst r = true -> complete_ (snd r) = true).
Proof.
  unfold Increment, SetTotal, Cancel, DoneOnce.
  intros [-> | [[n ->] | ->]]; cbn;
    try destruct (_ =? _); cbn;
    destruct (complete_ c); cbn; repeat split; congruence.
Qed.

Lemma Increment_not_total (c : t) :
  count_ c + 1 <> total_ c ->
  Increment c = (false, mk (count_ c + 1) (total_ c) (complete_ c)).
Proof.
  intros H. unfold Increment. cbn.
  destruct (_ =? _) eqn:E; [apply Z.eqb_eq in E; lia|reflexivity].
Qed.

Lemma Increment_reaches_total (c : t) :
  count_ c + 1 = total_ c -> complete_ c = false ->
  Increment c = (true, mk (count_ c + 1) (total_ c) true).
Proof.
  intros H Hc. unfold Increment, DoneOnce. cbn.
  rewrite H, Z.eqb_refl, Hc. cbn. now rewrite <- H.
Qed.

Lemma SetTotal_not_count (c : t) (n : Z) :
  count_ c <> n -> SetTotal c n = (false, mk (count_ c) n (complete_ c)).
Proof.
  intros H. unfold SetTotal. cbn.
  destruct (_ =? _) eqn:E; [apply Z.eqb_eq in E; lia|reflexivity].
Qed.

Lemma SetTotal_is_count (c : t) :
  complete_ c = false ->
  SetTotal c (count_ c) = (true, mk (count_ c) (count_ c) true).
Proof.
  intros Hc. unfold SetTotal, DoneOnce. cbn.
  now rewrite Z.eqb_refl, Hc.
Qed.

End AtomicCounterFacts.

(* ===================================================================== *)
(** * Properties of the scalar aggregate node *)
(* ===================================================================== *)

Section ScalarAggregateNodeFacts.
Import ScalarAggregateNode.
Context {KernelState : Type}.
Implicit Types (nd : t KernelState) (states : list (list KernelState)).

Lemma run_app (a b : list Call) nd :
  run KernelState (a ++ b) nd
  = '(nd1, es1) ← run KernelState a nd;
    '(nd2, es2) ← run KernelState b nd1;
    Some (nd2, es1 ++ es2).
Proof.
  revert nd. induction a as [|c a IH]; intros nd; cbn.
  - destruct (run KernelState b nd) as [[nd2 es2]|]; reflexivity.
  - destruct (call KernelState c nd) as [[nd1 es1]|]; cbn; [|reflexivity].
    rewrite IH.
    destruct (run KernelState a nd1) as [[nd2 es2]|]; cbn; [|reflexivity].
    destruct (run KernelState b nd2) as [[nd3 es3]|]; cbn; [|reflexivity].
    now rewrite app_assoc.
Qed.

Lemma DoConsume_all_app kernels targets (a b : list (nat * ExecBatch.t))
    states states_c :
  DoConsume_all KernelState kernels targets (a ++ b) states
  = Some (Status_OK, states_c) ->
  exists states_a,
    DoConsume_all KernelState kernels targets a states
    = Some (Status_OK, states_a)
    /\ DoConsume_all KernelState kernels targets b states_a
       = Some (Status_OK, states_c).
Proof.
  revert states. induction a as [|[ti batch] a IH]; intros states H; cbn in *.
  - exists states. split; [reflexivity|exact H].
  - destruct (DoConsume_from _ _ _ _ _ _ _ _) as [[st states1]|];
      cbn in *; [|discriminate].
    destruct (ok st) eqn:Hok.
    + apply IH in H. exact H.
    + inversion H; subst. discriminate.
Qed.

(** Batches that arrive while the counter cannot complete are consumed,
    and counted. *)
Lemma run_received_counts (received : list (nat * ExecBatch.t)) :
  forall nd states_c,
  (forall j, 0 < j <= Z.of_nat (List.length received) ->
             AtomicCounter.count_ (input_counter_ nd) + j
             <> AtomicCounter.total_ (input_counter_ nd)) ->
  DoConsume_all KernelState (kernels_ nd) (target_field_ids_ nd) received
    (states_ nd) = Some (Status_OK, states_c) ->
  run KernelState (received_calls received) nd
  = Some (mk (finished_ nd) (target_field_ids_ nd) (kernels_ nd) states_c
            (AtomicCounter.mk
               (AtomicCounter.count_ (input_counter_ nd)
                + Z.of_nat (List.length received))
               (AtomicCounter.total_ (input_counter_ nd))
               (AtomicCounter.complete_ (input_counter_ nd))),
          []).
Proof.
  induction received as [|[ti batch] rest IH]; intros nd states_c Hne Hall.
  - cbn in *. inversion Hall; subst.
    destruct nd as [f tg ks sts [c tt cp]]. cbn. now rewrite Z.add_0_r.
  - cbn [received_calls map run call fst snd]. cbn in Hall.
    unfold InputReceived, DoConsume.
    destruct (DoConsume_from _ _ _ _ _ _ _ _) as [[st states1]|];
      cbn in Hall |- *; [|discriminate].
    destruct (ok st) eqn:Hok; [|inversion Hall; subst; discriminate].
    unfold ErrorIfNotOk. rewrite Hok.
    unfold AtomicCounter.Increment. cbn.
    destruct (_ =? _) eqn:E.
    { apply Z.eqb_eq in E. exfalso. apply (Hne 1); [|exact E].
      rewrite length_cons. lia. }
    fold (received_calls rest).
    cbn [mbind option_bind].
    rewrite (IH _ states_c);
      cbn [set_input_counter set_states finished_ target_field_ids_ kernels_
           states_ input_counter_ AtomicCounter.count_ AtomicCounter.total_
           AtomicCounter.complete_ mbind option_bind app].
    + do 4 f_equal. lia.
    + intros j Hj. specialize (Hne (j + 1)). rewrite length_cons in Hne. lia.
    + exact Hall.
Qed.

Lemma Finish_delivers nd values states_f :
  Finish_from KernelState (kernels_ nd) 0 (List.length (kernels_ nd))
    (replicate (List.length (kernels_ nd)) Datum_NONE) (states_ nd)
  = Some (Ok values, states_f) ->
  Finish_or_error KernelState nd
  = Some (set_finished KernelState (set_states KernelState nd states_f) true,
          [Output_InputReceived (ExecBatch.mk values 1); MarkFinished]).
Proof.
  intros H. unfold Finish_or_error, Finish. rewrite H. cbn.
  reflexivity.
Qed.

(** What [Finish] puts in the batch. *)
Lemma Finish_from_values kernels n : forall i values states values' states_f,
  Finish_from KernelState kernels i n values states
  = Some (Ok values', states_f) ->
  List.length values' = List.length values
  /\ (forall j, (j < i)%nat -> values' !! j = values !! j)
  /\ (forall j, (i <= j < i + n)%nat -> (j < List.length values)%nat ->
      exists kernel row merged st out,
        kernels !! j = Some kernel /\ states !! j = Some row
        /\ MergeAll kernel row = Ok merged
        /\ finalize kernel merged = (st, out) /\ ok st = true
        /\ values' !! j = Some out).
Proof.
  induction n as [|n IH]; intros i values states values' states_f H.
  - cbn in H. inversion H; subst.
    split; [reflexivity|]. split; [reflexivity|]. intros j Hj. lia.
  - cbn in H.
    destruct (kernels !! i) as [kernel|] eqn:Hk; cbn in H; [|discriminate].
    destruct (states !! i) as [row|] eqn:Hr; cbn in H; [|discriminate].
    destruct (MergeAll kernel row) as [merged|st] eqn:Hm; [|discriminate].
    destruct (finalize kernel merged) as [st out] eqn:Hf.
    destruct (ok st) eqn:Hok; cbn [negb] in H; [|discriminate].
    apply IH in H as (Hlen & Hlow & Hhigh).
    rewrite length_insert in Hlen, Hhigh.
    split; [exact Hlen|]. split.
    + intros j Hj. rewrite Hlow by lia.
      apply list_lookup_insert_ne. lia.
    + intros j Hj Hjlen.
      destruct (Nat.eq_dec j i) as [->|Hne].
      * exists kernel, row, merged, st, out. repeat split; try assumption.
        rewrite Hlow by lia. now apply list_lookup_insert_eq.
      * destruct (Hhigh j)
          as (k' & row' & m' & st' & out' & H1 & H2 & H3 & H4 & H5 & H6);
          [lia|lia|].
        exists k', row', m', st', out'. repeat split; try assumption.
        rewrite list_lookup_insert_ne in H2 by lia. exact H2.
Qed.

(** A call delivers at most one batch, and none once the input counter is
    complete; a call that delivers one completes the counter. *)
Lemma call_delivers_at_most_once (c : Call) nd nd' es :
  call KernelState c nd = Some (nd', es) ->
  (AtomicCounter.complete_ (input_counter_ nd) = true ->
   AtomicCounter.complete_ (input_counter_ nd') = true
   /\ count_InputReceived es = 0%nat)
  /\ (count_InputReceived es <= 1)%nat
  /\ (count_InputReceived es = 1%nat ->
      AtomicCounter.complete_ (input_counter_ nd') = true).
Proof.
  assert (HF : forall nd0 nd1 es1,
             Finish_or_error KernelState nd0 = Some (nd1, es1) ->
             input_counter_ nd1 = input_counter_ nd0
             /\ (count_InputReceived es1 <= 1)%nat).
  { intros nd0 nd1 es1 H. unfold Finish_or_error, Finish in H.
    destruct (Finish_from _ _ _ _ _ _) as [[[values|st] states]|];
      cbn in H; inversion H; subst; cbn.
    - split; [reflexivity|lia].
    - unfold ErrorIfNotOk. destruct (ok st); cbn; split; try reflexivity; lia. }
  assert (HC : forall nd0 (r : bool * AtomicCounter.t) nd1 es1,
             (fst r = true ->
              AtomicCounter.complete_ (input_counter_ nd0) = false) ->
             (AtomicCounter.complete_ (input_counter_ nd0) = true ->
              AtomicCounter.complete_ (snd r) = true) ->
             (fst r = true -> AtomicCounter.complete_ (snd r) = true) ->
             (if fst r
              then Finish_or_error KernelState
                     (set_input_counter KernelState nd0 (snd r))
              else Some (set_input_counter KernelState nd0 (snd r), []))
             = Some (nd1, es1) ->
             (AtomicCounter.complete_ (input_counter_ nd0) = true ->
              AtomicCounter.complete_ (input_counter_ nd1) = true
              /\ count_InputReceived es1 = 0%nat)
             /\ (count_InputReceived es1 <= 1)%nat
             /\ (count_InputReceived es1 = 1%nat ->
                 AtomicCounter.complete_ (input_counter_ nd1) = true)).
  { intros nd0 [fire c'] nd1 es1 H1 H2 H3 H. cbn [fst snd] in *.
    destruct fire.
    - apply HF in H as [Hc Hle]. rewrite Hc. cbn [input_counter_ set_input_counter].
      split; [intros Hx; rewrite H1 in Hx; [discriminate|reflexivity]|].
      split; [exact Hle|]. intros _. now apply H3.
    - inversion H; subst. cbn [input_counter_ set_input_counter].
      split; [intros Hx; split; [now apply H2|reflexivity]|].
      split; [cbn; lia|]. intros Hx. discriminate. }
  destruct c as [|ti batch|error|total|]; cbn [call]; intros H.
  - inversion H; subst. cbn.
    split; [intros Hx; split; [exact Hx|reflexivity]|].
    split; [lia|]. intros Hx. discriminate.
  - unfold InputReceived in H.
    destruct (DoConsume _ _ _ _) as [[st nd1]|] eqn:HD;
      cbn [mbind option_bind] in H; [|discriminate].
    assert (Hc : input_counter_ nd1 = input_counter_ nd).
    { unfold DoConsume in HD.
      destruct (DoConsume_from _ _ _ _ _ _ _ _) as [[st' states]|];
        cbn in HD; inversion HD; subst. reflexivity. }
    unfold ErrorIfNotOk in H. destruct (ok st).
    + rewrite <- Hc.
      destruct (AtomicCounter.Increment (input_counter_ nd1))
        as [fire c'] eqn:EI.
      destruct (completion_observed_once (input_counter_ nd1) (fire, c'))
        as (F1 & F2 & F3); [left; now rewrite EI|].
      now apply (HC nd1 (fire, c')).
    + inversion H; subst. rewrite Hc.
      split; [intros Hx; split; [exact Hx|reflexivity]|].
      split; [cbn; lia|]. intros Hx. discriminate.
  - inversion H; subst. cbn.
    split; [intros Hx; split; [exact Hx|reflexivity]|].
    split; [lia|]. intros Hx. discriminate.
  - unfold InputFinished in H.
    destruct (AtomicCounter.SetTotal (input_counter_ nd) total)
      as [fire c'] eqn:EI.
    destruct (completion_observed_once (input_counter_ nd) (fire, c'))
      as (F1 & F2 & F3); [right; left; exists total; now rewrite EI|].
    now apply (HC nd (fire, c')).
  - unfold StopProducing, AtomicCounter.Cancel, AtomicCounter.DoneOnce in H.
    cbn in H.
    destruct (AtomicCounter.complete_ (input_counter_ nd)) eqn:Ecp;
      cbn in H; inversion H; subst; cbn.
    + split; [intros _; split; reflexivity|].
      split; [lia|]. intros Hx. discriminate.
    + split; [intros Hx; discriminate|].
      split; [lia|]. intros Hx. discriminate.
Qed.

Lemma count_InputReceived_app (a b : list Event) :
  count_InputReceived (a ++ b)
  = (count_InputReceived a + count_InputReceived b)%nat.
Proof.
  unfold count_InputReceived. now rewrite List.filter_app, List.length_app.
Qed.

Lemma run_delivers_at_most_once (calls : list Call) : forall nd nd' es,
  run KernelState calls nd = Some (nd', es) ->
  (AtomicCounter.complete_ (input_counter_ nd) = true ->
   count_InputReceived es = 0%nat)
  /\ (count_InputReceived es <= 1)%nat.
Proof.
  induction calls as [|c rest IH]; intros nd nd' es H; cbn in H.
  - inversion H; subst. cbn. split; [reflexivity|lia].
  - destruct (call KernelState c nd) as [[nd1 es1]|] eqn:Hc; cbn in H;
      [|discriminate].
    destruct (run KernelState rest nd1) as [[nd2 es2]|] eqn:Hr; cbn in H;
      [|discriminate].
    inversion H; subst.
    apply call_delivers_at_most_once in Hc as (Hc1 & Hc2 & Hc3).
    apply IH in Hr as (Hr1 & Hr2).
    rewrite count_InputReceived_app. split.
    + intros Hcp. destruct (Hc1 Hcp) as [Hcp' ->]. now rewrite Hr1.
    + destruct (count_InputReceived es1) as [|[|k]] eqn:E; [lia| |lia].
      rewrite Hr1; [lia|]. now apply Hc3.
Qed.

Lemma received_calls_app (a b : list (nat * ExecBatch.t)) :
  received_calls (a ++ b) = received_calls a ++ received_calls b.
Proof. unfold received_calls. apply map_app. Qed.

(** The batch that completes the input makes the node finish. *)
Lemma InputReceived_completes nd ti batch states_c values states_f :
  AtomicCounter.count_ (input_counter_ nd) + 1
  = AtomicCounter.total_ (input_counter_ nd) ->
  AtomicCounter.complete_ (input_counter_ nd) = false ->
  DoConsume_all KernelState (kernels_ nd) (target_field_ids_ nd)
    [(ti, batch)] (states_ nd) = Some (Status_OK, states_c) ->
  Finish_from KernelState (kernels_ nd) 0 (List.length (kernels_ nd))
    (replicate (List.length (kernels_ nd)) Datum_NONE) states_c
  = Some (Ok values, states_f) ->
  exists nd',
    InputReceived KernelState ti batch nd
    = Some (nd', [Output_InputReceived (ExecBatch.mk values 1); MarkFinished])
    /\ finished_ nd' = true.
Proof.
  intros Hcnt Hcp Hall HFin. cbn in Hall.
  unfold InputReceived, DoConsume.
  destruct (DoConsume_from _ _ _ _ _ _ _ _) as [[st states1]|];
    cbn [mbind option_bind] in Hall |- *; [|discriminate].
  destruct (ok st) eqn:Hok; [|inversion Hall; subst; discriminate].
  inversion Hall; subst. clear Hall.
  unfold ErrorIfNotOk. rewrite Hok.
  cbn [input_counter_ set_states].
  rewrite (Increment_reaches_total _ Hcnt Hcp).
  eexists. split.
  - apply Finish_delivers. exact HFin.
  - reflexivity.
Qed.

(** As long as the input counter is not complete, no batch has been
    delivered. *)
Lemma run_incomplete_delivers_nothing (calls : list Call) : forall nd nd' es,
  run KernelState calls nd = Some (nd', es) ->
  AtomicCounter.complete_ (input_counter_ nd') = false ->
  AtomicCounter.complete_ (input_counter_ nd) = false
  /\ count_InputReceived es = 0%nat.
Proof.
  induction calls as [|c rest IH]; intros nd nd' es H Hcp; cbn in H.
  - inversion H; subst. split; [exact Hcp|reflexivity].
  - destruct (call KernelState c nd) as [[nd1 es1]|] eqn:Hc; cbn in H;
      [|discriminate].
    destruct (run KernelState rest nd1) as [[nd2 es2]|] eqn:Hr; cbn in H;
      [|discriminate].
    inversion H; subst.
    apply call_delivers_at_most_once in Hc as (Hc1 & Hc2 & Hc3).
    destruct (IH _ _ _ Hr Hcp) as [Hcp1 Hes2].
    rewrite count_InputReceived_app, Hes2. split.
    + destruct (AtomicCounter.complete_ (input_counter_ nd)); [|reflexivity].
      destruct (Hc1 eq_refl) as [Hx _]. congruence.
    + destruct (count_InputReceived es1) as [|[|k]] eqn:E; [lia| |lia].
      specialize (Hc3 eq_refl). congruence.
Qed.

(** A run that is stopped before its input is complete delivers no
    batch. *)
Lemma stopped_run_delivers_nothing (earlier later : list Call) nd nd1 es1
    nd' trace :
  run KernelState earlier nd = Some (nd1, es1) ->
  AtomicCounter.complete_ (input_counter_ nd1) = false ->
  run KernelState (earlier ++ Call_StopProducing :: later) nd
  = Some (nd', trace) ->
  count_InputReceived trace = 0%nat.
Proof.
  intros He Hcp H. rewrite run_app, He in H. cbn [mbind option_bind] in H.
  destruct (run_incomplete_delivers_nothing _ _ _ _ He Hcp) as [_ Hes1].
  cbn [run call] in H. cbn [mbind option_bind] in H.
  assert (ES : exists nds,
             StopProducing KernelState nd1
             = (nds, [MarkFinished; Input_StopProducing])
             /\ AtomicCounter.complete_ (input_counter_ nds) = true).
  { unfold StopProducing, AtomicCounter.Cancel, AtomicCounter.DoneOnce.
    rewrite Hcp. cbn. eexists. split; reflexivity. }
  destruct ES as (nds & ES & Hc). rewrite ES in H.
  destruct (run KernelState later nds) as [[nd2 es2]|] eqn:Hl;
    cbn [mbind option_bind] in H; [|discriminate].
  destruct (run_delivers_at_most_once _ _ _ _ Hl) as [Hes2 _].
  specialize (Hes2 Hc).
  inversion H; subst.
  rewrite count_InputReceived_app, Hes1.
  change (count_InputReceived (MarkFinished :: Input_StopProducing :: es2))
    with (count_InputReceived es2).
  now rewrite Hes2.
Qed.

(** C3 (as amended).  StartProducing always calls
    [input_finished(total = 1)] on the output and returns.  No run, stopped
    or failing or not, delivers more than one batch; a run that is stopped
    (StopProducing is called) while its input counter is not complete
    delivers none, whatever is called before and after.  In a run that is
    not stopped and in which no kernel fails, once the input is complete
    (every batch received and the total announced, the announcement coming
    at any point) the node has delivered exactly one batch, of one row,
    whose i-th value is the finalized result of merging all per-thread
    states of kernel i, and [finished_] is resolved right after this
    delivery. *)
Theorem C3_scalar_aggregate_output nd :
  StartProducing KernelState nd
  = (Status_OK, set_finished KernelState nd false, [Output_InputFinished 1])
  /\ (forall calls nd' trace,
        run KernelState calls nd = Some (nd', trace) ->
        (count_InputReceived trace <= 1)%nat)
  /\ (forall earlier later nd1 es1 nd' trace,
        run KernelState earlier nd = Some (nd1, es1) ->
        AtomicCounter.complete_ (input_counter_ nd1) = false ->
        run KernelState (earlier ++ Call_StopProducing :: later) nd
        = Some (nd', trace) ->
        count_InputReceived trace = 0%nat)
  /\ (forall (before after : list (nat * ExecBatch.t))
             (states_c states_f : list (list KernelState))
             (values : list Datum),
        input_counter_ nd = AtomicCounter.init ->
        DoConsume_all KernelState (kernels_ nd) (target_field_ids_ nd)
          (before ++ after) (states_ nd) = Some (Status_OK, states_c) ->
        Finish_from KernelState (kernels_ nd) 0 (List.length (kernels_ nd))
          (replicate (List.length (kernels_ nd)) Datum_NONE) states_c
        = Some (Ok values, states_f) ->
        let total := Z.of_nat (List.length before + List.length after) in
        (exists nd',
            run KernelState
              (Call_StartProducing
               :: received_calls before
                  ++ Call_InputFinished total :: received_calls after) nd
            = Some (nd',
                    [Output_InputFinished 1;
                     Output_InputReceived (ExecBatch.mk values 1);
                     MarkFinished])
            /\ finished_ nd' = true)
        /\ List.length values = List.length (kernels_ nd)
        /\ (forall i kernel,
              kernels_ nd !! i = Some kernel ->
              exists row merged st out,
                states_c !! i = Some row
                /\ MergeAll kernel row = Ok merged
                /\ finalize kernel merged = (st, out) /\ ok st = true
                /\ values !! i = Some out)).
Proof.
  split; [reflexivity|].
  split; [intros calls nd' trace Hrun;
          now apply (run_delivers_at_most_once calls nd nd' trace)|].
  split; [intros earlier later nd1 es1 nd' trace;
          apply stopped_run_delivers_nothing|].
  intros before after states_c states_f values Hinit Hall HFin total.
  split; [|split].
  - destruct (DoConsume_all_app _ _ _ _ _ _ Hall) as (states_a & Ha & Hb).
    cbn [run call StartProducing mbind option_bind].
    rewrite run_app.
    rewrite (run_received_counts before (set_finished KernelState nd false)
               states_a); cbn [set_finished input_counter_ kernels_
                               target_field_ids_ states_ finished_];
      [|rewrite Hinit; cbn; intros j Hj; lia|exact Ha].
    cbn [mbind option_bind run call].
    rewrite Hinit. cbn [AtomicCounter.init AtomicCounter.count_
                        AtomicCounter.total_ AtomicCounter.complete_].
    unfold InputFinished. cbn [input_counter_].
    destruct (list_eq_nil_dec after) as [-> | Hne].
    + (* the announcement arrives last *)
      subst total. cbn [List.length]. rewrite Nat.add_0_r, Z.add_0_l.
      cbn in Hb. inversion Hb; subst states_a.
      pose proof (SetTotal_is_count
                    (AtomicCounter.mk (Z.of_nat (List.length before)) (-1) false)
                    eq_refl) as HST.
      cbn [AtomicCounter.count_] in HST. rewrite HST.
      erewrite Finish_delivers; [|exact HFin].
      cbn [mbind option_bind received_calls map run app].
      eexists. split; reflexivity.
    + (* batches arrive after the announcement *)
      destruct (exists_last Hne) as (after' & [ti batch] & ->).
      rewrite SetTotal_not_count;
        [|cbn; subst total; rewrite List.length_app; cbn; lia].
      cbn [AtomicCounter.count_ AtomicCounter.complete_ mbind option_bind].
      rewrite received_calls_app, run_app.
      destruct (DoConsume_all_app _ _ _ _ _ _ Hb) as (states_b & Hb1 & Hb2).
      erewrite run_received_counts;
        [|cbn; subst total; rewrite List.length_app; cbn; intros j Hj; lia
         |exact Hb1].
      cbn [mbind option_bind received_calls map run call fst snd
           set_input_counter input_counter_ kernels_ target_field_ids_
           states_ finished_ AtomicCounter.count_ AtomicCounter.total_
           AtomicCounter.complete_].
      match goal with
      | |- context [InputReceived KernelState ti batch ?n] =>
          destruct (InputReceived_completes n ti batch states_c values states_f)
            as (nd' & HIR & Hfin); try assumption; try reflexivity
      end.
      { cbn. subst total. rewrite List.length_app. cbn. lia. }
      rewrite HIR. cbn [mbind option_bind app].
      exists nd'. split; [reflexivity|exact Hfin].
  - destruct (Finish_from_values _ _ _ _ _ _ _ HFin) as (Hlen & _).
    now rewrite Hlen, length_replicate.
  - intros i kernel Hk.
    destruct (Finish_from_values _ _ _ _ _ _ _ HFin) as (_ & _ & Hv).
    apply lookup_lt_Some in Hk as Hlt.
    destruct (Hv i)
      as (k' & row & merged & st & out & H1 & H2 & H3 & H4 & H5 & H6);
      [lia|now rewrite length_replicate|].
    exists row, merged, st, out. rewrite Hk in H1. inversion H1; subst.
    repeat split; assumption.
Qed.

End ScalarAggregateNodeFacts.

(** Scenario S1: one batch [1, 2, 3, 4], scalar aggregate [sum]; and the
    same input with a StopProducing before the end of the input. *)
Lemma C3_scalar_aggregate_output_witness :
  (exists nd',
      ScalarAggregateNode.run Z
        [ScalarAggregateNode.Call_StartProducing;
         ScalarAggregateNode.Call_InputReceived 0
           (SourceNode.example_batch [Int64 1; Int64 2; Int64 3; Int64 4]);
         ScalarAggregateNode.Call_InputFinished 1]
        ScalarAggregateNode.example_node
      = Some (nd',
              [Output_InputFinished 1;
               Output_InputReceived (ExecBatch.mk [Datum_SCALAR (Int64 10)] 1);
               MarkFinished])
      /\ ScalarAggregateNode.finished_ nd' = true)
  /\ count_InputReceived
       [Output_InputFinished 1; MarkFinished; Input_StopProducing] = 0%nat.
Proof.
  destruct (@C3_scalar_aggregate_output Z ScalarAggregateNode.example_node)
    as (_ & _ & Hstop & Hrun).
  destruct (Hrun
              [(0%nat,
                SourceNode.example_batch [Int64 1; Int64 2; Int64 3; Int64 4])]
              [] [[10; 0; 0]] [[]] [Datum_SCALAR (Int64 10)]
              eq_refl eq_refl eq_refl)
    as (H & _).
  split; [exact H|].
  eapply (Hstop
            [ScalarAggregateNode.Call_StartProducing;
             ScalarAggregateNode.Call_InputReceived 0
               (SourceNode.example_batch [Int64 1; Int64 2; Int64 3; Int64 4])]
            [ScalarAggregateNode.Call_InputFinished 1]);
    reflexivity.
Defined.

(** C3, counterexample to the sentence of the design document: a node
    that is stopped before its input is complete has announced one batch
    and delivers none, although all its input arrives. *)
Lemma C3_scalar_aggregate_output_counterexample :
  exists nd',
    ScalarAggregateNode.run Z
      [ScalarAggregateNode.Call_StartProducing;
       ScalarAggregateNode.Call_InputReceived 0
         (SourceNode.example_batch [Int64 1; Int64 2; Int64 3; Int64 4]);
       ScalarAggregateNode.Call_StopProducing;
       ScalarAggregateNode.Call_InputFinished 1]
      ScalarAggregateNode.example_node
    = Some (nd', [Output_InputFinished 1; MarkFinished; Input_StopProducing])
    /\ count_InputReceived
         [Output_InputFinished 1; MarkFinished; Input_StopProducing] = 0%nat
    /\ ScalarAggregateNode.finished_ nd' = true.
Proof. eexists. repeat split. Qed.

(* ===================================================================== *)
(** * Properties of the group-by node *)
(* ===================================================================== *)

Section GroupByNodeFacts.
Import GroupByNode.
Context {KernelState Grouper FunctionOptions Executor : Type}.
Context (ext : Externals KernelState Grouper FunctionOptions Executor).
Implicit Types (nd : t KernelState Grouper FunctionOptions Executor).

(** ** What no call changes *)

Lemma same_shape_refl nd : same_shape nd nd.
Proof. split; reflexivity. Qed.

Lemma same_shape_trans nd1 nd2 nd3 :
  same_shape nd1 nd2 -> same_shape nd2 nd3 -> same_shape nd1 nd3.
Proof. intros [H1 H2] [H3 H4]. split; congruence. Qed.

Lemma same_shape_put nd i state :
  same_shape nd (set_local_states nd (<[i := state]> (local_states_ nd))).
Proof. split; [apply length_insert|reflexivity]. Qed.

Ltac shape_done H :=
  inversion H; subst;
  first [ apply same_shape_refl
        | apply same_shape_put
        | split; cbn; [try apply length_insert; try reflexivity|reflexivity] ].

Lemma Consume_shape thread_index batch nd st nd' :
  Consume ext thread_index batch nd = Some (st, nd') -> same_shape nd nd'.
Proof.
  unfold Consume. intros H.
  destruct (_ <=? _)%nat; [shape_done H|].
  destruct (local_states_ nd !! thread_index) as [state|];
    cbn [mbind option_bind] in H; [|discriminate].
  destruct (InitLocalStateIfNeeded ext nd state) as [[st1 state1]|];
    cbn [mbind option_bind] in H; [|discriminate].
  destruct (negb (ok st1)); [shape_done H|].
  destruct (mapM _ _) as [keys|]; cbn [mbind option_bind] in H;
    [|discriminate].
  destruct (grouper state1) as [g|]; cbn [mbind option_bind] in H;
    [|discriminate].
  destruct (Grouper_Consume ext g _) as [[id_batch|st2] g'].
  - destruct (Consume_kernels _ _ _ _ _ _ _) as [[st3 states]|];
      cbn [mbind option_bind] in H; [|discriminate].
    shape_done H.
  - shape_done H.
Qed.

Lemma Merge_slot_slots nd i l st l' :
  Merge_slot ext nd i l = Some (st, l') -> List.length l' = List.length l.
Proof.
  unfold Merge_slot. intros H.
  destruct (l !! 0%nat) as [state0|]; cbn [mbind option_bind] in H;
    [|discriminate].
  destruct (l !! i) as [state|]; cbn [mbind option_bind] in H;
    [|discriminate].
  destruct (grouper state) as [g|]; [|now inversion H].
  destruct (Grouper_GetUniques ext g) as [[other_keys|st1] g'].
  - destruct (grouper state0) as [g0|]; cbn [mbind option_bind] in H;
      [|discriminate].
    destruct (Grouper_Consume ext g0 other_keys) as [[transposition|st2] g0'].
    + destruct (Merge_kernels _ _ _ _ _ _ _) as [[[st3 s0] s1]|];
        cbn [mbind option_bind] in H; [|discriminate].
      inversion H; subst. now rewrite !length_insert.
    + inversion H; subst. now rewrite !length_insert.
  - inversion H; subst. now rewrite length_insert.
Qed.

Lemma Merge_from_slots nd n : forall i l st l',
  Merge_from ext nd i n l = Some (st, l') -> List.length l' = List.length l.
Proof.
  induction n as [|n IH]; intros i l st l' H; cbn in H.
  - now inversion H.
  - destruct (Merge_slot ext nd i l) as [[st1 l1]|] eqn:E;
      cbn [mbind option_bind] in H; [|discriminate].
    apply Merge_slot_slots in E.
    destruct (negb (ok st1)); [inversion H; subst; exact E|].
    apply IH in H. congruence.
Qed.

Lemma Merge_shape nd st nd' :
  Merge ext nd = Some (st, nd') -> same_shape nd nd'.
Proof.
  unfold Merge. intros H.
  destruct (local_states_ nd !! 0%nat); cbn [mbind option_bind] in H;
    [|discriminate].
  destruct (Merge_from _ _ _ _ _) as [[st1 l1]|] eqn:E;
    cbn [mbind option_bind] in H; [|discriminate].
  inversion H; subst. apply Merge_from_slots in E.
  split; [exact E|reflexivity].
Qed.

Lemma Finalize_shape nd r nd' es :
  Finalize ext nd = Some (r, nd', es) -> same_shape nd nd'.
Proof.
  unfold Finalize. intros H.
  destruct (local_states_ nd !! 0%nat) as [state|];
    cbn [mbind option_bind] in H; [|discriminate].
  destruct (InitLocalStateIfNeeded ext nd state) as [[st1 state1]|];
    cbn [mbind option_bind] in H; [|discriminate].
  destruct (negb (ok st1)); [shape_done H|].
  destruct (grouper state1) as [g|]; cbn [mbind option_bind] in H;
    [|discriminate].
  destruct (Finalize_kernels _ _ _ _ _) as [[[st2 values] states]|];
    cbn [mbind option_bind] in H; [|discriminate].
  destruct (negb (ok st2)); [shape_done H|].
  destruct (Grouper_GetUniques ext g) as [[out_keys|st3] g'].
  - destruct (move_into _ _ _) as [values'|]; cbn [mbind option_bind] in H;
      [|discriminate].
    destruct (CeilDiv _ _) as [total|]; cbn [mbind option_bind] in H;
      [|discriminate].
    destruct (AtomicCounter.SetTotal _ _) as [[|] c]; shape_done H.
  - shape_done H.
Qed.

Lemma OutputNthBatch_shape n nd : same_shape nd (fst (OutputNthBatch n nd)).
Proof.
  unfold OutputNthBatch. destruct (finished_ nd); [apply same_shape_refl|].
  destruct (AtomicCounter.Increment _) as [[|] c]; split; reflexivity.
Qed.

Lemma OutputResult_loop_shape n : forall i nd,
  same_shape nd (snd (fst (OutputResult_loop ext i n nd))).
Proof.
  induction n as [|n IH]; intros i nd; [apply same_shape_refl|].
  cbn [OutputResult_loop].
  destruct (executor (ctx_ nd)) as [e|].
  - destruct (finished_ nd); [apply same_shape_refl|].
    destruct (Spawn ext e i) as [st e'].
    destruct (negb (ok st)); [split; reflexivity|].
    specialize (IH (i + 1)
                  (set_ctx nd (mkExecContext (exec_chunksize (ctx_ nd)) (Some e')))).
    destruct (OutputResult_loop _ _ _ _) as [[st' nd''] es].
    eapply same_shape_trans; [|exact IH]. split; reflexivity.
  - pose proof (OutputNthBatch_shape i nd) as H0.
    destruct (OutputNthBatch i nd) as [nd' es].
    specialize (IH (i + 1) nd').
    destruct (OutputResult_loop _ _ _ _) as [[st' nd''] es'].
    eapply same_shape_trans; [exact H0|exact IH].
Qed.

Lemma OutputResult_or_error_shape nd nd' es :
  OutputResult_or_error ext nd = Some (nd', es) -> same_shape nd nd'.
Proof.
  unfold OutputResult_or_error, OutputResult. intros H.
  destruct (Merge ext nd) as [[st1 nd1]|] eqn:EM;
    cbn [mbind option_bind] in H; [|discriminate].
  apply Merge_shape in EM.
  destruct (negb (ok st1)).
  { cbn in H. inversion H; subst. exact EM. }
  destruct (Finalize ext nd1) as [[[r nd2] es2]|] eqn:EF;
    cbn [mbind option_bind] in H; [|discriminate].
  apply Finalize_shape in EF.
  destruct r as [out_data|st2].
  - destruct (AtomicCounter.total _) as [num|];
      cbn [mbind option_bind] in H; [|discriminate].
    pose proof (OutputResult_loop_shape (Z.to_nat num) 0
                  (set_out_data nd2 out_data)) as HL.
    destruct (OutputResult_loop _ _ _ _) as [[st3 nd3] es3].
    cbn in H, HL. inversion H; subst.
    eapply same_shape_trans; [exact EM|].
    eapply same_shape_trans; [exact EF|].
    eapply same_shape_trans; [|exact HL]. split; reflexivity.
  - cbn in H. inversion H; subst.
    eapply same_shape_trans; [exact EM|exact EF].
Qed.

Lemma call_shape c nd nd' es :
  is_StartProducing c = false ->
  call ext c nd = Some (nd', es) -> same_shape nd nd'.
Proof.
  intros Hc H. destruct c as [cap|ti batch|error|total| |n];
    try discriminate; cbn [call] in H.
  - unfold InputReceived in H.
    destruct (finished_ nd); [shape_done H|].
    destruct (Consume ext ti batch nd) as [[st nd1]|] eqn:EC;
      cbn [mbind option_bind] in H; [|discriminate].
    apply Consume_shape in EC.
    destruct (ErrorIfNotOk st) as [[|] es1]; [inversion H; subst; exact EC|].
    destruct (AtomicCounter.Increment _) as [[|] c].
    + apply OutputResult_or_error_shape in H.
      eapply same_shape_trans; [exact EC|].
      eapply same_shape_trans; [|exact H]. split; reflexivity.
    + inversion H; subst.
      eapply same_shape_trans; [exact EC|]. split; reflexivity.
  - shape_done H.
  - unfold InputFinished in H.
    destruct (finished_ nd); [shape_done H|].
    destruct (AtomicCounter.SetTotal _ _) as [[|] c].
    + apply OutputResult_or_error_shape in H.
      eapply same_shape_trans; [|exact H]. split; reflexivity.
    + inversion H; subst. split; reflexivity.
  - unfold StopProducing in H.
    destruct (AtomicCounter.Cancel (input_counter_ nd)) as [w1 c1].
    cbn in H.
    destruct (negb (AtomicCounter.complete_ (output_counter_ nd)));
      inversion H; subst; split; reflexivity.
  - inversion H as [H1].
    pose proof (OutputNthBatch_shape n nd) as H2. now rewrite H1 in H2.
Qed.

(** In a run that does not start the node again, the thread slots stay as
    many as they are. *)
Lemma run_shape calls : forall nd nd' es,
  forallb (fun c => negb (is_StartProducing c)) calls = true ->
  run ext calls nd = Some (nd', es) -> same_shape nd nd'.
Proof.
  induction calls as [|c calls IH]; intros nd nd' es Hall H; cbn in H.
  - inversion H; subst. apply same_shape_refl.
  - cbn in Hall. apply andb_true_iff in Hall as [Hc Hall].
    apply negb_true_iff in Hc.
    destruct (call ext c nd) as [[nd1 es1]|] eqn:E1;
      cbn [mbind option_bind] in H; [|discriminate].
    destruct (run ext calls nd1) as [[nd2 es2]|] eqn:E2;
      cbn [mbind option_bind] in H; [|discriminate].
    inversion H; subst.
    apply (call_shape c _ _ _ Hc) in E1. apply (IH _ _ _ Hall) in E2.
    eapply same_shape_trans; eassumption.
Qed.

(** C9.  Once [finished_] of the group-by node has resolved, InputReceived
    and InputFinished return at once: the node is left exactly as it was
    (no grouper or kernel state touched, the input counter neither
    incremented nor set) and nothing is sent downstream; this holds for
    every later sequence of such calls.  StopProducing resolves
    [finished_] whenever its cancellation of the output counter wins. *)
Theorem C9_finished_node_ignores_input nd :
  finished_ nd = true ->
  (forall thread_index batch,
      InputReceived ext thread_index batch nd = Some (nd, []))
  /\ (forall total_batches,
      InputFinished ext total_batches nd = Some (nd, []))
  /\ (forall calls,
      forallb is_input_call calls = true -> run ext calls nd = Some (nd, []))
  /\ (forall nd0,
      AtomicCounter.complete_ (output_counter_ nd0) = false ->
      finished_ (fst (StopProducing nd0)) = true
      /\ In MarkFinished (snd (StopProducing nd0))).
Proof.
  intros Hfin.
  assert (H1 : forall thread_index batch,
             InputReceived ext thread_index batch nd = Some (nd, [])).
  { intros. unfold InputReceived. now rewrite Hfin. }
  assert (H2 : forall total_batches,
             InputFinished ext total_batches nd = Some (nd, [])).
  { intros. unfold InputFinished. now rewrite Hfin. }
  split; [exact H1|]. split; [exact H2|]. split.
  - induction calls as [|c calls IH]; intros Hall; [reflexivity|].
    cbn in Hall. apply andb_true_iff in Hall as [Hc Hall].
    cbn [run]. destruct c; try discriminate; cbn [call].
    + rewrite H1. cbn [mbind option_bind]. rewrite (IH Hall). reflexivity.
    + rewrite H2. cbn [mbind option_bind]. rewrite (IH Hall). reflexivity.
  - intros nd0 Hc. unfold StopProducing, AtomicCounter.Cancel,
      AtomicCounter.DoneOnce.
    cbn. rewrite Hc. cbn. split; [reflexivity|now left].
Qed.

(** C6 (as amended).  A batch received on a thread whose index is the
    number of thread slots or more makes Consume return an IndexError and
    leave the node as it is.  On a node whose [finished_] is not resolved,
    InputReceived hands this error to [error_received] downstream and does
    not increment the input counter; on a node whose [finished_] is
    resolved (it was stopped, or it has finished) InputReceived returns
    before it calls Consume and sends nothing.  StartProducing gives the
    node its [Capacity] slots, and they stay as many until the node is
    started again. *)
Theorem C6_thread_index_out_of_range nd (thread_index : nat)
    (batch : ExecBatch.t) :
  (forall capacity,
      let nd1 := snd (fst (StartProducing capacity nd)) in
      List.length (local_states_ nd1) = capacity
      /\ finished_ nd1 = false)
  /\ (forall capacity calls nd1 es,
        forallb (fun c => negb (is_StartProducing c)) calls = true ->
        run ext (Call_StartProducing capacity :: calls) nd
        = Some (nd1, es) ->
        List.length (local_states_ nd1) = capacity)
  /\ ((List.length (local_states_ nd) <= thread_index)%nat ->
      exists error,
        code error = IndexError
        /\ Consume ext thread_index batch nd = Some (error, nd)
        /\ (finished_ nd = false ->
            InputReceived ext thread_index batch nd
            = Some (nd, [Output_ErrorReceived error]))
        /\ (finished_ nd = true ->
            InputReceived ext thread_index batch nd = Some (nd, []))).
Proof.
  split.
  { intros capacity. cbn. split; [apply length_resize|reflexivity]. }
  split.
  { intros capacity calls nd1 es Hall Hrun.
    cbn [run call StartProducing mbind option_bind] in Hrun.
    destruct (run ext calls _) as [[nd2 es2]|] eqn:E;
      cbn [mbind option_bind] in Hrun; [|discriminate].
    inversion Hrun; subst.
    apply (run_shape calls _ _ _ Hall) in E as [E _]. rewrite E. cbn.
    apply length_resize. }
  intros Hlen.
  assert (HC : Consume ext thread_index batch nd
               = Some (Status_IndexError
                         ("thread index " +:+ pretty thread_index
                          +:+ " is out of range [0, "
                          +:+ pretty (List.length (local_states_ nd))
                          +:+ ")"), nd)).
  { unfold Consume.
    destruct (_ <=? _)%nat eqn:E; [reflexivity|].
    apply Nat.leb_gt in E. lia. }
  eexists. split; [|split; [exact HC|split]].
  - reflexivity.
  - intros Hfin. unfold InputReceived. rewrite Hfin, HC. reflexivity.
  - intros Hfin. unfold InputReceived. now rewrite Hfin.
Qed.

(** ** The order of the output columns *)

Lemma find_field_ids_spec refs schema n : forall i ids ids',
  find_field_ids refs schema i n ids = Some (Ok ids') ->
  List.length ids' = List.length ids
  /\ (forall j, (j < i)%nat -> ids' !! j = ids !! j)
  /\ (forall j, (i <= j < i + n)%nat -> (j < List.length ids)%nat ->
      exists ref id,
        refs !! j = Some ref /\ FindOne ref schema = Ok id
        /\ ids' !! j = Some id).
Proof.
  induction n as [|n IH]; intros i ids ids' H; cbn in H.
  - inversion H; subst.
    split; [reflexivity|]. split; [reflexivity|]. intros j Hj. lia.
  - destruct (refs !! i) as [ref|] eqn:Hr; cbn [mbind option_bind] in H;
      [|discriminate].
    destruct (FindOne ref schema) as [id|st] eqn:Hf; [|discriminate].
    apply IH in H as (Hlen & Hlow & Hhigh).
    rewrite length_insert in Hlen, Hhigh.
    split; [exact Hlen|]. split.
    + intros j Hj. rewrite Hlow by lia. apply list_lookup_insert_ne. lia.
    + intros j Hj Hjlen. destruct (Nat.eq_dec j i) as [->|Hne].
      * exists ref, id. repeat split; try assumption.
        rewrite Hlow by lia. now apply list_lookup_insert_eq.
      * apply Hhigh; lia.
Qed.

Lemma fill_agg_fields_spec agg_result_fields field_names n :
  forall i output_fields output_fields',
  fill_agg_fields agg_result_fields field_names i n output_fields
  = Some output_fields' ->
  List.length output_fields' = List.length output_fields
  /\ (forall j, (j < i \/ i + n <= j)%nat ->
                output_fields' !! j = output_fields !! j)
  /\ (forall j, (i <= j < i + n)%nat -> (j < List.length output_fields)%nat ->
      exists f field_name,
        field agg_result_fields j = Some f
        /\ field_names !! j = Some field_name
        /\ output_fields' !! j = Some (Some (WithName f field_name))).
Proof.
  induction n as [|n IH]; intros i out out' H; cbn in H.
  - inversion H; subst.
    split; [reflexivity|]. split; [reflexivity|]. intros j Hj. lia.
  - destruct (field agg_result_fields i) as [f|] eqn:Hf;
      cbn [mbind option_bind] in H; [|discriminate].
    destruct (field_names !! i) as [nm|] eqn:Hn;
      cbn [mbind option_bind] in H; [|discriminate].
    apply IH in H as (Hlen & Hout & Hin).
    rewrite length_insert in Hlen, Hin.
    split; [exact Hlen|]. split.
    + intros j Hj. rewrite Hout by lia. apply list_lookup_insert_ne. lia.
    + intros j Hj Hjlen. destruct (Nat.eq_dec j i) as [->|Hne].
      * exists f, nm. repeat split; try assumption.
        rewrite Hout by lia. now apply list_lookup_insert_eq.
      * apply Hin; lia.
Qed.

Lemma fill_key_fields_spec schema key_field_ids base n :
  forall i output_fields output_fields',
  fill_key_fields schema key_field_ids base i n output_fields
  = Some output_fields' ->
  List.length output_fields' = List.length output_fields
  /\ (forall j, (j < base + i \/ base + i + n <= j)%nat ->
                output_fields' !! j = output_fields !! j)
  /\ (forall j, (i <= j < i + n)%nat ->
      (base + j < List.length output_fields)%nat ->
      exists key_field_id f,
        key_field_ids !! j = Some key_field_id
        /\ schema !! key_field_id = Some f
        /\ output_fields' !! (base + j)%nat = Some f).
Proof.
  induction n as [|n IH]; intros i out out' H; cbn in H.
  - inversion H; subst.
    split; [reflexivity|]. split; [reflexivity|]. intros j Hj. lia.
  - destruct (key_field_ids !! i) as [kid|] eqn:Hk;
      cbn [mbind option_bind] in H; [|discriminate].
    destruct (schema !! kid) as [f|] eqn:Hf;
      cbn [mbind option_bind] in H; [|discriminate].
    apply IH in H as (Hlen & Hout & Hin).
    rewrite length_insert in Hlen, Hin.
    split; [exact Hlen|]. split.
    + intros j Hj. rewrite Hout by lia. apply list_lookup_insert_ne. lia.
    + intros j Hj Hjlen. destruct (Nat.eq_dec j i) as [->|Hne].
      * exists kid, f. repeat split; try assumption.
        rewrite Hout by lia. now apply list_lookup_insert_eq.
      * apply Hin; lia.
Qed.

(** What [Finalize] writes in the first columns of the batch. *)
Lemma Finalize_kernels_spec nd n : forall i values states st values' states',
  Finalize_kernels nd i n values states = Some (st, values', states') ->
  ok st = true ->
  List.length values' = List.length values
  /\ (forall j, (j < i \/ i + n <= j)%nat -> values' !! j = values !! j)
  /\ (forall j, (i <= j < i + n)%nat -> (j < List.length values)%nat ->
      exists kernel state st out,
        agg_kernels_ nd !! j = Some kernel
        /\ states !! j = Some (Some state)
        /\ finalize kernel state = (st, out) /\ ok st = true
        /\ values' !! j = Some out).
Proof.
  induction n as [|n IH]; intros i values states st values' states' H Hok;
    cbn in H.
  - inversion H; subst.
    split; [reflexivity|]. split; [reflexivity|]. intros j Hj; lia.
  - destruct (agg_kernels_ nd !! i) as [kernel|] eqn:Hk;
      cbn [mbind option_bind] in H; [|discriminate].
    destruct (states !! i) as [[state|]|] eqn:Hs;
      cbn [mbind option_bind] in H; try discriminate.
    destruct (finalize kernel state) as [st1 out] eqn:Hf.
    destruct (ok st1) eqn:Hok1; cbn [negb] in H.
    2:{ inversion H; subst. congruence. }
    apply IH in H as (Hlen & Hout & Hin); [|exact Hok].
    rewrite length_insert in Hlen, Hin.
    split; [exact Hlen|]. split.
    + intros j Hj. rewrite Hout by lia. apply list_lookup_insert_ne. lia.
    + intros j Hj Hjlen. destruct (Nat.eq_dec j i) as [->|Hne].
      * exists kernel, state, st1, out. repeat split; try assumption.
        rewrite Hout by lia. now apply list_lookup_insert_eq.
      * destruct (Hin j) as (k' & s' & t' & o' & H1 & H2 & H3 & H4 & H5);
          [lia|lia|].
        exists k', s', t', o'. repeat split; try assumption.
        rewrite list_lookup_insert_ne in H2 by lia. exact H2.
Qed.

Lemma ok_negb st : negb (ok st) = false -> ok st = true.
Proof. now destruct (ok st). Qed.

(** The successful path through [Finalize]. *)
Lemma Finalize_Ok nd out_data nd' es :
  Finalize ext nd = Some (Ok out_data, nd', es) ->
  let N := List.length (agg_kernels_ nd) in
  let K := List.length (key_field_ids_ nd) in
  exists state st0 state1 g st1 values states g' out_keys values' total,
    local_states_ nd !! 0%nat = Some state
    /\ InitLocalStateIfNeeded ext nd state = Some (st0, state1)
    /\ ok st0 = true
    /\ grouper state1 = Some g
    /\ Finalize_kernels nd 0 N (replicate (N + K) Datum_NONE)
         (agg_states state1) = Some (st1, values, states)
    /\ ok st1 = true
    /\ Grouper_GetUniques ext g = (Ok out_keys, g')
    /\ move_into (ExecBatch.values out_keys) N values = Some values'
    /\ out_data = ExecBatch.mk values' (Grouper_num_groups ext g)
    /\ CeilDiv (Grouper_num_groups ext g) (output_batch_size nd) = Some total
    /\ (let r := AtomicCounter.SetTotal (output_counter_ nd) (to_int total) in
        let nd1 :=
          set_output_counter
            (set_local_states nd
               (<[0%nat := mkThreadLocalState None states]> (local_states_ nd)))
            (snd r) in
        nd' = (if fst r then set_finished nd1 true else nd1)
        /\ es = (if fst r then [MarkFinished] else [])).
Proof.
  intros H. cbv zeta. unfold Finalize in H.
  destruct (local_states_ nd !! 0%nat) as [state|] eqn:E0;
    cbn [mbind option_bind] in H; [|discriminate].
  destruct (InitLocalStateIfNeeded ext nd state) as [[st0 state1]|] eqn:E1;
    cbn [mbind option_bind] in H; [|discriminate].
  destruct (negb (ok st0)) eqn:Ek0; [discriminate|].
  destruct (grouper state1) as [g|] eqn:Eg; cbn [mbind option_bind] in H;
    [|discriminate].
  destruct (Finalize_kernels nd 0 _ _ _) as [[[st1 values] states]|] eqn:E2;
    cbn [mbind option_bind] in H; [|discriminate].
  destruct (negb (ok st1)) eqn:Ek1; [discriminate|].
  destruct (Grouper_GetUniques ext g) as [[out_keys|st3] g'] eqn:E3;
    [|discriminate].
  destruct (move_into _ _ _) as [values'|] eqn:E4;
    cbn [mbind option_bind] in H; [|discriminate].
  match type of H with
  | context [output_batch_size ?n] =>
      change (output_batch_size n) with (output_batch_size nd) in H
  end.
  destruct (CeilDiv _ _) as [total|] eqn:E5; cbn [mbind option_bind] in H;
    [|discriminate].
  cbn [output_counter_ set_local_states] in H.
  exists state, st0, state1, g, st1, values, states, g', out_keys, values',
    total.
  apply ok_negb in Ek0. apply ok_negb in Ek1.
  destruct (AtomicCounter.SetTotal _ _) as [[|] c]; cbn [fst snd];
    inversion H; subst; clear H;
    repeat (split; [first [assumption|reflexivity]|]);
    split; reflexivity.
Qed.

Lemma move_into_lookup {A} (src : list A) pos dst dst' :
  move_into src pos dst = Some dst' ->
  List.length dst' = List.length dst
  /\ (forall i, (i < pos)%nat -> dst' !! i = dst !! i)
  /\ (forall j, (j < List.length src)%nat -> dst' !! (pos + j)%nat = src !! j).
Proof.
  unfold move_into. destruct (_ <=? _)%nat eqn:E; [|discriminate].
  apply Nat.leb_le in E. intros H. inversion H; subst. clear H.
  split; [|split].
  - rewrite !length_app, length_take, length_drop. lia.
  - intros i Hi. rewrite lookup_app_l by (rewrite length_take; lia).
    apply lookup_take_lt. lia.
  - intros j Hj. rewrite lookup_app_r by (rewrite length_take; lia).
    rewrite length_take. replace (pos + j - pos `min` List.length dst)%nat
      with j by lia.
    now apply lookup_app_l.
Qed.

Lemma call_static c nd nd' es :
  call ext c nd = Some (nd', es) -> static nd' = static nd.
Proof.
  intros H. destruct (is_StartProducing c) eqn:E.
  - destruct c; try discriminate. cbn in H. now inversion H.
  - now apply (call_shape c nd nd' es E) in H as [_ H].
Qed.

Lemma run_static calls : forall nd nd' es,
  run ext calls nd = Some (nd', es) -> static nd' = static nd.
Proof.
  induction calls as [|c calls IH]; intros nd nd' es H; cbn in H.
  - now inversion H.
  - destruct (call ext c nd) as [[nd1 es1]|] eqn:E1;
      cbn [mbind option_bind] in H; [|discriminate].
    destruct (run ext calls nd1) as [[nd2 es2]|] eqn:E2;
      cbn [mbind option_bind] in H; [|discriminate].
    inversion H; subst.
    apply call_static in E1. apply IH in E2. congruence.
Qed.

(** The successful path through [Make]. *)
Lemma Make_Ok input_schema ctx opts nd :
  Make ext input_schema ctx opts = Some (Ok nd) ->
  let N := List.length (aggregates opts) in
  let K := List.length (keys opts) in
  exists agg_src_descrs agg_states agg_result_fields output_fields,
    find_field_ids (keys opts) input_schema 0 K (replicate K 0%nat)
    = Some (Ok (key_field_ids_ nd))
    /\ find_field_ids (targets opts) input_schema 0 N (replicate N 0%nat)
       = Some (Ok (agg_src_field_ids_ nd))
    /\ descrs_of input_schema (agg_src_field_ids_ nd) ARRAY
       = Some agg_src_descrs
    /\ GetKernels ext (aggregates opts) agg_src_descrs = Ok (agg_kernels_ nd)
    /\ InitKernels ext (agg_kernels_ nd) (aggregates opts) agg_src_descrs
       = Ok agg_states
    /\ ResolveKernels ext (aggregates opts) (agg_kernels_ nd) agg_states
         agg_src_descrs = Ok agg_result_fields
    /\ fill_agg_fields agg_result_fields (names opts) 0 N
         (replicate (K + N) None) = Some output_fields
    /\ fill_key_fields input_schema (key_field_ids_ nd) N 0 K output_fields
       = Some (output_schema nd)
    /\ GroupByNode.input_schema nd = input_schema
    /\ aggs_ nd = aggregates opts
    /\ ctx_ nd = ctx
    /\ finished_ nd = true
    /\ local_states_ nd = []
    /\ input_counter_ nd = AtomicCounter.init
    /\ output_counter_ nd = AtomicCounter.init.
Proof.
  intros H. cbv zeta. unfold Make in H.
  destruct (find_field_ids (keys opts) _ _ _ _) as [[kids|st]|] eqn:E1;
    cbn [mbind option_bind] in H; try discriminate.
  destruct (find_field_ids (targets opts) _ _ _ _) as [[aids|st]|] eqn:E2;
    cbn [mbind option_bind] in H; try discriminate.
  destruct (descrs_of _ _ _) as [descrs|] eqn:E3;
    cbn [mbind option_bind] in H; [|discriminate].
  destruct (GetKernels ext _ _) as [kernels|st] eqn:E4; [|discriminate].
  destruct (InitKernels ext _ _ _) as [states|st] eqn:E5; [|discriminate].
  destruct (ResolveKernels ext _ _ _ _) as [arf|st] eqn:E6; [|discriminate].
  destruct (fill_agg_fields _ _ _ _ _) as [out1|] eqn:E7;
    cbn [mbind option_bind] in H; [|discriminate].
  destruct (fill_key_fields _ _ _ _ _ _) as [out2|] eqn:E8;
    cbn [mbind option_bind] in H; [|discriminate].
  inversion H; subst. cbn.
  exists descrs, states, arf, out1. repeat split; assumption.
Qed.

(** ** The batches that are sent downstream *)

(** What a slice does to the columns. *)
Lemma output_columns_Slice nd state (b : ExecBatch.t) offset len :
  output_columns ext nd state (fun d => d) (ExecBatch.values b) ->
  output_columns ext nd state (ExecBatch.Slice_Datum offset len)
    (ExecBatch.values (ExecBatch.Slice b offset len)).
Proof.
  intros (Hlen & Hagg & g & g' & out_keys & Hg & HU & HK & Hkey).
  unfold output_columns. cbn [ExecBatch.Slice ExecBatch.values].
  split; [now rewrite length_map|]. split.
  - intros i Hi.
    destruct (Hagg i Hi) as (kernel & s & st & out & H1 & H2 & H3 & H4 & H5).
    exists kernel, s, st, out. repeat split; try assumption.
    now rewrite list_lookup_fmap, H5.
  - exists g, g', out_keys. repeat split; try assumption.
    intros j Hj. rewrite list_lookup_fmap, (Hkey j Hj).
    now destruct (ExecBatch.values out_keys !! j).
Qed.

(** The columns of the batch that Finalize returns. *)
Lemma Finalize_columns nd out_data nd' es :
  Finalize ext nd = Some (Ok out_data, nd', es) ->
  exists state0 st0 state1 g,
    local_states_ nd !! 0%nat = Some state0
    /\ InitLocalStateIfNeeded ext nd state0 = Some (st0, state1)
    /\ grouper state1 = Some g
    /\ ExecBatch.length out_data = Grouper_num_groups ext g
    /\ output_columns ext nd state1 (fun d => d) (ExecBatch.values out_data).
Proof.
  intros HF.
  destruct (Finalize_Ok _ _ _ _ HF)
    as (state & st0 & state1 & g & st1 & values & sts & g' & out_keys
        & values' & total & F0 & F2 & F3 & F4 & F5 & F6 & F7 & F8 & F9 & _).
  exists state, st0, state1, g.
  split; [exact F0|]. split; [exact F2|]. split; [exact F4|].
  split; [now subst out_data|].
  apply Finalize_kernels_spec in F5 as (L5 & O5 & I5); [|exact F6].
  rewrite length_replicate in L5. rewrite length_replicate in I5.
  pose proof F8 as F8'. unfold move_into in F8'.
  destruct (_ <=? _)%nat eqn:E in F8'; [|discriminate]. clear F8'.
  apply Nat.leb_le in E. rewrite L5 in E.
  apply move_into_lookup in F8 as (M1 & M2 & M3).
  subst out_data. cbn [ExecBatch.values]. unfold output_columns.
  split; [congruence|]. split.
  - intros i Hi.
    destruct (I5 i) as (k & s & t' & o & H1 & H2 & H3 & H4 & H5); [lia|lia|].
    exists k, s, t', o. repeat split; try assumption.
    rewrite M2 by lia. exact H5.
  - exists g, g', out_keys. split; [exact F4|]. split; [exact F7|].
    split; [lia|].
    intros j Hj. rewrite (M3 j Hj).
    now destruct (ExecBatch.values out_keys !! j).
Qed.

(** [out_data_] is written by OutputResult only. *)
Lemma Consume_out_data thread_index batch nd st nd' :
  Consume ext thread_index batch nd = Some (st, nd') ->
  out_data_ nd' = out_data_ nd.
Proof.
  unfold Consume. intros H.
  destruct (_ <=? _)%nat; [now inversion H|].
  destruct (local_states_ nd !! thread_index) as [state|];
    cbn [mbind option_bind] in H; [|discriminate].
  destruct (InitLocalStateIfNeeded ext nd state) as [[st1 state1]|];
    cbn [mbind option_bind] in H; [|discriminate].
  destruct (negb (ok st1)); [now inversion H|].
  destruct (mapM _ _) as [keys|]; cbn [mbind option_bind] in H;
    [|discriminate].
  destruct (grouper state1) as [g|]; cbn [mbind option_bind] in H;
    [|discriminate].
  destruct (Grouper_Consume ext g _) as [[id_batch|st2] g'].
  - destruct (Consume_kernels _ _ _ _ _ _ _) as [[st3 states]|];
      cbn [mbind option_bind] in H; [|discriminate].
    now inversion H.
  - now inversion H.
Qed.

Lemma Merge_out_data nd st nd' :
  Merge ext nd = Some (st, nd') -> out_data_ nd' = out_data_ nd.
Proof.
  unfold Merge. intros H.
  destruct (local_states_ nd !! 0%nat); cbn [mbind option_bind] in H;
    [|discriminate].
  destruct (Merge_from _ _ _ _ _) as [[st1 l1]|];
    cbn [mbind option_bind] in H; [|discriminate].
  now inversion H.
Qed.

(** Finalize sends nothing downstream and hands nothing to the
    executor. *)
Lemma quiet_nil : quiet [].
Proof. split; [intros b []|reflexivity]. Qed.

Lemma quiet_MarkFinished : quiet [MarkFinished].
Proof. split; [intros b [H|[]]; discriminate|reflexivity]. Qed.

Lemma Finalize_out_data nd r nd' es :
  Finalize ext nd = Some (r, nd', es) ->
  out_data_ nd' = out_data_ nd /\ quiet es.
Proof.
  unfold Finalize. intros H.
  destruct (local_states_ nd !! 0%nat) as [state|];
    cbn [mbind option_bind] in H; [|discriminate].
  destruct (InitLocalStateIfNeeded ext nd state) as [[st1 state1]|];
    cbn [mbind option_bind] in H; [|discriminate].
  destruct (negb (ok st1));
    [inversion H; subst; split; [reflexivity|apply quiet_nil]|].
  destruct (grouper state1) as [g|]; cbn [mbind option_bind] in H;
    [|discriminate].
  destruct (Finalize_kernels _ _ _ _ _) as [[[st2 values] states]|];
    cbn [mbind option_bind] in H; [|discriminate].
  destruct (negb (ok st2));
    [inversion H; subst; split; [reflexivity|apply quiet_nil]|].
  destruct (Grouper_GetUniques ext g) as [[out_keys|st3] g'].
  - destruct (move_into _ _ _) as [values'|]; cbn [mbind option_bind] in H;
      [|discriminate].
    destruct (CeilDiv _ _) as [total|]; cbn [mbind option_bind] in H;
      [|discriminate].
    destruct (AtomicCounter.SetTotal _ _) as [[|] c]; inversion H; subst;
      (split; [reflexivity|first [apply quiet_nil|apply quiet_MarkFinished]]).
  - inversion H; subst; split; [reflexivity|apply quiet_nil].
Qed.

Lemma OutputNthBatch_out_data n nd :
  out_data_ (fst (OutputNthBatch n nd)) = out_data_ nd
  /\ exec_chunksize (ctx_ (fst (OutputNthBatch n nd))) = exec_chunksize (ctx_ nd)
  /\ slices_of (out_data_ nd) (snd (OutputNthBatch n nd))
  /\ spawned_tasks (snd (OutputNthBatch n nd)) = [].
Proof.
  unfold OutputNthBatch.
  destruct (finished_ nd).
  { cbn. repeat split. intros b []. }
  destruct (AtomicCounter.Increment _) as [[|] c]; cbn [fst snd];
    (split; [reflexivity|]; split; [reflexivity|]; split; [|reflexivity]).
  - intros b [Hb|[Hb|[]]]; [|discriminate]. inversion Hb; subst. eauto.
  - intros b [Hb|[]]. inversion Hb; subst. eauto.
Qed.

Lemma slices_of_app out_data es1 es2 :
  slices_of out_data es1 -> slices_of out_data es2 ->
  slices_of out_data (es1 ++ es2).
Proof.
  intros H1 H2 b Hb. apply in_app_or in Hb as [Hb|Hb]; eauto.
Qed.

Lemma spawned_tasks_app es1 es2 :
  spawned_tasks (es1 ++ es2) = spawned_tasks es1 ++ spawned_tasks es2.
Proof. unfold spawned_tasks. apply flat_map_app. Qed.

Lemma OutputResult_loop_out_data n : forall i nd,
  out_data_ (snd (fst (OutputResult_loop ext i n nd))) = out_data_ nd
  /\ slices_of (out_data_ nd) (snd (OutputResult_loop ext i n nd)).
Proof.
  induction n as [|n IH]; intros i nd; [split; [reflexivity|intros b []]|].
  cbn [OutputResult_loop].
  destruct (executor (ctx_ nd)) as [e|].
  - destruct (finished_ nd); [split; [reflexivity|intros b []]|].
    destruct (Spawn ext e i) as [st e'].
    destruct (negb (ok st)); [split; [reflexivity|intros b []]|].
    specialize (IH (i + 1)
                  (set_ctx nd (mkExecContext (exec_chunksize (ctx_ nd)) (Some e')))).
    destruct (OutputResult_loop _ _ _ _) as [[st' nd''] es].
    cbn [fst snd set_ctx out_data_] in *. destruct IH as [IH1 IH2].
    split; [exact IH1|].
    intros b [Hb|Hb]; [discriminate|now apply IH2].
  - destruct (OutputNthBatch_out_data i nd) as (H1 & _ & H2 & _).
    destruct (OutputNthBatch i nd) as [nd' es]. cbn [fst snd] in H1, H2.
    specialize (IH (i + 1) nd').
    destruct (OutputResult_loop _ _ _ _) as [[st' nd''] es'].
    cbn [fst snd] in *. destruct IH as [IH1 IH2]. rewrite H1 in IH1, IH2.
    split; [exact IH1|]. now apply slices_of_app.
Qed.

Lemma output_columns_static nd nd' state cut values :
  static nd' = static nd ->
  output_columns ext nd' state cut values ->
  output_columns ext nd state cut values.
Proof.
  unfold static, output_columns. intros H. inversion H as [[H1 H2 H3 H4 H5 H6 H7 H8]].
  now rewrite H3, H6.
Qed.

Lemma slices_send_columns base out_data es :
  finalized ext base out_data -> slices_of out_data es -> sends_columns ext base es.
Proof.
  intros [state Hc] Hs b Hb. destruct (Hs b Hb) as (offset & len & ->).
  exists state, offset, len. now apply output_columns_Slice.
Qed.

Lemma quiet_sends_columns base es : quiet es -> sends_columns ext base es.
Proof. intros [H _] b Hb. now apply H in Hb. Qed.

Lemma sends_columns_app base es1 es2 :
  sends_columns ext base es1 -> sends_columns ext base es2 ->
  sends_columns ext base (es1 ++ es2).
Proof.
  intros H1 H2 b Hb. apply in_app_or in Hb as [Hb|Hb]; eauto.
Qed.

Lemma ErrorIfNotOk_quiet st : quiet (snd (ErrorIfNotOk st)).
Proof.
  unfold ErrorIfNotOk. destruct (ok st); [apply quiet_nil|].
  split; [intros b [H|[]]; discriminate|reflexivity].
Qed.

(** The output phase: what it sends are slices of the batch that its
    Finalize returned, which it keeps in [out_data_]; when it fails before,
    it sends no batch, spawns no task and keeps [out_data_]. *)
Lemma OutputResult_or_error_sends base nd nd' es :
  static nd = static base ->
  OutputResult_or_error ext nd = Some (nd', es) ->
  sends_columns ext base es
  /\ (finalized ext base (out_data_ nd')
      \/ out_data_ nd' = out_data_ nd /\ spawned_tasks es = []).
Proof.
  intros Hst H. unfold OutputResult_or_error, OutputResult in H.
  destruct (Merge ext nd) as [[st1 nd1]|] eqn:EM;
    cbn [mbind option_bind] in H; [|discriminate].
  pose proof (Merge_out_data _ _ _ EM) as HM.
  apply Merge_shape in EM as [_ EM].
  destruct (negb (ok st1)).
  { cbn in H. inversion H; subst. split.
    - apply quiet_sends_columns, ErrorIfNotOk_quiet.
    - right. split; [exact HM|apply ErrorIfNotOk_quiet]. }
  destruct (Finalize ext nd1) as [[[r nd2] es2]|] eqn:EF;
    cbn [mbind option_bind] in H; [|discriminate].
  destruct (Finalize_out_data _ _ _ _ EF) as [HF Hq].
  destruct r as [out_data|st2].
  - destruct (Finalize_columns _ _ _ _ EF) as (s0 & st0 & s1 & g & _ & _ & _ & _ & Hc).
    assert (Hfin : finalized ext base out_data).
    { exists s1. apply (output_columns_static base nd1); [congruence|exact Hc]. }
    destruct (AtomicCounter.total _) as [num|];
      cbn [mbind option_bind] in H; [|discriminate].
    destruct (OutputResult_loop_out_data (Z.to_nat num) 0
                (set_out_data nd2 out_data)) as [HL1 HL2].
    destruct (OutputResult_loop _ _ _ _) as [[st3 nd3] es3].
    cbn [fst snd out_data_ set_out_data] in HL1, HL2.
    cbn in H. inversion H; subst. split.
    + apply sends_columns_app;
        [|apply quiet_sends_columns, ErrorIfNotOk_quiet].
      apply sends_columns_app; [now apply quiet_sends_columns|].
      intros b [Hb|Hb]; [discriminate|].
      now apply (slices_send_columns base _ es3 Hfin).
    + left. exact Hfin.
  - cbn in H. inversion H; subst. split.
    + apply sends_columns_app; [now apply quiet_sends_columns|].
      apply quiet_sends_columns, ErrorIfNotOk_quiet.
    + right. split; [congruence|].
      rewrite spawned_tasks_app. destruct Hq as [_ ->].
      apply ErrorIfNotOk_quiet.
Qed.

Lemma finalized_kept base (spawned : list Z) nd nd' es :
  out_data_ nd' = out_data_ nd ->
  spawned_tasks es = [] ->
  (spawned <> [] -> finalized ext base (out_data_ nd)) ->
  spawned ++ spawned_tasks es <> [] -> finalized ext base (out_data_ nd').
Proof.
  intros -> -> H. rewrite app_nil_r. exact H.
Qed.

(** One call: the batches it sends have the columns of a finalized batch,
    and once a task was spawned [out_data_] holds such a batch. *)
Lemma call_sends base (spawned : list Z) c nd nd' es :
  static nd = static base ->
  (spawned <> [] -> finalized ext base (out_data_ nd)) ->
  match c with
  | Call_OutputNthBatch n => existsb (Z.eqb n) spawned
  | _ => true
  end = true ->
  call ext c nd = Some (nd', es) ->
  sends_columns ext base es
  /\ (spawned ++ spawned_tasks es <> [] -> finalized ext base (out_data_ nd')).
Proof.
  intros Hst Hinv Hc H.
  assert (HO : forall nd0 nd1 es1,
             static nd0 = static base ->
             out_data_ nd0 = out_data_ nd ->
             OutputResult_or_error ext nd0 = Some (nd1, es1) ->
             sends_columns ext base es1
             /\ (spawned ++ spawned_tasks es1 <> []
                 -> finalized ext base (out_data_ nd1))).
  { intros nd0 nd1 es1 H0 H1 HR.
    destruct (OutputResult_or_error_sends base _ _ _ H0 HR) as [S1 [S2|[S2 S3]]].
    - split; [exact S1|]. intros _. exact S2.
    - split; [exact S1|].
      apply (finalized_kept base spawned nd); [congruence|exact S3|exact Hinv]. }
  assert (HQ : forall es1,
             quiet es1 -> out_data_ nd' = out_data_ nd -> es = es1 ->
             sends_columns ext base es
             /\ (spawned ++ spawned_tasks es <> []
                 -> finalized ext base (out_data_ nd'))).
  { intros es1 Hq Ho ->. split; [now apply quiet_sends_columns|].
    apply (finalized_kept base spawned nd); [exact Ho|apply Hq|exact Hinv]. }
  destruct c as [cap|ti batch|error|total| |n]; cbn [call] in H.
  - inversion H; subst. now apply (HQ []); [apply quiet_nil| |].
  - unfold InputReceived in H.
    destruct (finished_ nd).
    { inversion H; subst. now apply (HQ []); [apply quiet_nil| |]. }
    destruct (Consume ext ti batch nd) as [[st nd1]|] eqn:EC;
      cbn [mbind option_bind] in H; [|discriminate].
    pose proof (Consume_out_data _ _ _ _ _ EC) as Ho.
    apply Consume_shape in EC as [_ EC].
    pose proof (ErrorIfNotOk_quiet st) as Hq.
    destruct (ErrorIfNotOk st) as [[|] es1]; cbn [snd] in Hq.
    { inversion H; subst. now apply (HQ es). }
    destruct (AtomicCounter.Increment _) as [[|] c].
    + apply (HO (set_input_counter nd1 c) nd' es);
        [change (static nd1 = static base); congruence|exact Ho|exact H].
    + inversion H; subst. now apply (HQ []); [apply quiet_nil| |].
  - inversion H; subst. apply (HQ [Output_ErrorReceived error]);
      [split; [intros b [Hb|[]]; discriminate|reflexivity]|reflexivity
      |reflexivity].
  - unfold InputFinished in H.
    destruct (finished_ nd).
    { inversion H; subst. now apply (HQ []); [apply quiet_nil| |]. }
    destruct (AtomicCounter.SetTotal _ _) as [[|] c].
    + apply (HO (set_input_counter nd c) nd' es);
        [exact Hst|reflexivity|exact H].
    + inversion H; subst. now apply (HQ []); [apply quiet_nil| |].
  - unfold StopProducing in H.
    destruct (AtomicCounter.Cancel (input_counter_ nd)) as [w1 c1].
    cbn in H.
    destruct (negb (AtomicCounter.complete_ (output_counter_ nd)));
      inversion H; subst;
      (eapply HQ; [|reflexivity|reflexivity]);
      (split; [intros b Hb; cbn in Hb; intuition discriminate|reflexivity]).
  - assert (Hne : spawned <> []).
    { intros ->. discriminate. }
    destruct (OutputNthBatch_out_data n nd) as (H1 & _ & H2 & H3).
    inversion H as [HN]. rewrite HN in H1, H2, H3. cbn [fst snd] in H1, H2, H3.
    split.
    + apply (slices_send_columns base (out_data_ nd)); [now apply Hinv|exact H2].
    + intros _. rewrite H1. now apply Hinv.
Qed.

(** Every batch that a run sends downstream is a slice of a batch that
    Finalize returned, when tasks run only after they were spawned. *)
Lemma run_sends base calls : forall (spawned : list Z) nd nd' es,
  static nd = static base ->
  (spawned <> [] -> finalized ext base (out_data_ nd)) ->
  tasks_follow_spawns ext spawned calls nd = true ->
  run ext calls nd = Some (nd', es) ->
  sends_columns ext base es.
Proof.
  induction calls as [|c calls IH]; intros spawned nd nd' es Hst Hinv Ht H.
  - cbn in H. inversion H; subst. intros b [].
  - cbn [tasks_follow_spawns] in Ht. cbn [run] in H.
    apply andb_true_iff in Ht as [Hc Ht].
    destruct (call ext c nd) as [[nd1 es1]|] eqn:E1;
      cbn [mbind option_bind] in H; [|discriminate].
    destruct (run ext calls nd1) as [[nd2 es2]|] eqn:E2;
      cbn [mbind option_bind] in H; [|discriminate].
    destruct (call_sends base spawned c nd nd1 es1 Hst Hinv Hc E1) as [S1 S2].
    assert (S3 : sends_columns ext base es2).
    { apply (IH (spawned ++ spawned_tasks es1) nd1 nd2 es2); try assumption.
      apply call_static in E1. congruence. }
    inversion H; subst. now apply sends_columns_app.
Qed.

(** C5.  A group-by node built by [Make] from K key references and N
    aggregate specs (for which GetKernels returned N kernels) declares an
    output schema of N + K fields: field i < N is the result field of
    aggregate i under the i-th output name, field N + j is the input field
    of key j.  The batches have their columns at the same positions.
    Every batch that Finalize returns on this node, after any calls, has
    N + K columns: column i < N is what [finalize] of kernel i wrote for
    the i-th kernel state of thread slot 0, column N + j is the j-th column
    of the unique keys of the grouper of slot 0 (which returns at most K
    columns, one per key).  Every batch that the node sends downstream, in
    any run in which the executor runs only tasks that the node spawned, is
    a slice of such a batch: its column i < N is the slice of what
    [finalize] of kernel i wrote, its column N + j the slice of the j-th
    column of the unique keys. *)
Theorem C5_group_by_column_order input_schema ctx opts nd :
  Make ext input_schema ctx opts = Some (Ok nd) ->
  List.length (agg_kernels_ nd) = List.length (aggregates opts) ->
  let N := List.length (aggregates opts) in
  let K := List.length (keys opts) in
  List.length (output_schema nd) = (K + N)%nat
  /\ (exists agg_src_descrs agg_states agg_result_fields,
        ResolveKernels ext (aggregates opts) (agg_kernels_ nd) agg_states
          agg_src_descrs = Ok agg_result_fields
        /\ forall i, (i < N)%nat ->
           exists f field_name,
             field agg_result_fields i = Some f
             /\ names opts !! i = Some field_name
             /\ output_schema nd !! i = Some (Some (WithName f field_name)))
  /\ (forall j, (j < K)%nat ->
      exists ref id f,
        keys opts !! j = Some ref
        /\ FindOne ref input_schema = Ok id
        /\ input_schema !! id = Some f
        /\ output_schema nd !! (N + j)%nat = Some f)
  /\ List.length (agg_kernels_ nd) = N
  /\ List.length (key_field_ids_ nd) = K
  /\ (forall calls nd1 es1 out_data nd2 es2,
      run ext calls nd = Some (nd1, es1) ->
      Finalize ext nd1 = Some (Ok out_data, nd2, es2) ->
      exists state0 st0 state1 g,
        local_states_ nd1 !! 0%nat = Some state0
        /\ InitLocalStateIfNeeded ext nd1 state0 = Some (st0, state1)
        /\ grouper state1 = Some g
        /\ ExecBatch.length out_data = Grouper_num_groups ext g
        /\ output_columns ext nd state1 (fun d => d)
             (ExecBatch.values out_data))
  /\ (forall calls nd1 es b,
      tasks_follow_spawns ext [] calls nd = true ->
      run ext calls nd = Some (nd1, es) ->
      In (Output_InputReceived b) es ->
      exists state offset len,
        output_columns ext nd state (ExecBatch.Slice_Datum offset len)
          (ExecBatch.values b)).
Proof.
  intros HM HN N K.
  destruct (Make_Ok _ _ _ _ HM)
    as (descrs & states & arf & out1 & E1 & E2 & E3 & E4 & E5 & E6 & E7 & E8
        & _).
  fold N K in E1, E2, E7, E8.
  apply find_field_ids_spec in E1 as (L1 & _ & F1).
  apply fill_agg_fields_spec in E7 as (L7 & O7 & I7).
  apply fill_key_fields_spec in E8 as (L8 & O8 & I8).
  rewrite length_replicate in L1. rewrite length_replicate in F1.
  rewrite length_replicate in L7. rewrite length_replicate in I7.
  rewrite L7 in L8, I8.
  split; [exact L8|]. split; [|split; [|split; [exact HN|split; [exact L1|split]]]].
  - exists descrs, states, arf. split; [exact E6|].
    intros i Hi. destruct (I7 i) as (f & nm & H1 & H2 & H3); [lia|lia|].
    exists f, nm. repeat split; try assumption.
    rewrite O8 by lia. exact H3.
  - intros j Hj.
    destruct (F1 j) as (ref & id & H1 & H2 & H3); [lia|lia|].
    destruct (I8 j) as (kid & f & H4 & H5 & H6); [lia|lia|].
    rewrite H3 in H4. inversion H4; subst kid.
    exists ref, id, f. repeat split; assumption.
  - intros calls nd1 es1 out_data nd2 es2 Hrun HF.
    apply run_static in Hrun.
    destruct (Finalize_columns _ _ _ _ HF)
      as (state0 & st0 & state1 & g & H0 & H1 & H2 & H3 & H4).
    exists state0, st0, state1, g. repeat split; try assumption.
    all: now apply (output_columns_static nd nd1) in H4 as (A & B & C).
  - intros calls nd1 es b Ht Hrun Hb.
    apply (run_sends nd calls [] nd nd1 es); try assumption;
      [reflexivity|congruence].
Qed.

(** ** The output phase on a node that received no batch *)

Lemma Merge_from_nothing nd n : forall i (l : list (ThreadLocalState KernelState Grouper)),
  (i + n <= List.length l)%nat -> (0 < List.length l)%nat ->
  (forall j state, (1 <= j)%nat -> l !! j = Some state -> grouper state = None) ->
  (1 <= i)%nat ->
  Merge_from ext nd i n l = Some (Status_OK, l).
Proof.
  induction n as [|n IH]; intros i l Hlen Hpos Hnone Hi; [reflexivity|].
  cbn [Merge_from]. unfold Merge_slot.
  destruct (lookup_lt_is_Some_2 l 0%nat Hpos) as [state0 H0].
  destruct (lookup_lt_is_Some_2 l i ltac:(lia)) as [state Hs].
  rewrite H0, Hs. cbn [mbind option_bind].
  rewrite (Hnone i state Hi Hs). cbn [mbind option_bind negb ok code Status_OK].
  apply IH; try assumption; lia.
Qed.

Lemma Merge_nothing nd :
  (0 < List.length (local_states_ nd))%nat ->
  (forall j state, (1 <= j)%nat -> local_states_ nd !! j = Some state ->
                   grouper state = None) ->
  Merge ext nd = Some (Status_OK, nd).
Proof.
  intros Hpos Hnone. unfold Merge.
  destruct (lookup_lt_is_Some_2 (local_states_ nd) 0%nat Hpos) as [state0 H0].
  rewrite H0. cbn [mbind option_bind].
  rewrite Merge_from_nothing; try assumption; try lia.
  cbn [mbind option_bind]. now destruct nd.
Qed.

Lemma Finalize_kernels_succeeds nd n : forall i values states,
  (forall j, (i <= j < i + n)%nat ->
     exists kernel state,
       agg_kernels_ nd !! j = Some kernel
       /\ states !! j = Some (Some state)
       /\ ok (fst (finalize kernel state)) = true) ->
  exists values' states',
    Finalize_kernels nd i n values states = Some (Status_OK, values', states')
    /\ (forall j, (i <= j < i + n)%nat -> states' !! j = Some None)
    /\ (forall j, (j < i \/ i + n <= j)%nat -> states' !! j = states !! j)
    /\ List.length states' = List.length states.
Proof.
  induction n as [|n IH]; intros i values states H.
  - exists values, states. cbn.
    split; [reflexivity|]. split; [intros j Hj; lia|]. split; reflexivity.
  - destruct (H i ltac:(lia)) as (kernel & state & Hk & Hs & Hok).
    cbn [Finalize_kernels]. rewrite Hk, Hs. cbn [mbind option_bind].
    destruct (finalize kernel state) as [st out]. cbn [fst] in Hok.
    rewrite Hok. cbn [negb].
    destruct (IH (S i) (<[i := out]> values) (<[i := None]> states))
      as (values' & states' & HF & Hin & Hout & Hlen).
    { intros j Hj. destruct (H j ltac:(lia)) as (k' & s' & H1 & H2 & H3).
      exists k', s'. repeat split; try assumption.
      rewrite list_lookup_insert_ne by lia. exact H2. }
    exists values', states'. split; [exact HF|].
    rewrite length_insert in Hlen. split; [|split; [|exact Hlen]].
    + intros j Hj. destruct (Nat.eq_dec j i) as [->|Hne].
      * rewrite Hout by lia. apply list_lookup_insert_eq.
        apply lookup_lt_Some in Hs. exact Hs.
      * apply Hin. lia.
    + intros j Hj. rewrite Hout by lia.
      apply list_lookup_insert_ne. lia.
Qed.

Lemma to_int_small z : INT_MIN <= z <= INT_MAX -> to_int z = z.
Proof.
  unfold to_int, INT_MIN, INT_MAX. intros H.
  rewrite Z.mod_small by lia. lia.
Qed.

(** C10.  When the output phase of the group-by node starts and no batch
    was ever received (every thread slot is as StartProducing made it),
    Merge has nothing to merge, and Finalize itself makes the grouper and
    the kernel states of slot 0; provided the grouper and the kernels can
    be made and a new grouper has no group, Finalize succeeds with a batch
    of zero rows, announces a total of 0 and resolves [finished_]. *)
Theorem C10_group_by_empty_input nd (capacity : nat)
    key_descrs agg_src_descrs g states uniques g' :
  local_states_ nd = replicate (S capacity) ThreadLocalState_default ->
  output_counter_ nd = AtomicCounter.init ->
  descrs_of (input_schema nd) (key_field_ids_ nd) ANY = Some key_descrs ->
  descrs_of (input_schema nd) (agg_src_field_ids_ nd) ARRAY
  = Some agg_src_descrs ->
  Grouper_Make ext key_descrs = Ok g ->
  Grouper_num_groups ext g = 0 ->
  InitKernels ext (agg_kernels_ nd) (aggs_ nd) agg_src_descrs = Ok states ->
  Forall2 (fun kernel state => ok (fst (finalize kernel state)) = true)
    (agg_kernels_ nd) states ->
  Grouper_GetUniques ext g = (Ok uniques, g') ->
  (List.length (ExecBatch.values uniques)
   <= List.length (key_field_ids_ nd))%nat ->
  let N := List.length (agg_kernels_ nd) in
  let K := List.length (key_field_ids_ nd) in
  Merge ext nd = Some (Status_OK, nd)
  /\ InitLocalStateIfNeeded ext nd ThreadLocalState_default
     = Some (Status_OK, mkThreadLocalState (Some g) (map Some states))
  /\ exists out_data nd' nd'',
       Finalize ext nd = Some (Ok out_data, nd', [MarkFinished])
       /\ ExecBatch.length out_data = 0
       /\ List.length (ExecBatch.values out_data) = (N + K)%nat
       /\ finished_ nd' = true
       /\ AtomicCounter.total (output_counter_ nd') = Some 0
       /\ local_states_ nd' !! 0%nat
          = Some (mkThreadLocalState None (replicate N None))
       /\ OutputResult ext nd
          = Some (Status_OK, nd'', [MarkFinished; Output_InputFinished 0])
       /\ finished_ nd'' = true.
Proof.
  intros Hl Hc Hkd Had HG Hng HI HF HU HK N K.
  assert (HM : Merge ext nd = Some (Status_OK, nd)).
  { apply Merge_nothing.
    - rewrite Hl, length_replicate. lia.
    - intros j state Hj Hs. rewrite Hl in Hs.
      apply lookup_replicate in Hs as [-> _]. reflexivity. }
  assert (HInit : InitLocalStateIfNeeded ext nd ThreadLocalState_default
                  = Some (Status_OK,
                          mkThreadLocalState (Some g) (map Some states))).
  { unfold InitLocalStateIfNeeded. cbn [grouper ThreadLocalState_default].
    rewrite Hkd. cbn [mbind option_bind]. rewrite HG, Had.
    cbn [mbind option_bind]. now rewrite HI. }
  split; [exact HM|]. split; [exact HInit|].
  pose proof (Forall2_length _ _ _ HF) as HFlen.
  destruct (Finalize_kernels_succeeds nd N 0
              (replicate (N + K) Datum_NONE) (map Some states))
    as (values & states' & HFK & Hin & Hout & Hslen).
  { intros j Hj.
    destruct (lookup_lt_is_Some_2 (agg_kernels_ nd) j ltac:(subst N; lia))
      as [kernel Hk].
    destruct (Forall2_lookup_l _ _ _ _ _ HF Hk) as (state & Hs & Hok).
    exists kernel, state. repeat split; try assumption.
    rewrite list_lookup_fmap, Hs. reflexivity. }
  destruct (Finalize_kernels_spec nd N 0 _ _ _ _ _ HFK eq_refl)
    as (Hvlen & _).
  rewrite length_replicate in Hvlen.
  assert (HMove : exists values',
             move_into (ExecBatch.values uniques) N values = Some values'
             /\ List.length values' = (N + K)%nat).
  { unfold move_into. destruct (_ <=? _)%nat eqn:E.
    - eexists. split; [reflexivity|].
      apply Nat.leb_le in E.
      rewrite !length_app, length_take, length_drop. lia.
    - apply Nat.leb_gt in E. subst K. lia. }
  destruct HMove as (values' & HMove & Hv'len).
  assert (HFin : Finalize ext nd
                 = Some (Ok (ExecBatch.mk values' 0),
                         set_finished
                           (set_output_counter
                              (set_local_states nd
                                 (<[0%nat := mkThreadLocalState None states']>
                                    (local_states_ nd)))
                              (AtomicCounter.mk 0 0 true)) true,
                         [MarkFinished])).
  { unfold Finalize. rewrite Hl at 1.
    cbn [replicate lookup list_lookup mbind option_bind].
    rewrite HInit. cbn [mbind option_bind negb ok code Status_OK grouper
                        agg_states].
    fold N K. rewrite HFK.
    cbn [mbind option_bind negb ok code Status_OK]. rewrite HU, Hng, HMove.
    cbn [mbind option_bind CeilDiv Z.eqb output_counter_ set_local_states].
    rewrite Hc. reflexivity. }
  eexists. eexists. eexists.
  split; [exact HFin|]. split; [reflexivity|]. split; [exact Hv'len|].
  split; [reflexivity|]. split; [reflexivity|]. split; [|split].
  - cbn [local_states_ set_finished set_output_counter set_local_states].
    rewrite Hl. cbn. f_equal. f_equal.
    apply list_eq. intros j.
    destruct (decide (j < N)%nat) as [Hj|Hj].
    + rewrite Hin by lia. symmetry. apply lookup_replicate_2. exact Hj.
    + rewrite lookup_ge_None_2; [|rewrite Hslen, length_map; subst N; lia].
      symmetry. apply lookup_ge_None_2. rewrite length_replicate. lia.
  - unfold OutputResult. rewrite HM.
    cbn [mbind option_bind negb ok code Status_OK]. rewrite HFin.
    cbn [mbind option_bind]. reflexivity.
  - reflexivity.
Qed.

(** ** Chunked output *)

Lemma CeilDiv_positive value divisor :
  0 < value -> 0 < divisor ->
  CeilDiv value divisor = Some ((value + divisor - 1) / divisor).
Proof.
  intros Hv Hd. unfold CeilDiv.
  destruct (value =? 0) eqn:E1; [apply Z.eqb_eq in E1; lia|].
  destruct (divisor =? 0) eqn:E2; [apply Z.eqb_eq in E2; lia|].
  f_equal. rewrite Z.quot_div_nonneg by lia.
  replace (value + divisor - 1) with ((value - 1) + 1 * divisor) by lia.
  rewrite Z.div_add by lia. lia.
Qed.

Lemma CeilDiv_zero divisor : CeilDiv 0 divisor = Some 0.
Proof. reflexivity. Qed.

Lemma output_batch_size_cases nd :
  let chunksize := exec_chunksize (ctx_ nd) in
  output_batch_size nd
  = (if to_int chunksize <? 0 then 32768 else to_int chunksize)
  /\ (0 <= chunksize <= INT_MAX -> output_batch_size nd = chunksize)
  /\ (INT_MIN <= chunksize < 0 -> output_batch_size nd = 32768)
  /\ (chunksize = INT64_MAX -> output_batch_size nd = 32768)
  /\ 0 <= output_batch_size nd <= INT_MAX.
Proof.
  cbv zeta. unfold output_batch_size.
  split; [reflexivity|]. split; [|split; [|split]].
  - intros H. rewrite to_int_small by (unfold INT_MIN, INT_MAX in *; lia).
    destruct (_ <? 0) eqn:E; [apply Z.ltb_lt in E; lia|reflexivity].
  - intros H. rewrite to_int_small by (unfold INT_MIN, INT_MAX in *; lia).
    destruct (_ <? 0) eqn:E; [reflexivity|apply Z.ltb_ge in E; lia].
  - intros ->. reflexivity.
  - assert (H : INT_MIN <= to_int (exec_chunksize (ctx_ nd)) <= INT_MAX).
    { unfold to_int, INT_MIN, INT_MAX.
      pose proof (Z.mod_pos_bound (exec_chunksize (ctx_ nd) + 2 ^ 31) (2 ^ 32)
                    ltac:(lia)). lia. }
    destruct (_ <? 0) eqn:E; [unfold INT_MAX; lia|].
    apply Z.ltb_ge in E. lia.
Qed.

(** The tasks of the chunks, run one after the other in any order: each
    delivers its chunk, and the last one resolves [finished_]. *)
Lemma run_chunks (order : list Z) : forall nd,
  order <> [] ->
  finished_ nd = false ->
  AtomicCounter.complete_ (output_counter_ nd) = false ->
  AtomicCounter.count_ (output_counter_ nd) + Z.of_nat (List.length order)
  = AtomicCounter.total_ (output_counter_ nd) ->
  exists nd',
    run ext (map Call_OutputNthBatch order) nd
    = Some (nd',
            map (fun n => Output_InputReceived (chunk nd n)) order
            ++ [MarkFinished])
    /\ finished_ nd' = true
    /\ same_shape nd nd'.
Proof.
  induction order as [|n order IH]; intros nd Hne Hfin Hcp Hcnt; [congruence|].
  cbn [map run call]. unfold OutputNthBatch at 1. rewrite Hfin.
  fold (chunk nd n).
  destruct order as [|m order'].
  - (* the last chunk *)
    rewrite Increment_reaches_total; [|cbn in Hcnt; lia|exact Hcp].
    cbn [mbind option_bind map run app].
    eexists. split; [reflexivity|]. split; [reflexivity|].
    split; reflexivity.
  - rewrite Increment_not_total;
      [|rewrite length_cons in Hcnt; rewrite length_cons in Hcnt; lia].
    cbn [mbind option_bind].
    match goal with
    | |- context [run ext _ ?n1] =>
        destruct (IH n1) as (nd' & HR & Hf' & Hsh);
          [discriminate|exact Hfin|exact Hcp| |]
    end.
    { cbn [output_counter_ set_output_counter AtomicCounter.count_
           AtomicCounter.total_].
      rewrite length_cons in Hcnt. lia. }
    rewrite HR. cbn [mbind option_bind].
    exists nd'. split; [|split; [exact Hf'|]].
    + reflexivity.
    + eapply same_shape_trans; [|exact Hsh]. split; reflexivity.
Qed.

Lemma OutputNthBatch_ctx n nd : ctx_ (fst (OutputNthBatch n nd)) = ctx_ nd.
Proof.
  unfold OutputNthBatch. destruct (finished_ nd); [reflexivity|].
  destruct (AtomicCounter.Increment _) as [[|] c]; reflexivity.
Qed.

(** Without an executor, the loop of OutputResult runs the chunks in
    order. *)
Lemma OutputResult_loop_sync n : forall i nd nd' es,
  executor (ctx_ nd) = None ->
  run ext (map Call_OutputNthBatch (chunk_indices i n)) nd = Some (nd', es) ->
  OutputResult_loop ext i n nd = (Status_OK, nd', es).
Proof.
  induction n as [|n IH]; intros i nd nd' es Hex Hrun.
  - cbn in Hrun. inversion Hrun; subst. reflexivity.
  - cbn [OutputResult_loop chunk_indices map run call] in Hrun |- *.
    rewrite Hex.
    pose proof (OutputNthBatch_ctx i nd) as Hctx.
    destruct (OutputNthBatch i nd) as [nd1 es1]. cbn [fst] in Hctx.
    cbn [mbind option_bind] in Hrun.
    destruct (run ext _ nd1) as [[nd2 es2]|] eqn:E;
      cbn [mbind option_bind] in Hrun; [|discriminate].
    inversion Hrun; subst.
    rewrite (IH (i + 1) nd1 nd' es2); [reflexivity| |exact E].
    now rewrite Hctx.
Qed.

(** With an executor that accepts every task, the loop of OutputResult
    spawns one task per chunk and changes nothing but the executor. *)
Lemma OutputResult_loop_spawns n : forall i nd e,
  (forall e' k, ok (fst (Spawn ext e' k)) = true) ->
  executor (ctx_ nd) = Some e ->
  finished_ nd = false ->
  exists e',
    OutputResult_loop ext i n nd
    = (Status_OK,
       set_ctx nd (mkExecContext (exec_chunksize (ctx_ nd)) (Some e')),
       map Executor_Spawn (chunk_indices i n)).
Proof.
  induction n as [|n IH]; intros i nd e Hok Hex Hfin.
  - exists e. cbn. rewrite <- Hex. now destruct nd as [[c x] ?].
  - cbn [OutputResult_loop chunk_indices map]. rewrite Hex, Hfin.
    specialize (Hok e i) as Hoki.
    destruct (Spawn ext e i) as [st e1]. cbn [fst] in Hoki.
    rewrite Hoki. cbn [negb].
    destruct (IH (i + 1)
                (set_ctx nd (mkExecContext (exec_chunksize (ctx_ nd)) (Some e1)))
                e1 Hok eq_refl Hfin) as (e' & HL).
    rewrite HL. exists e'. reflexivity.
Qed.

Lemma chunk_indices_length i n : List.length (chunk_indices i n) = n.
Proof. revert i. induction n as [|n IH]; intros i; cbn; [|rewrite IH]; reflexivity. Qed.

Lemma chunk_indices_bounds n : forall i k,
  In k (chunk_indices i n) -> i <= k < i + Z.of_nat n.
Proof.
  induction n as [|n IH]; intros i k Hin; [destruct Hin|].
  cbn in Hin. destruct Hin as [<- | Hin]; [lia|].
  apply IH in Hin. lia.
Qed.

(** The rows of chunk k, for a chunk size [bs > 0] and [len] rows. *)
Lemma chunk_rows (b : ExecBatch.t) bs k :
  0 < bs -> 0 <= k < (ExecBatch.length b + bs - 1) / bs ->
  0 < ExecBatch.length (ExecBatch.Slice b (bs * k) bs) <= bs.
Proof.
  intros Hbs Hk. unfold ExecBatch.Slice. cbn [ExecBatch.length].
  assert (H : bs * k < ExecBatch.length b).
  { destruct (Z.le_gt_cases (ExecBatch.length b) (bs * k)) as [Hle|Hgt];
      [|lia].
    exfalso.
    assert ((ExecBatch.length b + bs - 1) / bs < k + 1); [|lia].
    apply Z.div_lt_upper_bound; lia. }
  lia.
Qed.


End GroupByNodeFacts.

(** ** The group-by node on scenario S3 *)

Example example_node_made chunksize :
  GroupByNode.example_node chunksize
  = Some (Ok (GroupByNode.example_made chunksize)).
Proof. reflexivity. Qed.

(** Two batches on two threads, chunks of one row: the sums of [v] by
    [k], aggregates first. *)
Example group_by_scenario_S3 :
  option_map snd
    (GroupByNode.run GroupByNode.example_externals
       [GroupByNode.Call_StartProducing 2;
        GroupByNode.Call_InputReceived 0 GroupByNode.example_batch_1;
        GroupByNode.Call_InputReceived 1 GroupByNode.example_batch_2;
        GroupByNode.Call_InputFinished 2]
       (GroupByNode.example_made 1))
  = Some [Output_InputFinished 2;
          Output_InputReceived
            (ExecBatch.mk [Datum_ARRAY [Int64 7]; Datum_ARRAY [Utf8 "a"]] 1);
          Output_InputReceived
            (ExecBatch.mk [Datum_ARRAY [Int64 8]; Datum_ARRAY [Utf8 "b"]] 1);
          MarkFinished].
Proof. vm_compute. reflexivity. Qed.

(** The same with an executor: the node announces two chunks and spawns
    their tasks, which the executor runs later, here chunk 1 first. *)
Example group_by_scenario_S3_with_executor :
  let calls :=
    [GroupByNode.Call_StartProducing 2;
     GroupByNode.Call_InputReceived 0 GroupByNode.example_batch_1;
     GroupByNode.Call_InputReceived 1 GroupByNode.example_batch_2;
     GroupByNode.Call_InputFinished 2;
     GroupByNode.Call_OutputNthBatch 1;
     GroupByNode.Call_OutputNthBatch 0] in
  let nd :=
    GroupByNode.set_ctx (GroupByNode.example_made 1)
      (GroupByNode.mkExecContext 1 (Some [])) in
  GroupByNode.tasks_follow_spawns GroupByNode.example_externals [] calls nd
  = true
  /\ option_map snd (GroupByNode.run GroupByNode.example_externals calls nd)
     = Some [Output_InputFinished 2; Executor_Spawn 0; Executor_Spawn 1;
             Output_InputReceived
               (ExecBatch.mk [Datum_ARRAY [Int64 8]; Datum_ARRAY [Utf8 "b"]] 1);
             Output_InputReceived
               (ExecBatch.mk [Datum_ARRAY [Int64 7]; Datum_ARRAY [Utf8 "a"]] 1);
             MarkFinished].
Proof. split; vm_compute; reflexivity. Qed.

(** A chunk size of 0 with groups to output: the total is a division by
    zero, which the model leaves undefined. *)
Example chunksize_zero_is_undefined :
  GroupByNode.run GroupByNode.example_externals
    [GroupByNode.Call_StartProducing 2;
     GroupByNode.Call_InputReceived 0 GroupByNode.example_batch_1;
     GroupByNode.Call_InputFinished 1]
    (GroupByNode.example_made 0)
  = None.
Proof. vm_compute. reflexivity. Qed.



Lemma C5_group_by_column_order_witness :
  (exists f,
      GroupByNode.output_schema (GroupByNode.example_made 1) !! 0%nat
      = Some (Some (GroupByNode.WithName f "sum")))
  /\ (exists id,
        GroupByNode.FindOne (GroupByNode.FieldRef_name "k")
          GroupByNode.example_schema = Ok id
        /\ GroupByNode.output_schema (GroupByNode.example_made 1) !! 1%nat
           = GroupByNode.example_schema !! id)
  /\ List.length
       (ExecBatch.values (fst (fst (GroupByNode.example_finalized 1))))
     = 2%nat
  /\ exists state offset len,
       GroupByNode.output_columns GroupByNode.example_externals
         (GroupByNode.example_made 1) state
         (ExecBatch.Slice_Datum offset len)
         [Datum_ARRAY [Int64 8]; Datum_ARRAY [Utf8 "b"]].
Proof.
  pose proof (C5_group_by_column_order GroupByNode.example_externals
                GroupByNode.example_schema
                (GroupByNode.mkExecContext 1 None)
                GroupByNode.example_options (GroupByNode.example_made 1)
                eq_refl eq_refl) as H.
  cbv zeta in H.
  destruct H as (_ & Hagg & Hkey & _ & _ & Hbatch & Hsent).
  destruct Hagg as (descrs & states & arf & Hres & Hagg).
  destruct (Hagg 0%nat ltac:(cbn; lia)) as (f & nm & Hf & Hnm & Hout).
  destruct (Hkey 0%nat ltac:(cbn; lia)) as (ref & id & kf & Hr & Hid & Hin & Hk).
  destruct (Hbatch
              [GroupByNode.Call_StartProducing 2;
               GroupByNode.Call_InputReceived 0 GroupByNode.example_batch_1]
              (GroupByNode.example_consumed 1) []
              (fst (fst (GroupByNode.example_finalized 1)))
              (snd (fst (GroupByNode.example_finalized 1)))
              (snd (GroupByNode.example_finalized 1))
              eq_refl eq_refl) as (s0 & st0 & s1 & g & _ & _ & _ & _ & Hlen & _).
  split; [|split; [|split; [exact Hlen|]]].
  - exists f. cbn in Hnm. inversion Hnm; subst nm. exact Hout.
  - exists id. cbn in Hr. inversion Hr; subst ref.
    split; [exact Hid|]. rewrite Hin. exact Hk.
  - assert (Ht : GroupByNode.tasks_follow_spawns GroupByNode.example_externals
                   []
                   [GroupByNode.Call_StartProducing 2;
                    GroupByNode.Call_InputReceived 0 GroupByNode.example_batch_1;
                    GroupByNode.Call_InputReceived 1 GroupByNode.example_batch_2;
                    GroupByNode.Call_InputFinished 2]
                   (GroupByNode.example_made 1) = true)
      by (vm_compute; reflexivity).
    assert (Hrun : exists nd1,
               GroupByNode.run GroupByNode.example_externals
                 [GroupByNode.Call_StartProducing 2;
                  GroupByNode.Call_InputReceived 0 GroupByNode.example_batch_1;
                  GroupByNode.Call_InputReceived 1 GroupByNode.example_batch_2;
                  GroupByNode.Call_InputFinished 2]
                 (GroupByNode.example_made 1)
               = Some (nd1,
                       [Output_InputFinished 2;
                        Output_InputReceived
                          (ExecBatch.mk
                             [Datum_ARRAY [Int64 7]; Datum_ARRAY [Utf8 "a"]] 1);
                        Output_InputReceived
                          (ExecBatch.mk
                             [Datum_ARRAY [Int64 8]; Datum_ARRAY [Utf8 "b"]] 1);
                        MarkFinished]))
      by (vm_compute; eexists; reflexivity).
    destruct Hrun as [nd1 Hrun].
    exact (Hsent _ nd1 _
             (ExecBatch.mk [Datum_ARRAY [Int64 8]; Datum_ARRAY [Utf8 "b"]] 1)
             Ht Hrun (or_intror (or_intror (or_introl eq_refl)))).
Defined.

Lemma C6_thread_index_out_of_range_witness :
  (List.length
     (GroupByNode.local_states_ (GroupByNode.example_started 1)) <= 5)%nat
  /\ exists error,
       code error = IndexError
       /\ GroupByNode.Consume GroupByNode.example_externals 5
            GroupByNode.example_batch_1 (GroupByNode.example_started 1)
          = Some (error, GroupByNode.example_started 1)
       /\ GroupByNode.InputReceived GroupByNode.example_externals 5
            GroupByNode.example_batch_1 (GroupByNode.example_started 1)
          = Some (GroupByNode.example_started 1, [Output_ErrorReceived error]).
Proof.
  assert (H : (List.length
                 (GroupByNode.local_states_ (GroupByNode.example_started 1))
               <= 5)%nat) by (cbn; lia).
  split; [exact H|].
  destruct (C6_thread_index_out_of_range GroupByNode.example_externals
              (GroupByNode.example_started 1) 5 GroupByNode.example_batch_1)
    as (_ & _ & H6).
  destruct (H6 H) as (error & Hcode & HC & HIR & _).
  exists error. split; [exact Hcode|]. split; [exact HC|].
  exact (HIR eq_refl).
Defined.

(** C6, counterexample to the sentence of the design document: a node
    with two thread slots that was stopped receives a batch on thread 5;
    InputReceived returns before it calls Consume, and no [error_received]
    goes downstream. *)
Lemma C6_thread_index_out_of_range_counterexample :
  (List.length
     (GroupByNode.local_states_
        (fst (GroupByNode.StopProducing (GroupByNode.example_started 1))))
   <=? 5)%nat = true
  /\ GroupByNode.finished_
       (fst (GroupByNode.StopProducing (GroupByNode.example_started 1)))
     = true
  /\ GroupByNode.InputReceived GroupByNode.example_externals 5
       GroupByNode.example_batch_1
       (fst (GroupByNode.StopProducing (GroupByNode.example_started 1)))
     = Some (fst (GroupByNode.StopProducing (GroupByNode.example_started 1)),
             []).
Proof. repeat split; reflexivity. Qed.

Lemma C9_finished_node_ignores_input_witness :
  GroupByNode.InputReceived GroupByNode.example_externals 0
    GroupByNode.example_batch_1
    (fst (GroupByNode.StopProducing (GroupByNode.example_started 1)))
  = Some (fst (GroupByNode.StopProducing (GroupByNode.example_started 1)), [])
  /\ GroupByNode.InputFinished GroupByNode.example_externals 1
       (fst (GroupByNode.StopProducing (GroupByNode.example_started 1)))
     = Some (fst (GroupByNode.StopProducing (GroupByNode.example_started 1)),
             []).
Proof.
  destruct (C9_finished_node_ignores_input GroupByNode.example_externals
              (fst (GroupByNode.StopProducing (GroupByNode.example_started 1)))
              eq_refl) as (H1 & H2 & _).
  split; [apply H1|apply H2].
Defined.

(** Scenario S4 for the group-by node: the input ends before any batch. *)
Lemma C10_group_by_empty_input_witness :
  exists out_data nd' nd'',
    GroupByNode.Finalize GroupByNode.example_externals
      (GroupByNode.example_started 1)
    = Some (Ok out_data, nd', [MarkFinished])
    /\ ExecBatch.length out_data = 0
    /\ GroupByNode.OutputResult GroupByNode.example_externals
         (GroupByNode.example_started 1)
       = Some (Status_OK, nd'', [MarkFinished; Output_InputFinished 0])
    /\ GroupByNode.finished_ nd'' = true.
Proof.
  destruct (C10_group_by_empty_input GroupByNode.example_externals
              (GroupByNode.example_started 1) 1
              [GroupByNode.mkValueDescr GroupByNode.utf8 GroupByNode.ANY]
              [GroupByNode.mkValueDescr GroupByNode.int64 GroupByNode.ARRAY]
              (GroupByNode.mkRowGrouper 1 []) [[]]
              (ExecBatch.mk [Datum_ARRAY []] 0)
              (GroupByNode.mkRowGrouper 1 [])
              eq_refl eq_refl eq_refl eq_refl eq_refl eq_refl eq_refl
              ltac:(repeat constructor) eq_refl ltac:(cbn; lia))
    as (_ & _ & out_data & nd' & nd'' & HF & Hlen & _ & _ & _ & _ & HO & Hfin).
  exists out_data, nd', nd''. repeat split; assumption.
Defined.

(* ===================================================================== *)
(** * More on the thread pool: making pools, forks, what every pool keeps *)
(* ===================================================================== *)

Section ThreadPoolMore.
Import ThreadPool.

Lemma stoi_range s v : stoi s = Some v -> INT_MIN <= v <= INT_MAX.
Proof.
  unfold stoi. destruct (strtol10 s) as [z|]; [|discriminate].
  destruct ((INT_MIN <=? z) && (z <=? INT_MAX)) eqn:E; [|discriminate].
  intros H. inversion H; subst.
  apply andb_true_iff in E as [E1 E2].
  apply Z.leb_le in E1. apply Z.leb_le in E2. lia.
Qed.

Lemma ParseOMPEnvVar_range (env : Env) name :
  0 <= ParseOMPEnvVar env name <= INT_MAX.
Proof.
  unfold ParseOMPEnvVar.
  destruct (GetEnvVar env name); [|unfold INT_MAX; lia].
  destruct (stoi _) as [z|] eqn:E; [|unfold INT_MAX; lia].
  apply stoi_range in E. unfold INT_MIN, INT_MAX in *. lia.
Qed.

Lemma DefaultCapacity_range (env : Env) hc :
  0 <= hc <= INT_MAX -> 1 <= DefaultCapacity env hc <= INT_MAX.
Proof.
  intros H. unfold DefaultCapacity.
  pose proof (ParseOMPEnvVar_range env "OMP_NUM_THREADS") as Hn.
  pose proof (ParseOMPEnvVar_range env "OMP_THREAD_LIMIT") as Hl.
  rewrite to_int_small by (unfold INT_MIN, INT_MAX in *; lia).
  unfold INT_MAX in *.
  destruct (ParseOMPEnvVar env "OMP_NUM_THREADS" =? 0) eqn:E1;
    destruct (0 <? ParseOMPEnvVar env "OMP_THREAD_LIMIT") eqn:E2;
    match goal with |- context [if ?c =? 0 then _ else _] =>
      destruct (c =? 0) eqn:E3 end; lia.
Qed.

(** X1.  ParseOMPEnvVar never returns a negative number nor one that does
    not fit an [int]; and when the hardware concurrency fits an [int],
    DefaultCapacity is at least 1 and fits an [int], whatever the
    environment holds. *)
Theorem X1_DefaultCapacity_range (env : Env) (hardware_concurrency : Z) :
  0 <= hardware_concurrency <= INT_MAX ->
  (forall name, 0 <= ParseOMPEnvVar env name <= INT_MAX)
  /\ 1 <= DefaultCapacity env hardware_concurrency <= INT_MAX.
Proof.
  intros H. split; [intros name; apply ParseOMPEnvVar_range|].
  now apply DefaultCapacity_range.
Qed.

Lemma Make_spec pid threads :
  Make pid threads
  = if threads <=? 0
    then Some (Err (Status_Invalid "ThreadPool capacity must be > 0"),
               [cv_notify_all])
    else Some (Ok (mkPool (mkState [] [] [] threads 0 false false) pid true 0),
               []).
Proof.
  unfold Make, SetCapacity, new_ThreadPool.
  rewrite ProtectAgainstFork_same_pid by reflexivity.
  unfold SetCapacity_locked. cbn [state_ please_shutdown_ State_default].
  destruct (threads <=? 0) eqn:E.
  - cbn. unfold Shutdown, Shutdown_begin, ProtectAgainstFork.
    cbn [pid_]. rewrite Z.eqb_refl. reflexivity.
  - cbn. apply Z.leb_gt in E. unfold size. cbn [List.length].
    change (Z.of_nat 0) with 0.
    replace (0 <? Z.min 0 (threads - 0)) with false
      by (symmetry; apply Z.ltb_ge; lia).
    replace (Z.min 0 (threads - 0) <? 0) with false
      by (symmetry; apply Z.ltb_ge; lia).
    reflexivity.
Qed.


(** ** Operations called in the process of the pool *)

Lemma SpawnReal_local p task :
  please_shutdown_ (state_ p) = false ->
  let s := state_ p in
  let launch :=
    (size (workers_ s) <? tasks_queued_or_running_ s + 1)
    && (size (workers_ s) <? desired_capacity_ s) in
  SpawnReal p (pid_ p) task
  = (Status_OK,
     mkPool
       (mkState (workers_ s ++ (if launch then [threads_created p] else []))
          [] (pending_tasks_ s ++ [task]) (desired_capacity_ s)
          (tasks_queued_or_running_ s + 1) false (quick_shutdown_ s))
       (pid_ p) (shutdown_on_destroy_ p)
       (threads_created p + (if launch then 1 else 0))%nat,
     map thread_joined (finished_workers_ s)
     ++ (if launch then [thread_started (threads_created p)] else [])
     ++ [cv_notify_one]).
Proof.
  intros Hs. unfold SpawnReal.
  rewrite ProtectAgainstFork_same_pid by reflexivity. rewrite Hs.
  cbn [CollectFinishedWorkersUnlocked].
  cbn [state_ set_state pending_tasks_ workers_ set_finished_workers
       tasks_queued_or_running_ desired_capacity_ app].
  destruct (_ && _) eqn:E.
  - rewrite LaunchWorkersUnlocked_spec.
    destruct p as [[w f q d t ps qs] pid sd tc]. cbn in *. subst ps.
    reflexivity.
  - destruct p as [[w f q d t ps qs] pid sd tc]. cbn in *. subst ps.
    rewrite app_nil_r, Nat.add_0_r. reflexivity.
Qed.

Lemma SpawnReal_local_shutdown p task :
  please_shutdown_ (state_ p) = true ->
  SpawnReal p (pid_ p) task
  = (Status_Invalid "operation forbidden during or after shutdown", p, []).
Proof.
  intros Hs. unfold SpawnReal.
  rewrite ProtectAgainstFork_same_pid by reflexivity. now rewrite Hs.
Qed.

Lemma SetCapacity_local p threads :
  please_shutdown_ (state_ p) = false -> 1 <= threads ->
  let s := state_ p in
  let required :=
    Z.to_nat (Z.min (size (pending_tasks_ s)) (threads - size (workers_ s))) in
  SetCapacity p (pid_ p) threads
  = (Status_OK,
     mkPool
       (mkState (workers_ s ++ seq (threads_created p) required)
          [] (pending_tasks_ s) threads (tasks_queued_or_running_ s)
          false (quick_shutdown_ s))
       (pid_ p) (shutdown_on_destroy_ p) (threads_created p + required)%nat,
     map thread_joined (finished_workers_ s)
     ++ map thread_started (seq (threads_created p) required)
     ++ (if threads <? size (workers_ s) then [cv_notify_all] else [])).
Proof.
  intros Hs Hn. unfold SetCapacity.
  rewrite ProtectAgainstFork_same_pid by reflexivity.
  unfold SetCapacity_locked. rewrite Hs.
  destruct (threads <=? 0) eqn:E; [apply Z.leb_le in E; lia|]. clear E.
  cbn [CollectFinishedWorkersUnlocked].
  cbn [state_ set_state pending_tasks_ workers_ set_finished_workers app].
  destruct p as [[w f q d t ps qs] pid sd tc]. cbn in *. subst ps.
  set (required := Z.min _ _).
  assert (Hq : 0 <= size q) by (unfold size; lia).
  destruct (0 <? required) eqn:E1.
  - rewrite LaunchWorkersUnlocked_spec. cbn.
    apply Z.ltb_lt in E1.
    replace (threads <? size w) with false
      by (symmetry; apply Z.ltb_ge; lia).
    now rewrite app_nil_r.
  - apply Z.ltb_ge in E1.
    replace (Z.to_nat required) with 0%nat by lia. cbn.
    rewrite !app_nil_r, Nat.add_0_r.
    destruct (required <? 0) eqn:E2.
    + apply Z.ltb_lt in E2.
      replace (threads <? size w) with true
        by (symmetry; apply Z.ltb_lt; lia).
      reflexivity.
    + apply Z.ltb_ge in E2.
      replace (threads <? size w) with false; [now rewrite app_nil_r|].
      symmetry. apply Z.ltb_ge.
      destruct (Z.le_gt_cases (size w) threads); lia.
Qed.

Lemma SetCapacity_local_fails p threads :
  please_shutdown_ (state_ p) = true \/ threads <= 0 ->
  exists st,
    SetCapacity p (pid_ p) threads = (st, p, []) /\ code st = Invalid.
Proof.
  intros H. unfold SetCapacity.
  rewrite ProtectAgainstFork_same_pid by reflexivity.
  unfold SetCapacity_locked.
  destruct (please_shutdown_ (state_ p)); [eexists; split; reflexivity|].
  destruct H as [H|H]; [discriminate|].
  destruct (threads <=? 0) eqn:E; [eexists; split; reflexivity|].
  apply Z.leb_gt in E. lia.
Qed.

Lemma Shutdown_begin_local p wait :
  Shutdown_begin p (pid_ p) wait
  = if please_shutdown_ (state_ p)
    then (inl (Status_Invalid "Shutdown() already called"), p, [])
    else (inr tt, set_state p (set_shutdown (state_ p) true (negb wait)),
          [cv_notify_all]).
Proof.
  unfold Shutdown_begin.
  rewrite ProtectAgainstFork_same_pid by reflexivity. reflexivity.
Qed.


(** ** Workers are started one by one, as tasks arrive *)

Lemma SpawnReal_all_fresh (n : Z) pid sd : 1 <= n ->
  forall tasks acc,
  let N := Z.to_nat n in
  let j := List.length acc in
  let k := List.length tasks in
  SpawnReal_all
    (mkPool (mkState (seq 0 (Nat.min j N)) [] acc n (Z.of_nat j) false false)
       pid sd (Nat.min j N))
    pid tasks
  = (repeat Status_OK k,
     mkPool
       (mkState (seq 0 (Nat.min (j + k) N)) [] (acc ++ tasks) n
          (Z.of_nat (j + k)) false false)
       pid sd (Nat.min (j + k) N),
     flat_map
       (fun i => (if (i <? N)%nat then [thread_started i] else [])
                 ++ [cv_notify_one])
       (seq j k)).
Proof.
  intros Hn tasks.
  induction tasks as [|task rest IH]; intros acc N j k.
  - subst k. cbn. rewrite Nat.add_0_r, app_nil_r. reflexivity.
  - subst k. cbn [SpawnReal_all List.length].
    match goal with
    | |- context [SpawnReal ?p pid task] =>
        pose proof (SpawnReal_local p task eq_refl) as HS
    end.
    cbn [state_ pid_ workers_ finished_workers_ pending_tasks_
         desired_capacity_ tasks_queued_or_running_ quick_shutdown_
         shutdown_on_destroy_ threads_created map app] in HS.
    rewrite HS. clear HS.
    assert (Hlaunch :
              (size (seq 0 (Nat.min j N)) <? Z.of_nat j + 1)
              && (size (seq 0 (Nat.min j N)) <? n) = (j <? N)%nat).
    { unfold size. rewrite length_seq.
      replace (Z.of_nat (Nat.min j N) <? Z.of_nat j + 1) with true
        by (symmetry; apply Z.ltb_lt; lia).
      cbn [andb].
      destruct (j <? N)%nat eqn:E.
      - apply Nat.ltb_lt in E. apply Z.ltb_lt. subst N. lia.
      - apply Nat.ltb_ge in E. apply Z.ltb_ge. subst N. lia. }
    rewrite Hlaunch.
    specialize (IH (acc ++ [task])).
    cbn zeta in IH. rewrite length_app in IH. cbn [List.length] in IH.
    fold j in IH. fold N in IH.
    assert (Hw : seq 0 (Nat.min j N)
                 ++ (if (j <? N)%nat then [Nat.min j N] else [])
                 = seq 0 (Nat.min (j + 1) N)
                 /\ (Nat.min j N + (if (j <? N)%nat then 1 else 0))%nat
                    = Nat.min (j + 1) N).
    { destruct (j <? N)%nat eqn:E.
      - apply Nat.ltb_lt in E.
        replace (Nat.min j N) with j by lia.
        replace (Nat.min (j + 1) N) with (S j) by lia.
        split; [|lia]. now rewrite seq_S.
      - apply Nat.ltb_ge in E.
        replace (Nat.min j N) with N by lia.
        replace (Nat.min (j + 1) N) with N by lia.
        split; [now rewrite app_nil_r|lia]. }
    destruct Hw as [-> ->].
    replace (Z.of_nat j + 1) with (Z.of_nat (j + 1)) by lia.
    rewrite IH. cbn [seq flat_map repeat].
    replace (j + 1 + List.length rest)%nat with (j + S (List.length rest))%nat
      by lia.
    rewrite <- !app_assoc. cbn [app].
    replace (j + 1)%nat with (S j) by lia.
    destruct (j <? N)%nat eqn:E; [|reflexivity].
    apply Nat.ltb_lt in E. replace (Nat.min j N) with j by lia.
    reflexivity.
Qed.

(** X3.  Make fails with Invalid for a capacity that is not positive
    (the pool it had built is shut down by its destructor, without having
    started a thread), and otherwise returns a pool of that capacity that
    has started no thread.  Threads are started as tasks arrive: after
    [k] tasks were submitted to the new pool, before any worker ran, all
    [k] submissions have succeeded, the tasks are queued in the order of
    submission and counted, and exactly the [min(k, threads)] threads
    [0 .. min(k, threads) - 1] have been started. *)
Theorem X3_Make_starts_workers_lazily (pid threads : Z) (tasks : list Task) :
  Make pid threads
  = (if threads <=? 0
     then Some (Err (Status_Invalid "ThreadPool capacity must be > 0"),
                [cv_notify_all])
     else Some (Ok (mkPool (mkState [] [] [] threads 0 false false) pid true 0),
                []))
  /\ (1 <= threads ->
      let pool := mkPool (mkState [] [] [] threads 0 false false) pid true 0 in
      let r := SpawnReal_all pool pid tasks in
      let started := Nat.min (List.length tasks) (Z.to_nat threads) in
      GetActualCapacity pool pid = (0, pool, [])
      /\ fst (fst r) = repeat Status_OK (List.length tasks)
      /\ workers_ (state_ (pool_of r)) = seq 0 started
      /\ pending_tasks_ (state_ (pool_of r)) = tasks
      /\ tasks_queued_or_running_ (state_ (pool_of r)) = size tasks
      /\ desired_capacity_ (state_ (pool_of r)) = threads
      /\ (forall tid, In (thread_started tid) (effects_of r)
                      <-> (tid < started)%nat)).
Proof.
  split; [apply Make_spec|].
  intros Hn pool r started.
  split.
  { unfold GetActualCapacity.
    rewrite ProtectAgainstFork_same_pid by reflexivity. reflexivity. }
  pose proof (SpawnReal_all_fresh threads pid true Hn tasks []) as H.
  cbn zeta in H. cbn [List.length Nat.min seq app Nat.add] in H.
  change (Z.of_nat 0) with 0 in H.
  fold pool in H. fold r in H. rewrite H. cbn [fst snd pool_of effects_of state_
    workers_ pending_tasks_ tasks_queued_or_running_ desired_capacity_].
  fold started.
  repeat split; try reflexivity.
  - intros Hin. apply in_flat_map in Hin as (i & Hi & Hin).
    apply in_seq in Hi.
    apply in_app_or in Hin as [Hin|Hin].
    + destruct (i <? Z.to_nat threads)%nat eqn:E; [|destruct Hin].
      apply Nat.ltb_lt in E.
      destruct Hin as [Hin|[]]. inversion Hin; subst. subst started. lia.
    + destruct Hin as [Hin|[]]. discriminate.
  - intros Hlt. apply in_flat_map. exists tid. split.
    + apply in_seq. subst started. lia.
    + apply in_or_app. left.
      replace (tid <? Z.to_nat threads)%nat with true; [now left|].
      symmetry. apply Nat.ltb_lt. subst started. lia.
Qed.


(** X2.  MakeCpuThreadPool never aborts (when the hardware concurrency
    fits an [int]): MakeEternal succeeds on the default capacity, and the
    pool it returns has that desired capacity, no worker thread and no
    task; it is not shut down by its destructor exactly on Windows. *)
Theorem X2_MakeCpuThreadPool_never_aborts (win32 : bool) (env : Env)
    (hardware_concurrency pid : Z) :
  0 <= hardware_concurrency <= INT_MAX ->
  let capacity := DefaultCapacity env hardware_concurrency in
  MakeCpuThreadPool win32 env hardware_concurrency pid
  = Some (Made (mkPool (mkState [] [] [] capacity 0 false false) pid
                  (negb win32) 0))
  /\ 1 <= capacity <= INT_MAX.
Proof.
  intros H capacity.
  pose proof (DefaultCapacity_range env hardware_concurrency H) as Hc.
  fold capacity in Hc. split; [|exact Hc].
  unfold MakeCpuThreadPool, MakeEternal. fold capacity.
  rewrite Make_spec.
  destruct (capacity <=? 0) eqn:E; [apply Z.leb_le in E; lia|].
  cbn. now destruct win32.
Qed.

(** ** The pool in the child of a fork *)

(** X4.  The first operation called in the child of a fork, on a pool
    whose desired capacity is not negative, reinitialises the pool: no worker, no finished worker to join, no
    pending task (those of the parent are dropped) and a count of zero; the
    shutdown flags are those of the parent, and so is the desired capacity
    unless the parent was shutting down, in which case it is 0.  No thread
    is started by this, and the next call in the same process finds nothing
    to do.  GetCapacity, GetNumTasks and GetActualCapacity answer from the
    new state. *)
Theorem X4_fork_reinitialises_the_pool (p : Pool) (pid : Z) :
  pid_ p <> pid ->
  0 <= desired_capacity_ (state_ p) ->
  let s := state_ p in
  let child :=
    mkPool
      (mkState [] [] []
         (if please_shutdown_ s then 0 else desired_capacity_ s) 0
         (please_shutdown_ s) (quick_shutdown_ s))
      pid (shutdown_on_destroy_ p) (threads_created p) in
  ProtectAgainstFork p pid = (child, [])
  /\ ProtectAgainstFork child pid = (child, [])
  /\ GetCapacity p pid = (desired_capacity_ (state_ child), child, [])
  /\ GetNumTasks p pid = (0, child, [])
  /\ GetActualCapacity p pid = (0, child, []).
Proof.
  intros Hpid Hd s child.
  assert (H : ProtectAgainstFork p pid = (child, [])).
  { unfold ProtectAgainstFork.
    destruct (pid_ p =? pid) eqn:E; [apply Z.eqb_eq in E; contradiction|].
    cbn [please_shutdown_ negb]. subst child s.
    destruct (please_shutdown_ (state_ p)) eqn:Es; cbn [negb]; [reflexivity|].
    unfold SetCapacity_locked. cbn [state_ please_shutdown_].
    destruct (desired_capacity_ (state_ p) <=? 0) eqn:E0.
    - apply Z.leb_le in E0.
      replace (desired_capacity_ (state_ p)) with 0 by lia. reflexivity.
    - apply Z.leb_gt in E0. cbn. unfold size. cbn [List.length].
      change (Z.of_nat 0) with 0.
      replace (0 <? Z.min 0 (desired_capacity_ (state_ p) - 0)) with false
        by (symmetry; apply Z.ltb_ge; lia).
      replace (Z.min 0 (desired_capacity_ (state_ p) - 0) <? 0) with false
        by (symmetry; apply Z.ltb_ge; lia).
      reflexivity. }
  split; [exact H|].
  split; [now apply ProtectAgainstFork_same_pid|].
  unfold GetCapacity, GetNumTasks, GetActualCapacity. rewrite H.
  repeat split.
Qed.


(** ** What every pool keeps *)

Lemma remove_NoDup (x : nat) l :
  List.NoDup l -> List.NoDup (remove Nat.eq_dec x l).
Proof.
  induction 1 as [|a l Ha Hl IH]; cbn; [constructor|].
  destruct (Nat.eq_dec x a); [exact IH|].
  constructor; [|exact IH].
  intros Hin. apply in_remove in Hin as [Hin _]. contradiction.
Qed.

Lemma remove_absent (x : nat) l : ~ In x l -> remove Nat.eq_dec x l = l.
Proof.
  induction l as [|a l IH]; cbn; [reflexivity|]. intros Hn.
  destruct (Nat.eq_dec x a) as [->|Hne]; [exfalso; apply Hn; now left|].
  rewrite IH; [reflexivity|]. intros Hin. apply Hn. now right.
Qed.

Lemma remove_NoDup_length (x : nat) l :
  List.NoDup l -> In x l ->
  S (List.length (remove Nat.eq_dec x l)) = List.length l.
Proof.
  induction 1 as [|a l Ha Hl IH]; cbn; [intros []|].
  intros Hin. destruct (Nat.eq_dec x a) as [->|Hne].
  - now rewrite remove_absent.
  - destruct Hin as [->|Hin]; [contradiction|]. cbn. now rewrite IH.
Qed.

Lemma consistent_Make pid threads p es :
  Make pid threads = Some (Ok p, es) -> consistent (p, []).
Proof.
  rewrite Make_spec. destruct (threads <=? 0) eqn:E; [discriminate|].
  apply Z.leb_gt in E. intros H. inversion H; subst.
  unfold consistent. cbn. unfold size. cbn.
  repeat split; try constructor; try lia; try easy.
Qed.

Lemma worker_step_consistent x es y :
  worker_step x es y -> consistent x -> consistent y.
Proof.
  intros Hstep (Hnd & Hlt & Hbnd & Hincl & Hd & Hq & Hle & Heq & Hne).
  inversion Hstep as
      [p busy tid t rest Hin Hnb Hp Hquick Hsec
      | p busy tid Hin
      | p busy tid Hin Hnb Hwhy]; subst; cbn [fst snd] in *;
    unfold consistent; cbn [fst snd state_ set_state workers_ pending_tasks_
      set_pending_tasks desired_capacity_ tasks_queued_or_running_
      quick_shutdown_ please_shutdown_ set_tasks_queued_or_running
      set_workers set_finished_workers threads_created finished_workers_].
  - (* a worker takes a task *)
    rewrite Hp in *. unfold size in *. cbn [List.length] in *.
    split; [exact Hnd|]. split; [exact Hlt|].
    split; [now constructor|].
    split; [intros b [<-|Hb]; [exact Hin|now apply Hincl]|].
    split; [exact Hd|]. split; [exact Hq|].
    split; [lia|]. split; [intros Hx; specialize (Heq Hx); lia|].
    intros _. right. intros Hw. rewrite Hw in Hin. destruct Hin.
  - (* a worker has run its task *)
    pose proof (remove_NoDup_length tid busy Hbnd Hin) as Hlen.
    unfold size in *.
    split; [exact Hnd|]. split; [exact Hlt|].
    split; [now apply remove_NoDup|].
    split; [intros b Hb; apply in_remove in Hb as [Hb _]; now apply Hincl|].
    split; [exact Hd|]. split; [exact Hq|].
    split; [lia|]. split; [intros Hx; specialize (Heq Hx); lia|].
    exact Hne.
  - (* a worker leaves the pool *)
    pose proof (remove_NoDup_length tid _ Hnd Hin) as Hlen.
    split; [now apply remove_NoDup|].
    split.
    { apply List.Forall_forall. intros b Hb. apply in_remove in Hb as [Hb _].
      rewrite List.Forall_forall in Hlt. now apply Hlt. }
    split; [exact Hbnd|].
    split.
    { intros b Hb. apply in_in_remove; [|now apply Hincl].
      intros ->. contradiction. }
    split; [exact Hd|]. split; [exact Hq|].
    split; [exact Hle|]. split; [exact Heq|].
    intros Hp. destruct Hwhy as [Hsec|[Hs [Hnil|Hquick]]].
    + right. unfold should_secede, size in Hsec.
      apply Z.gtb_lt in Hsec.
      intros Hw. rewrite Hw in Hlen. cbn in Hlen. lia.
    + contradiction.
    + now left.
Qed.

Lemma process_step_consistent x es y :
  process_step x es y -> consistent x -> consistent y.
Proof.
  intros Hstep Hc.
  destruct Hstep as
      [p busy n st p' es H | p busy t st p' es H
      | p busy w r p' es H | p busy st p' es Hs Hr H
      | p busy es p' busy' H].
  - (* SetCapacity *)
    destruct (please_shutdown_ (state_ p)) eqn:Es.
    { destruct (SetCapacity_local_fails p n (or_introl Es)) as (st' & E & _).
      rewrite E in H. inversion H; subst. exact Hc. }
    destruct (Z.le_gt_cases n 0) as [Hn|Hn].
    { destruct (SetCapacity_local_fails p n (or_intror Hn)) as (st' & E & _).
      rewrite E in H. inversion H; subst. exact Hc. }
    rewrite (SetCapacity_local p n Es) in H by lia.
    inversion H; subst. clear H.
    destruct Hc as (Hnd & Hlt & Hbnd & Hincl & Hd & Hq & Hle & Heq & Hne).
    cbn [fst snd] in *.
    unfold consistent; cbn [fst snd state_ workers_ pending_tasks_
      desired_capacity_ tasks_queued_or_running_ quick_shutdown_
      please_shutdown_ threads_created].
    set (required := Z.to_nat _).
    rewrite List.Forall_forall in Hlt.
    split.
    { apply List.NoDup_app; [exact Hnd|apply List.seq_NoDup|].
      intros b Hb Hb'. apply in_seq in Hb'. apply Hlt in Hb. lia. }
    split.
    { apply List.Forall_forall. intros b Hb. apply in_app_or in Hb as [Hb|Hb].
      - apply Hlt in Hb. lia.
      - apply in_seq in Hb. lia. }
    split; [exact Hbnd|].
    split; [intros b Hb; apply in_or_app; left; now apply Hincl|].
    split; [lia|]. split; [intros _; now apply Hq|].
    split; [exact Hle|]. split; [exact Heq|].
    intros Hp. destruct (Hne Hp) as [Hx|Hx]; [now left|right].
    intros Hw. apply app_eq_nil in Hw as [Hw _]. contradiction.
  - (* SpawnReal *)
    destruct (please_shutdown_ (state_ p)) eqn:Es.
    { rewrite (SpawnReal_local_shutdown p t Es) in H.
      inversion H; subst. exact Hc. }
    rewrite (SpawnReal_local p t Es) in H. inversion H; subst. clear H.
    destruct Hc as (Hnd & Hlt & Hbnd & Hincl & Hd & Hq & Hle & Heq & Hne).
    cbn [fst snd] in *.
    unfold consistent; cbn [fst snd state_ workers_ pending_tasks_
      desired_capacity_ tasks_queued_or_running_ quick_shutdown_
      please_shutdown_ threads_created].
    set (launch := _ && _).
    rewrite List.Forall_forall in Hlt.
    assert (Hsz : size (pending_tasks_ (state_ p) ++ [t])
                  = size (pending_tasks_ (state_ p)) + 1).
    { unfold size. rewrite length_app. cbn. lia. }
    split.
    { destruct launch; [|now rewrite app_nil_r].
      apply List.NoDup_app; [exact Hnd|constructor; [intros []|constructor]|].
      intros b Hb [<-|[]]. apply Hlt in Hb. lia. }
    split.
    { apply List.Forall_forall. intros b Hb. apply in_app_or in Hb as [Hb|Hb].
      - apply Hlt in Hb. lia.
      - destruct launch; [|destruct Hb]. destruct Hb as [<-|[]]. lia. }
    split; [exact Hbnd|].
    split; [intros b Hb; apply in_or_app; left; now apply Hincl|].
    split; [exact Hd|]. split; [intros _; now apply Hq|].
    split; [lia|]. split; [intros Hx; specialize (Heq Hx); lia|].
    intros _. right. intros Hw. apply app_eq_nil in Hw as [Hw Hl].
    subst launch. rewrite Hw in Hl. unfold size in Hl. cbn [List.length] in Hl.
    change (Z.of_nat 0) with 0 in Hl.
    assert (0 <= size (pending_tasks_ (state_ p))) by (unfold size; lia).
    assert (0 <= size busy) by (unfold size; lia).
    replace (0 <? tasks_queued_or_running_ (state_ p) + 1) with true in Hl
      by (symmetry; apply Z.ltb_lt; lia).
    replace (0 <? desired_capacity_ (state_ p)) with true in Hl
      by (symmetry; apply Z.ltb_lt; lia).
    discriminate.
  - (* Shutdown, up to its wait *)
    rewrite Shutdown_begin_local in H.
    destruct (please_shutdown_ (state_ p)) eqn:Es;
      inversion H; subst; [exact Hc|]. clear H.
    destruct Hc as (Hnd & Hlt & Hbnd & Hincl & Hd & Hq & Hle & Heq & Hne).
    cbn [fst snd] in *. specialize (Hq Es).
    unfold consistent; cbn [fst snd state_ set_state set_shutdown workers_
      pending_tasks_ desired_capacity_ tasks_queued_or_running_
      quick_shutdown_ please_shutdown_ threads_created].
    repeat split; try assumption; try discriminate.
    + intros _. now apply Heq.
    + intros Hp. destruct (Hne Hp) as [Hx|Hx]; [congruence|now right].
  - (* Shutdown, after its wait *)
    unfold Shutdown_may_resume in Hr.
    destruct (workers_ (state_ p)) as [|w ws] eqn:Ew; [|discriminate].
    destruct Hc as (Hnd & Hlt & Hbnd & Hincl & Hd & Hq & Hle & Heq & Hne).
    cbn [fst snd] in *. rewrite Ew in *.
    assert (Hb : busy = []).
    { destruct busy as [|b bs]; [reflexivity|].
      destruct (Hincl b); now left. }
    subst busy.
    unfold Shutdown_end in H.
    destruct (quick_shutdown_ (state_ p)) eqn:Eq; cbn [negb] in H;
      inversion H; subst; clear H;
      unfold consistent; cbn [fst snd state_ set_state workers_
        set_pending_tasks set_finished_workers pending_tasks_
        desired_capacity_ tasks_queued_or_running_ quick_shutdown_
        please_shutdown_ threads_created];
      rewrite ?Ew, ?Eq.
    + unfold size in *. cbn [List.length] in *.
      do 6 (split; [assumption|]).
      split; [lia|]. split; [discriminate|].
      intros Hx. now contradiction Hx.
    + do 8 (split; [assumption|]).
      intros Hp. destruct (Hne Hp) as [Hx|Hx];
        [discriminate|now contradiction Hx].
  - now apply (worker_step_consistent _ _ _ H).
Qed.

Lemma process_steps_consistent x es y :
  process_steps x es y -> consistent x -> consistent y.
Proof.
  induction 1 as [x|x es y es' z Hxy Hyz IH]; intros Hc; [exact Hc|].
  apply IH. exact (process_step_consistent _ _ _ Hxy Hc).
Qed.


(** X5.  No step of a pool or of its workers brings the number of workers
    above both what it was and the desired capacity; and a step that starts
    a thread leaves the number of workers within the desired capacity. *)
Theorem X5_workers_within_capacity x es y :
  process_step x es y ->
  let workers z := size (workers_ (state_ (fst z))) in
  let capacity := desired_capacity_ (state_ (fst y)) in
  workers y <= Z.max (workers x) capacity
  /\ (forall tid, In (thread_started tid) es -> workers y <= capacity).
Proof.
  intros Hstep workers capacity. subst workers capacity.
  destruct Hstep as
      [p busy n st p' es H | p busy t st p' es H
      | p busy w r p' es H | p busy st p' es Hs Hr H
      | p busy es p' busy' H]; cbn [fst snd].
  - (* SetCapacity *)
    destruct (please_shutdown_ (state_ p)) eqn:Es.
    { destruct (SetCapacity_local_fails p n (or_introl Es)) as (st' & E & _).
      rewrite E in H. inversion H; subst. split; [lia|intros tid []]. }
    destruct (Z.le_gt_cases n 0) as [Hn|Hn].
    { destruct (SetCapacity_local_fails p n (or_intror Hn)) as (st' & E & _).
      rewrite E in H. inversion H; subst. split; [lia|intros tid []]. }
    rewrite (SetCapacity_local p n Es) in H by lia.
    inversion H; subst. clear H. cbn [state_ workers_ desired_capacity_].
    set (required := Z.to_nat _).
    assert (Hq : 0 <= size (pending_tasks_ (state_ p))) by (unfold size; lia).
    unfold size in *. rewrite length_app, length_seq.
    split; [lia|].
    intros tid Hin.
    apply in_app_or in Hin as [Hin|Hin].
    { apply in_map_iff in Hin as (? & ? & _). discriminate. }
    apply in_app_or in Hin as [Hin|Hin].
    + apply in_map_iff in Hin as (i & _ & Hi). apply in_seq in Hi. lia.
    + destruct (n <? _); [destruct Hin as [?|[]]|destruct Hin]; discriminate.
  - (* SpawnReal *)
    destruct (please_shutdown_ (state_ p)) eqn:Es.
    { rewrite (SpawnReal_local_shutdown p t Es) in H.
      inversion H; subst. split; [lia|intros tid []]. }
    rewrite (SpawnReal_local p t Es) in H. inversion H; subst. clear H.
    cbn [state_ workers_ desired_capacity_].
    destruct (_ && _) eqn:El.
    + apply andb_true_iff in El as [_ El]. apply Z.ltb_lt in El.
      unfold size in *. rewrite length_app. cbn [List.length].
      split; [lia|]. intros _ _. lia.
    + rewrite app_nil_r. split; [lia|].
      intros tid Hin.
      apply in_app_or in Hin as [Hin|Hin].
      { apply in_map_iff in Hin as (? & ? & _). discriminate. }
      destruct Hin as [?|[]]. discriminate.
  - (* Shutdown, up to its wait *)
    rewrite Shutdown_begin_local in H.
    destruct (please_shutdown_ (state_ p)); inversion H; subst; cbn.
    + split; [lia|intros tid []].
    + split; [lia|]. intros tid [?|[]]. discriminate.
  - (* Shutdown, after its wait *)
    unfold Shutdown_end in H.
    destruct (negb _); inversion H; subst; cbn;
      (split; [lia|]); intros tid Hin;
      apply in_map_iff in Hin as (? & ? & _); discriminate.
  - (* a worker *)
    inversion H as
        [p0 busy0 tid t rest Hin Hnb Hp Hquick Hsec
        | p0 busy0 tid Hin
        | p0 busy0 tid Hin Hnb Hwhy]; subst; cbn.
    + split; [lia|]. unfold run_task. intros tid' Hin'.
      destruct (negb (stop_requested t)); [destruct Hin' as [?|[]]; discriminate|].
      destruct (stop_callback t); [destruct Hin' as [?|[]]; discriminate|].
      destruct Hin'.
    + split; [lia|]. intros tid' Hin'.
      destruct (_ =? 0); [destruct Hin' as [?|[]]; discriminate|destruct Hin'].
    + pose proof (remove_length_le Nat.eq_dec (workers_ (state_ p)) tid).
      unfold size. split; [lia|]. intros tid' Hin'.
      destruct (please_shutdown_ (state_ p));
        [destruct Hin' as [?|[]]; discriminate|destruct Hin'].
Qed.

(** X6.  In a pool that Make returned, used in its own process,
    [tasks_queued_or_running_] is never negative (the DCHECK_GE of
    WorkerLoop holds); it is at least the number of queued tasks plus the
    number of tasks being run, and exactly this number as long as no quick
    shutdown was requested.  So WaitForIdle resumes only when no task is
    queued and none is being run. *)
Theorem X6_tasks_queued_or_running_counts pid threads p0 es0 es x :
  Make pid threads = Some (Ok p0, es0) ->
  process_steps (p0, []) es x ->
  let s := state_ (fst x) in
  let running := snd x in
  0 <= tasks_queued_or_running_ s
  /\ size (pending_tasks_ s) + size running <= tasks_queued_or_running_ s
  /\ (quick_shutdown_ s = false ->
      tasks_queued_or_running_ s = size (pending_tasks_ s) + size running)
  /\ (WaitForIdle_may_resume (fst x) = true ->
      pending_tasks_ s = [] /\ running = []).
Proof.
  intros HM Hsteps s running.
  pose proof (process_steps_consistent _ _ _ Hsteps (consistent_Make _ _ _ _ HM))
    as (_ & _ & _ & _ & _ & _ & Hle & Heq & _).
  fold s running in Hle, Heq.
  assert (H1 : 0 <= size (pending_tasks_ s)) by (unfold size; lia).
  assert (H2 : 0 <= size running) by (unfold size; lia).
  split; [lia|]. split; [exact Hle|]. split; [exact Heq|].
  unfold WaitForIdle_may_resume. fold s. intros H0. apply Z.eqb_eq in H0.
  unfold size in *.
  split.
  - destruct (pending_tasks_ s); [reflexivity|cbn in *; lia].
  - destruct running; [reflexivity|cbn in *; lia].
Qed.

(** X7.  In a pool that Make returned, used in its own process: when
    Shutdown resumes from its wait for the workers, no task is being run;
    if the shutdown was not a quick one, no task is queued either (the
    DCHECK_EQ of Shutdown holds) and [tasks_queued_or_running_] is 0.
    Shutdown then joins the finished workers and returns OK, leaving a pool
    with no worker, no finished worker and no pending task. *)
Theorem X7_Shutdown_returns_with_no_task_left pid threads p0 es0 es x :
  Make pid threads = Some (Ok p0, es0) ->
  process_steps (p0, []) es x ->
  please_shutdown_ (state_ (fst x)) = true ->
  Shutdown_may_resume (fst x) = true ->
  let s := state_ (fst x) in
  let r := Shutdown_end (fst x) in
  snd x = []
  /\ (quick_shutdown_ s = false ->
      pending_tasks_ s = [] /\ tasks_queued_or_running_ s = 0)
  /\ status_of r = Status_OK
  /\ effects_of r = map thread_joined (finished_workers_ s)
  /\ state_ (pool_of r)
     = mkState [] [] [] (desired_capacity_ s) (tasks_queued_or_running_ s)
         true (quick_shutdown_ s).
Proof.
  intros HM Hsteps Hs Hr s r.
  pose proof (process_steps_consistent _ _ _ Hsteps (consistent_Make _ _ _ _ HM))
    as (_ & _ & _ & Hincl & _ & _ & Hle & Heq & Hne).
  fold s in Hincl, Hle, Heq, Hne.
  unfold Shutdown_may_resume in Hr. fold s in Hr, Hs.
  destruct (workers_ s) as [|w ws] eqn:Ew; [|discriminate].
  assert (Hb : snd x = []).
  { destruct (snd x) as [|b bs]; [reflexivity|]. destruct (Hincl b). now left. }
  rewrite Hb in *.
  assert (Hp : quick_shutdown_ s = false -> pending_tasks_ s = []).
  { intros Hq. destruct (pending_tasks_ s) as [|t q] eqn:Ep; [reflexivity|].
    destruct Hne as [Hx|Hx]; [discriminate|congruence|now contradiction Hx]. }
  split; [reflexivity|]. split.
  { intros Hq. split; [now apply Hp|].
    rewrite (Heq Hq), (Hp Hq). reflexivity. }
  subst r. unfold Shutdown_end, CollectFinishedWorkersUnlocked.
  subst s. destruct x as [[[w f q d t ps qs] pid' sd tc] busy].
  cbn in *. subst.
  destruct qs; cbn; [repeat split|].
  rewrite (Hp eq_refl). repeat split.
Qed.

Lemma thread_joined_no_activity (l : list nat) :
  forallb (fun e => negb (is_activity e)) (map thread_joined l) = true.
Proof. induction l as [|a l IH]; cbn; [reflexivity|exact IH]. Qed.

(** X8.  Once shutdown has been requested and the last worker has left,
    nothing runs in the pool any more: whatever is called in the process of
    the pool, no thread is started, no task and no stop callback is called,
    and the pool stays shut down and without workers.  The count
    [tasks_queued_or_running_] stays what it was: tasks that a quick
    shutdown dropped remain counted. *)
Theorem X8_nothing_runs_after_Shutdown x es y :
  please_shutdown_ (state_ (fst x)) = true ->
  workers_ (state_ (fst x)) = [] ->
  snd x = [] ->
  process_steps x es y ->
  forallb (fun e => negb (is_activity e)) es = true
  /\ please_shutdown_ (state_ (fst y)) = true
  /\ workers_ (state_ (fst y)) = []
  /\ snd y = []
  /\ tasks_queued_or_running_ (state_ (fst y))
     = tasks_queued_or_running_ (state_ (fst x)).
Proof.
  intros Hs Hw Hb Hsteps. revert Hs Hw Hb.
  induction Hsteps as [x|x es y es' z Hxy Hyz IH]; intros Hs Hw Hb.
  - repeat split; assumption.
  - assert (Hstep : forallb (fun e => negb (is_activity e)) es = true
                    /\ please_shutdown_ (state_ (fst y)) = true
                    /\ workers_ (state_ (fst y)) = []
                    /\ snd y = []
                    /\ tasks_queued_or_running_ (state_ (fst y))
                       = tasks_queued_or_running_ (state_ (fst x))).
    { destruct Hxy as
          [p busy n st p' es H | p busy t st p' es H
          | p busy w r p' es H | p busy st p' es Hs' Hr H
          | p busy es p' busy' H]; cbn [fst snd] in *.
      - destruct (SetCapacity_local_fails p n (or_introl Hs)) as (st' & E & _).
        rewrite E in H. inversion H; subst. repeat split; assumption.
      - rewrite (SpawnReal_local_shutdown p t Hs) in H.
        inversion H; subst. repeat split; assumption.
      - rewrite Shutdown_begin_local, Hs in H.
        inversion H; subst. repeat split; assumption.
      - unfold Shutdown_end in H.
        destruct (negb _); inversion H; subst; cbn;
          (split; [apply thread_joined_no_activity|repeat split; assumption]).
      - exfalso. inversion H; subst; cbn [fst snd] in *.
        + rewrite Hw in *. contradiction.
        + contradiction.
        + rewrite Hw in *. contradiction. }
    destruct Hstep as (H1 & H2 & H3 & H4 & H5).
    destruct (IH H2 H3 H4) as (I1 & I2 & I3 & I4 & I5).
    rewrite forallb_app, H1, I1.
    repeat split; try assumption. congruence.
Qed.


Lemma X1_DefaultCapacity_range_witness :
  1 <= DefaultCapacity (<["OMP_NUM_THREADS" := "-3"]> ∅) 8 <= INT_MAX.
Proof.
  refine (proj2 (X1_DefaultCapacity_range
                   (<["OMP_NUM_THREADS" := "-3"]> ∅) 8 _)).
  unfold INT_MAX. lia.
Defined.

Lemma X2_MakeCpuThreadPool_never_aborts_witness :
  MakeCpuThreadPool false (<["OMP_THREAD_LIMIT" := "2"]> ∅) 8 100
  = Some (Made (mkPool (mkState [] [] [] 2 0 false false) 100 true 0)).
Proof.
  refine (proj1 (X2_MakeCpuThreadPool_never_aborts false
                   (<["OMP_THREAD_LIMIT" := "2"]> ∅) 8 100 _)).
  unfold INT_MAX. lia.
Defined.

Lemma X3_Make_starts_workers_lazily_witness :
  let tasks := [mkTask 10 false None; mkTask 11 false None;
                mkTask 12 false None] in
  let r :=
    SpawnReal_all (mkPool (mkState [] [] [] 2 0 false false) 100 true 0)
      100 tasks in
  workers_ (state_ (pool_of r)) = [0; 1]%nat
  /\ pending_tasks_ (state_ (pool_of r)) = tasks.
Proof.
  intros tasks r.
  destruct (X3_Make_starts_workers_lazily 100 2 tasks) as [_ H].
  destruct (H ltac:(lia)) as (_ & _ & Hw & Hp & _).
  split; [exact Hw|exact Hp].
Defined.

Lemma X4_fork_reinitialises_the_pool_witness :
  ProtectAgainstFork example_pool 200
  = (mkPool (mkState [] [] [] 1 0 false false) 200 true 1, [])
  /\ GetNumTasks example_pool 200
     = (0, mkPool (mkState [] [] [] 1 0 false false) 200 true 1, []).
Proof.
  destruct (X4_fork_reinitialises_the_pool example_pool 200)
    as (H1 & _ & _ & H2 & _).
  - cbn. lia.
  - cbn. lia.
  - split; [exact H1|exact H2].
Defined.

Lemma X5_workers_within_capacity_witness :
  let y := pool_of (SetCapacity example_pool 100 3) in
  size (workers_ (state_ y)) <= desired_capacity_ (state_ y).
Proof.
  intros y.
  refine (proj2 (X5_workers_within_capacity (example_pool, [])
                   [thread_started 1; thread_started 2] (y, [])
                   (process_SetCapacity example_pool [] 3 Status_OK y _ _))
            1%nat _).
  - reflexivity.
  - left. reflexivity.
Defined.


(** A pool of capacity 2 is made, a task is submitted, and the worker that
    this starts takes the task. *)
Lemma X6_tasks_queued_or_running_counts_witness :
  let task := mkTask 7 false None in
  let p2 := mkPool (mkState [0%nat] [] [] 2 1 false false) 100 true 1 in
  process_steps (mkPool (mkState [] [] [] 2 0 false false) 100 true 0, [])
    [thread_started 0; cv_notify_one; task_called 7] (p2, [0%nat])
  /\ tasks_queued_or_running_ (state_ p2)
     = size (pending_tasks_ (state_ p2)) + size [0%nat]
  /\ WaitForIdle_may_resume p2 = false.
Proof.
  intros task p2.
  set (p0 := mkPool (mkState [] [] [] 2 0 false false) 100 true 0).
  set (p1 := mkPool (mkState [0%nat] [] [task] 2 1 false false) 100 true 1).
  assert (Hsteps : process_steps (p0, [])
                     ([thread_started 0; cv_notify_one] ++ [task_called 7] ++ [])
                     (p2, [0%nat])).
  { apply (process_steps_cons _ _ (p1, [])).
    - apply (process_SpawnReal p0 [] task Status_OK p1). reflexivity.
    - apply (process_steps_cons _ _ (p2, [0%nat])); [|apply process_steps_refl].
      apply process_worker.
      apply (worker_takes_task p1 [] 0%nat task []).
      + left. reflexivity.
      + intros [].
      + reflexivity.
      + reflexivity.
      + reflexivity. }
  split; [exact Hsteps|].
  destruct (X6_tasks_queued_or_running_counts 100 2 p0 [] _ _ eq_refl Hsteps)
    as (_ & _ & H & _).
  split; [exact (H eq_refl)|reflexivity].
Defined.

(** A pool of capacity 1 runs one task, is asked to shut down and waits
    for its worker to leave. *)
Lemma X7_Shutdown_returns_with_no_task_left_witness :
  let task := mkTask 7 false None in
  let p5 := mkPool (mkState [] [0%nat] [] 1 0 true false) 100 true 1 in
  process_steps (mkPool (mkState [] [] [] 1 0 false false) 100 true 0, [])
    [thread_started 0; cv_notify_one; task_called 7; cv_idle_notify_all;
     cv_notify_all; cv_shutdown_notify_one]
    (p5, [])
  /\ Shutdown_end p5
     = (Status_OK, mkPool (mkState [] [] [] 1 0 true false) 100 true 1,
        [thread_joined 0]).
Proof.
  intros task p5.
  set (p0 := mkPool (mkState [] [] [] 1 0 false false) 100 true 0).
  set (p1 := mkPool (mkState [0%nat] [] [task] 1 1 false false) 100 true 1).
  set (p2 := mkPool (mkState [0%nat] [] [] 1 1 false false) 100 true 1).
  set (p3 := mkPool (mkState [0%nat] [] [] 1 0 false false) 100 true 1).
  set (p4 := mkPool (mkState [0%nat] [] [] 1 0 true false) 100 true 1).
  assert (Hsteps : process_steps (p0, [])
                     ([thread_started 0; cv_notify_one]
                      ++ [task_called 7] ++ [cv_idle_notify_all]
                      ++ [cv_notify_all] ++ [cv_shutdown_notify_one] ++ [])
                     (p5, [])).
  { apply (process_steps_cons _ _ (p1, [])).
    { apply (process_SpawnReal p0 [] task Status_OK p1). reflexivity. }
    apply (process_steps_cons _ _ (p2, [0%nat])).
    { apply process_worker.
      apply (worker_takes_task p1 [] 0%nat task []);
        [left; reflexivity|intros []|reflexivity|reflexivity|reflexivity]. }
    apply (process_steps_cons _ _ (p3, [])).
    { apply process_worker.
      apply (worker_task_done p2 [0%nat] 0%nat). left. reflexivity. }
    apply (process_steps_cons _ _ (p4, [])).
    { apply (process_Shutdown_begin p3 [] true (inr tt) p4). reflexivity. }
    apply (process_steps_cons _ _ (p5, [])); [|apply process_steps_refl].
    apply process_worker.
    apply (worker_exits p4 [] 0%nat);
      [left; reflexivity|intros []|].
    right. split; [reflexivity|left; reflexivity]. }
  split; [exact Hsteps|].
  destruct (X7_Shutdown_returns_with_no_task_left 100 1 p0 [] _ _
              eq_refl Hsteps eq_refl eq_refl)
    as (_ & _ & H1 & H2 & H3).
  destruct (Shutdown_end p5) as [[st p6] es6] eqn:E.
  cbn [status_of pool_of effects_of fst snd] in H1, H2, H3.
  destruct p6 as [s6 pid6 sd6 tc6]. cbn [state_] in H3.
  inversion E; subst. reflexivity.
Defined.

(** On a pool that Shutdown has left, a task is refused and nothing
    runs. *)
Lemma X8_nothing_runs_after_Shutdown_witness :
  let p := mkPool (mkState [] [] [] 1 0 true false) 100 true 1 in
  process_steps (p, []) [] (p, [])
  /\ workers_ (state_ p) = []
  /\ forallb (fun e => negb (is_activity e)) [] = true.
Proof.
  intros p.
  assert (Hsteps : process_steps (p, []) ([] ++ []) (p, [])).
  { apply (process_steps_cons _ _ (p, [])); [|apply process_steps_refl].
    apply (process_SpawnReal p [] (mkTask 7 false None)
             (Status_Invalid "operation forbidden during or after shutdown")).
    reflexivity. }
  split; [exact Hsteps|].
  destruct (X8_nothing_runs_after_Shutdown (p, []) _ (p, [])
              eq_refl eq_refl eq_refl Hsteps) as (H1 & _ & H2 & _).
  split; [exact H2|exact H1].
Defined.

End ThreadPoolMore.

(* ===================================================================== *)
(** * The serial executor *)
(* ===================================================================== *)

Section SerialExecutorFacts.
Import SerialExecutor.

Lemma acts_Finish l q f :
  Forall (fun a => a = Finish) l ->
  acts l (mkState q f)
  = mkState q (f || match l with [] => false | _ => true end).
Proof.
  revert f. induction l as [|a l IH]; intros f Hl.
  - cbn. now rewrite orb_false_r.
  - inversion Hl; subst.
    change (acts (Finish :: l) (mkState q f)) with (acts l (mkState q true)).
    rewrite IH by assumption. now rewrite !orb_true_r.
Qed.

Lemma drain_no_spawn w q : forall fuel n f,
  no_spawn w n (List.length q) ->
  (List.length q < fuel)%nat ->
  drain fuel w n (mkState q f)
  = Some ((n + List.length q)%nat,
          mkState [] (f || finishes w n (List.length q)),
          flat_map ThreadPool.run_task q).
Proof.
  induction q as [|task rest IH]; intros fuel n f Hno Hfuel.
  - destruct fuel as [|fuel]; [lia|]. cbn.
    now rewrite Nat.add_0_r, orb_false_r.
  - destruct fuel as [|fuel]; [cbn in Hfuel; lia|].
    cbn [drain task_queue finished List.length].
    rewrite acts_Finish by (apply Hno; cbn; lia).
    rewrite IH.
    + cbn [mbind option_bind flat_map finishes seq existsb].
      unfold finishes. rewrite orb_assoc.
      replace (n + S (List.length rest))%nat
        with (S n + List.length rest)%nat by lia.
      reflexivity.
    + intros i Hi. apply Hno. cbn. lia.
    + cbn in Hfuel. lia.
Qed.

Lemma drain_empties fuel : forall w n s n' s' es,
  drain fuel w n s = Some (n', s', es) -> task_queue s' = [].
Proof.
  induction fuel as [|fuel IH]; intros w n s n' s' es H; [discriminate|].
  cbn in H. destruct (task_queue s) as [|task rest] eqn:E.
  - inversion H; subst. exact E.
  - destruct (drain fuel w (S n) _) as [[[n1 s1] es1]|] eqn:E1;
      cbn in H; [|discriminate].
    inversion H; subst. exact (IH _ _ _ _ _ _ E1).
Qed.

(** X9.  RunLoop runs the tasks of the queue in the order of the queue,
    each once, and all of them, also those that are behind the task during
    which MarkFinished was called; a task whose stop was requested is not
    called, its stop callback is called if it has one, and the loop goes
    on.  This is for tasks during which nothing is spawned, and a loop that
    no other thread calls while it waits: RunLoop then returns, with an
    empty queue, if MarkFinished was called during one of the tasks, and
    waits for ever otherwise. *)
Theorem X9_RunLoop_runs_the_queue_to_its_end
    (w : World) (q : list ThreadPool.Task) (n k fuel : nat) :
  no_spawn w n (List.length q) ->
  alone w ->
  (List.length q + 2 <= fuel)%nat ->
  RunLoop fuel w n k (mkState q false)
  = Some (if finishes w n (List.length q) then Returned else Waiting,
          mkState [] (finishes w n (List.length q)),
          flat_map ThreadPool.run_task q).
Proof.
  intros Hno Halone Hfuel.
  destruct fuel as [|fuel]; [lia|].
  cbn [RunLoop finished].
  rewrite (drain_no_spawn w q fuel n false Hno) by lia.
  cbn [mbind option_bind orb].
  unfold wait. cbn [finished task_queue]. rewrite orb_false_r.
  destruct (finishes w n (List.length q)) eqn:E.
  - destruct fuel as [|fuel]; [lia|]. cbn. now rewrite app_nil_r.
  - now rewrite Halone.
Qed.

(** X10.  Called on an executor that is already finished, RunLoop
    returns at once and runs nothing, whatever the queue holds and whoever
    else calls.  Whatever the tasks spawn, a RunLoop that ends, with no
    other thread calling while it waits, leaves no task in the queue,
    provided the executor was not finished when RunLoop was called: it
    returns with an empty queue once MarkFinished has been called, and it
    waits on an empty queue otherwise. *)
Theorem X10_RunLoop_leaves_no_task (w : World) :
  (forall fuel n k s,
      finished s = true ->
      RunLoop (S fuel) w n k s = Some (Returned, s, []))
  /\ (alone w ->
      forall fuel n k s o s' es,
        RunLoop fuel w n k s = Some (o, s', es) ->
        (finished s = true -> o = Returned /\ s' = s /\ es = [])
        /\ (finished s = false ->
            task_queue s' = []
            /\ finished s'
               = match o with Returned => true | Waiting => false end)).
Proof.
  split.
  { intros fuel n k s Hf. cbn [RunLoop]. now rewrite Hf. }
  intros Halone fuel.
  induction fuel as [|fuel IH]; intros n k s o s' es H; [discriminate|].
  cbn [RunLoop] in H.
  destruct (finished s) eqn:Ef.
  - inversion H; subst. split; [easy|discriminate].
  - split; [discriminate|]. intros _.
    destruct (drain fuel w n s) as [[[n1 s1] es1]|] eqn:Ed;
      cbn [mbind option_bind] in H; [|discriminate].
    pose proof (drain_empties _ _ _ _ _ _ _ Ed) as Hq.
    unfold wait in H. rewrite Hq, orb_false_r, Halone in H.
    destruct (finished s1) eqn:Ef1.
    + destruct (RunLoop fuel w n1 k s1) as [[[o3 s3] es3]|] eqn:ER;
        cbn [mbind option_bind] in H; [|discriminate].
      inversion H; subst.
      destruct (IH _ _ _ _ _ _ ER) as [IH1 _].
      destruct (IH1 Ef1) as (-> & -> & _). easy.
    + inversion H; subst. easy.
Qed.

Lemma X9_RunLoop_runs_the_queue_to_its_end_witness :
  let w := mkWorld (fun i => match i with 1%nat => [Finish] | _ => [] end)
             (fun _ => []) in
  RunLoop 5 w 0 0
    (mkState [ThreadPool.mkTask 10 false None;
              ThreadPool.mkTask 11 false None;
              ThreadPool.mkTask 12 true (Some 13%nat)] false)
  = Some (Returned, mkState [] true,
          [ThreadPool.task_called 10; ThreadPool.task_called 11;
           ThreadPool.stop_callback_called 13]).
Proof.
  intros w.
  refine (X9_RunLoop_runs_the_queue_to_its_end w _ 0 0 5 _ _ _).
  - intros i Hi. destruct i as [|[|[|i]]]; cbn; repeat constructor.
  - intros k. reflexivity.
  - cbn. lia.
Defined.

Lemma X10_RunLoop_leaves_no_task_witness :
  let task := ThreadPool.mkTask 10 false None in
  let w := mkWorld
             (fun i => match i with
                       | 0%nat => [Spawn (ThreadPool.mkTask 11 false None)]
                       | _ => []
                       end)
             (fun _ => []) in
  RunLoop 5 w 0 0 (mkState [task] false)
  = Some (Waiting, mkState [] false,
          [ThreadPool.task_called 10; ThreadPool.task_called 11])
  /\ task_queue (mkState [] false) = []
  /\ RunLoop 1 w 0 0 (mkState [task] true)
     = Some (Returned, mkState [task] true, []).
Proof.
  intros task w.
  assert (H : RunLoop 5 w 0 0 (mkState [task] false)
              = Some (Waiting, mkState [] false,
                      [ThreadPool.task_called 10; ThreadPool.task_called 11]))
    by reflexivity.
  split; [exact H|].
  destruct (X10_RunLoop_leaves_no_task w) as [H1 H2].
  destruct (H2 (fun _ => eq_refl) 5%nat 0%nat 0%nat _ _ _ _ H) as [_ H3].
  split; [exact (proj1 (H3 eq_refl))|].
  exact (H1 0%nat 0%nat 0%nat (mkState [task] true) eq_refl).
Defined.

End SerialExecutorFacts.

(* ===================================================================== *)
(** * More on the source node *)
(* ===================================================================== *)

Section SourceNodeMore.
Import SourceNode.

Lemma iteration_agree w1 w2 k nd :
  generator_ w2 k = generator_ w1 k ->
  stop_before w2 k = stop_before w1 k ->
  stop_during w2 k = stop_during w1 k ->
  submit w2 k = submit w1 k ->
  iteration w2 k nd = iteration w1 k nd.
Proof. intros H1 H2 H3 H4. unfold iteration. now rewrite H1, H2, H3, H4. Qed.

Lemma Loop_agree w1 w2 n : forall k nd fuel1 fuel2,
  (forall j, (k <= j < k + n)%nat -> breaks w1 (executor nd) j = false) ->
  breaks w1 (executor nd) (k + n) = true ->
  stop_requested_ nd = false ->
  batch_count_ nd = Z.of_nat k ->
  (n < fuel1)%nat -> (n < fuel2)%nat ->
  agree w1 w2 (k + n) ->
  Loop fuel2 w2 k nd = Loop fuel1 w1 k nd.
Proof.
  induction n as [|n IH]; intros k nd fuel1 fuel2 Hno Hbr Hs Hc Hf1 Hf2 Ha.
  - rewrite Nat.add_0_r in *.
    destruct fuel1 as [|fuel1]; [lia|]. destruct fuel2 as [|fuel2]; [lia|].
    destruct (Ha k ltac:(lia)) as (A1 & A2 & A3 & A4).
    cbn [Loop]. rewrite (iteration_agree w1 w2 k nd A1 A2 A3 A4).
    destruct (iteration_breaks w1 k nd Hbr Hs Hc) as (nd' & -> & _).
    reflexivity.
  - destruct fuel1 as [|fuel1]; [lia|]. destruct fuel2 as [|fuel2]; [lia|].
    destruct (Ha k ltac:(lia)) as (A1 & A2 & A3 & A4).
    cbn [Loop]. rewrite (iteration_agree w1 w2 k nd A1 A2 A3 A4).
    assert (Hk : breaks w1 (executor nd) k = false) by (apply Hno; lia).
    destruct (iteration_continues w1 k nd Hk Hs Hc) as (batch & _ & ->).
    rewrite (IH (S k) _ fuel1 fuel2); try reflexivity; try lia.
    + intros j Hj. cbn [executor]. apply Hno. lia.
    + cbn [executor]. now replace (S k + n)%nat with (k + S n)%nat by lia.
    + now replace (S k + n)%nat with (k + S n)%nat by lia.
Qed.

(** X11.  Once an iteration has ended the loop of the source node, the
    node does not poll the generator, look at a stop request or submit a
    task again: what StartProducing answers, the node it leaves and what
    it has sent depend only on what the generator, the stop requests and
    the executor did up to that iteration (and not on the bound of the
    model, once it is large enough).  StartProducing does return then; and
    on a node whose stop was requested before, it returns OK at once
    without sending anything, not even [input_finished]. *)
Theorem X11_source_stops_polling (w1 w2 : World) (ex : bool)
    (k fuel1 fuel2 : nat) :
  (forall j, (j < k)%nat -> breaks w1 ex j = false) ->
  breaks w1 ex k = true ->
  (k < fuel1)%nat -> (k < fuel2)%nat ->
  agree w1 w2 k ->
  StartProducing fuel2 w2 (init ex) = StartProducing fuel1 w1 (init ex)
  /\ StartProducing fuel1 w1 (init ex) <> None
  /\ StartProducing fuel1 w1 (StopProducing (init ex))
     = Some (Status_OK, StopProducing (init ex), []).
Proof.
  intros Hno Hbr Hf1 Hf2 Ha.
  assert (HL : Loop fuel2 w2 0 (init ex) = Loop fuel1 w1 0 (init ex)).
  { apply (Loop_agree w1 w2 k); try reflexivity; try assumption.
    intros j Hj. apply Hno. lia. }
  split; [|split].
  - unfold StartProducing. cbn [stop_requested_ init]. now rewrite HL.
  - destruct (Loop_runs_to_the_break w1 k 0 (init ex) fuel1)
      as (nd1 & HL1 & _); try reflexivity; try assumption.
    { intros j Hj. apply Hno. lia. }
    unfold StartProducing. cbn [stop_requested_ init]. rewrite HL1.
    discriminate.
  - reflexivity.
Qed.

(** The generator of [example_world] would fail if it were called a
    fourth time: the node does not call it. *)
Lemma X11_source_stops_polling_witness :
  let w2 :=
    mkWorld
      (fun k => match k with
                | 0%nat => Generated_batch (example_batch [Int64 1; Int64 2])
                | 1%nat => Generated_batch (example_batch [Null; Int64 4])
                | 2%nat => Generated_end
                | _ => Generated_error (mkStatus IOError "read after the end")
                end)
      (fun k => (2 <? k)%nat) (fun _ => false) (fun _ => Status_OK) in
  StartProducing 9 w2 (init false) = StartProducing 5 example_world (init false).
Proof.
  intros w2.
  refine (proj1 (X11_source_stops_polling example_world w2 false 2 5 9
                   _ _ _ _ _)).
  - intros j Hj. destruct j as [|[|j]]; [reflexivity|reflexivity|lia].
  - reflexivity.
  - lia.
  - lia.
  - intros j Hj. destruct j as [|[|[|j]]]; [easy|easy|easy|lia].
Defined.

End SourceNodeMore.

(* ===================================================================== *)
(** * More on the scalar aggregate node *)
(* ===================================================================== *)

Section ScalarAggregateNodeMore.
Import ScalarAggregateNode.
Context {KernelState : Type}.
Implicit Types (nd : t KernelState) (states : list (list KernelState)).

Lemma others_kept_refl ti states : others_kept ti states states.
Proof. split; [reflexivity|]. intros i row H. exists row. easy. Qed.

Lemma others_kept_trans ti (s1 s2 s3 : list (list KernelState)) :
  others_kept ti s1 s2 -> others_kept ti s2 s3 -> others_kept ti s1 s3.
Proof.
  intros [L1 H1] [L2 H2]. split; [congruence|].
  intros i row Hr. destruct (H1 i row Hr) as (row1 & Hr1 & Hl1 & Hk1).
  destruct (H2 i row1 Hr1) as (row2 & Hr2 & Hl2 & Hk2).
  exists row2. split; [exact Hr2|]. split; [congruence|].
  intros j Hj. rewrite Hk2, Hk1 by assumption. reflexivity.
Qed.

Lemma DoConsume_from_frame kernels targets batch ti n :
  forall i states st states',
  DoConsume_from KernelState kernels targets batch ti i n states
  = Some (st, states') ->
  others_kept ti states states'.
Proof.
  induction n as [|n IH]; intros i states st states' H; cbn in H.
  - inversion H; subst. apply others_kept_refl.
  - destruct (kernels !! i) as [kernel|]; cbn in H; [|discriminate].
    destruct (states !! i) as [row|] eqn:Er; cbn in H; [|discriminate].
    destruct (row !! ti) as [state|]; cbn in H; [|discriminate].
    destruct (targets !! i) as [target|]; cbn in H; [|discriminate].
    destruct (ExecBatch.values batch !! target) as [column|]; cbn in H;
      [|discriminate].
    destruct (consume kernel state _) as [status state'].
    assert (Hstep : others_kept ti states (<[i := <[ti := state']> row]> states)).
    { split; [apply length_insert|].
      intros k rowk Hk. destruct (Nat.eq_dec k i) as [->|Hne].
      - rewrite Er in Hk. inversion Hk; subst rowk.
        exists (<[ti := state']> row).
        split; [apply list_lookup_insert_eq; now apply lookup_lt_Some in Er|].
        split; [apply length_insert|].
        intros j Hj. now apply list_lookup_insert_ne.
      - exists rowk. rewrite list_lookup_insert_ne by congruence. easy. }
    destruct (ok status).
    + eapply others_kept_trans; [exact Hstep|]. exact (IH _ _ _ _ H).
    + inversion H; subst. exact Hstep.
Qed.

(** X12.  DoConsume on thread [thread_index] changes, in the scalar
    aggregate node, nothing but the states [states_[i][thread_index]] of
    that thread: the states of the other threads, the number of states,
    the kernels, the target fields, the input counter and [finished_] are
    as before, whether the kernels succeed or not. *)
Theorem X12_scalar_aggregate_threads_do_not_interfere
    nd (batch : ExecBatch.t) (thread_index : nat) (st : Status) nd' :
  DoConsume KernelState batch thread_index nd = Some (st, nd') ->
  finished_ nd' = finished_ nd
  /\ target_field_ids_ nd' = target_field_ids_ nd
  /\ kernels_ nd' = kernels_ nd
  /\ input_counter_ nd' = input_counter_ nd
  /\ List.length (states_ nd') = List.length (states_ nd)
  /\ forall i row,
       states_ nd !! i = Some row ->
       exists row',
         states_ nd' !! i = Some row'
         /\ List.length row' = List.length row
         /\ forall j, j <> thread_index -> row' !! j = row !! j.
Proof.
  unfold DoConsume. intros H.
  destruct (DoConsume_from _ _ _ _ _ _ _ _) as [[st' states']|] eqn:E;
    cbn in H; [|discriminate].
  inversion H; subst. cbn.
  apply DoConsume_from_frame in E as [HL HK].
  repeat split; try reflexivity; assumption.
Qed.

Lemma count_MarkFinished_app (a b : list Event) :
  count_MarkFinished (a ++ b)
  = (count_MarkFinished a + count_MarkFinished b)%nat.
Proof.
  unfold count_MarkFinished. now rewrite List.filter_app, List.length_app.
Qed.

(** A call resolves [finished_] at most once, and not at all once the
    input counter is complete; a call that resolves it completes the
    counter; a batch is delivered only by a call that resolves it. *)
Lemma call_marks_at_most_once (c : Call) nd nd' es :
  call KernelState c nd = Some (nd', es) ->
  (AtomicCounter.complete_ (input_counter_ nd) = true ->
   AtomicCounter.complete_ (input_counter_ nd') = true
   /\ count_MarkFinished es = 0%nat)
  /\ (count_MarkFinished es <= 1)%nat
  /\ (count_MarkFinished es = 1%nat ->
      AtomicCounter.complete_ (input_counter_ nd') = true)
  /\ (count_InputReceived es <= count_MarkFinished es)%nat.
Proof.
  assert (HF : forall nd0 nd1 es1,
             Finish_or_error KernelState nd0 = Some (nd1, es1) ->
             input_counter_ nd1 = input_counter_ nd0
             /\ (count_MarkFinished es1 <= 1)%nat
             /\ (count_InputReceived es1 <= count_MarkFinished es1)%nat).
  { intros nd0 nd1 es1 H. unfold Finish_or_error, Finish in H.
    destruct (Finish_from _ _ _ _ _ _) as [[[values|st] states]|];
      cbn in H; inversion H; subst; cbn.
    - split; [reflexivity|]. split; lia.
    - unfold ErrorIfNotOk. destruct (ok st); cbn;
        (split; [reflexivity|]); split; lia. }
  assert (HC : forall nd0 (r : bool * AtomicCounter.t) nd1 es1,
             (fst r = true ->
              AtomicCounter.complete_ (input_counter_ nd0) = false) ->
             (AtomicCounter.complete_ (input_counter_ nd0) = true ->
              AtomicCounter.complete_ (snd r) = true) ->
             (fst r = true -> AtomicCounter.complete_ (snd r) = true) ->
             (if fst r
              then Finish_or_error KernelState
                     (set_input_counter KernelState nd0 (snd r))
              else Some (set_input_counter KernelState nd0 (snd r), []))
             = Some (nd1, es1) ->
             (AtomicCounter.complete_ (input_counter_ nd0) = true ->
              AtomicCounter.complete_ (input_counter_ nd1) = true
              /\ count_MarkFinished es1 = 0%nat)
             /\ (count_MarkFinished es1 <= 1)%nat
             /\ (count_MarkFinished es1 = 1%nat ->
                 AtomicCounter.complete_ (input_counter_ nd1) = true)
             /\ (count_InputReceived es1 <= count_MarkFinished es1)%nat).
  { intros nd0 [fire c'] nd1 es1 H1 H2 H3 H. cbn [fst snd] in *.
    destruct fire.
    - apply HF in H as (Hc & Hle & Heq). rewrite Hc.
      cbn [input_counter_ set_input_counter].
      split; [intros Hx; rewrite H1 in Hx; [discriminate|reflexivity]|].
      split; [exact Hle|]. split; [intros _; now apply H3|exact Heq].
    - inversion H; subst. cbn [input_counter_ set_input_counter].
      split; [intros Hx; split; [now apply H2|reflexivity]|].
      split; [cbn; lia|]. split; [intros Hx; discriminate|cbn; lia]. }
  destruct c as [|ti batch|error|total|]; cbn [call]; intros H.
  - inversion H; subst. cbn.
    split; [intros Hx; split; [exact Hx|reflexivity]|].
    split; [lia|]. split; [intros Hx; discriminate|cbn; lia].
  - unfold InputReceived in H.
    destruct (DoConsume _ _ _ _) as [[st nd1]|] eqn:HD;
      cbn [mbind option_bind] in H; [|discriminate].
    assert (Hc : input_counter_ nd1 = input_counter_ nd).
    { unfold DoConsume in HD.
      destruct (DoConsume_from _ _ _ _ _ _ _ _) as [[st' states]|];
        cbn in HD; inversion HD; subst. reflexivity. }
    unfold ErrorIfNotOk in H. destruct (ok st).
    + rewrite <- Hc.
      destruct (AtomicCounter.Increment (input_counter_ nd1))
        as [fire c'] eqn:EI.
      destruct (completion_observed_once (input_counter_ nd1) (fire, c'))
        as (F1 & F2 & F3); [left; now rewrite EI|].
      now apply (HC nd1 (fire, c')).
    + inversion H; subst. rewrite Hc.
      split; [intros Hx; split; [exact Hx|reflexivity]|].
      split; [cbn; lia|]. split; [intros Hx; discriminate|cbn; lia].
  - inversion H; subst. cbn.
    split; [intros Hx; split; [exact Hx|reflexivity]|].
    split; [lia|]. split; [intros Hx; discriminate|cbn; lia].
  - unfold InputFinished in H.
    destruct (AtomicCounter.SetTotal (input_counter_ nd) total)
      as [fire c'] eqn:EI.
    destruct (completion_observed_once (input_counter_ nd) (fire, c'))
      as (F1 & F2 & F3); [right; left; exists total; now rewrite EI|].
    now apply (HC nd (fire, c')).
  - unfold StopProducing, AtomicCounter.Cancel, AtomicCounter.DoneOnce in H.
    cbn in H.
    destruct (AtomicCounter.complete_ (input_counter_ nd)) eqn:Ecp;
      cbn in H; inversion H; subst; cbn.
    + split; [intros _; split; reflexivity|].
      split; [lia|]. split; [intros Hx; discriminate|cbn; lia].
    + split; [intros Hx; discriminate|].
      split; [lia|]. split; [reflexivity|lia].
Qed.

Lemma run_marks_at_most_once (calls : list Call) : forall nd nd' es,
  run KernelState calls nd = Some (nd', es) ->
  (AtomicCounter.complete_ (input_counter_ nd) = true ->
   count_MarkFinished es = 0%nat)
  /\ (count_MarkFinished es <= 1)%nat
  /\ (count_InputReceived es <= count_MarkFinished es)%nat.
Proof.
  induction calls as [|c rest IH]; intros nd nd' es H; cbn in H.
  - inversion H; subst. cbn. split; [reflexivity|lia].
  - destruct (call KernelState c nd) as [[nd1 es1]|] eqn:Hc; cbn in H;
      [|discriminate].
    destruct (run KernelState rest nd1) as [[nd2 es2]|] eqn:Hr; cbn in H;
      [|discriminate].
    inversion H; subst.
    apply call_marks_at_most_once in Hc as (Hc1 & Hc2 & Hc3 & Hc4).
    apply IH in Hr as (Hr1 & Hr2 & Hr3).
    rewrite count_MarkFinished_app, count_InputReceived_app. split; [|split].
    + intros Hcp. destruct (Hc1 Hcp) as [Hcp' ->]. now rewrite Hr1.
    + destruct (count_MarkFinished es1) as [|[|k]] eqn:E; [lia| |lia].
      rewrite Hr1; [lia|]. now apply Hc3.
    + lia.
Qed.

(** X13.  In every sequence of calls on a scalar aggregate node,
    [finished_] is resolved at most once, a batch is delivered only where
    [finished_] is resolved, and neither happens once the input counter is
    complete. *)
Theorem X13_scalar_aggregate_finishes_once
    (calls : list Call) nd nd' (es : list Event) :
  run KernelState calls nd = Some (nd', es) ->
  (count_MarkFinished es <= 1)%nat
  /\ (count_InputReceived es <= count_MarkFinished es)%nat
  /\ (AtomicCounter.complete_ (input_counter_ nd) = true ->
      count_MarkFinished es = 0%nat /\ count_InputReceived es = 0%nat).
Proof.
  intros H. apply run_marks_at_most_once in H as (H1 & H2 & H3).
  split; [exact H2|]. split; [exact H3|].
  intros Hc. specialize (H1 Hc). split; [exact H1|lia].
Qed.


(** ** A Finish that fails *)

(** [finished_] is resolved only where the trace says so. *)
Lemma call_resolves_with_mark (c : Call) nd nd' es :
  call KernelState c nd = Some (nd', es) ->
  finished_ nd = false -> count_MarkFinished es = 0%nat ->
  finished_ nd' = false.
Proof.
  assert (HF : forall nd0 nd1 es1,
             Finish_or_error KernelState nd0 = Some (nd1, es1) ->
             finished_ nd0 = false -> count_MarkFinished es1 = 0%nat ->
             finished_ nd1 = false).
  { intros nd0 nd1 es1 H Hf Hm. unfold Finish_or_error, Finish in H.
    destruct (Finish_from _ _ _ _ _ _) as [[[values|st] states]|];
      cbn in H; inversion H; subst; cbn in *; [discriminate|exact Hf]. }
  destruct c as [|ti batch|error|total|]; cbn [call]; intros H Hf Hm.
  - inversion H; subst. reflexivity.
  - unfold InputReceived in H.
    destruct (DoConsume _ _ _ _) as [[st nd1]|] eqn:HD;
      cbn [mbind option_bind] in H; [|discriminate].
    assert (Hf1 : finished_ nd1 = finished_ nd).
    { unfold DoConsume in HD.
      destruct (DoConsume_from _ _ _ _ _ _ _ _) as [[st' states']|];
        cbn in HD; inversion HD; subst. reflexivity. }
    destruct (ErrorIfNotOk st) as [[|] es0]; [inversion H; subst; congruence|].
    destruct (AtomicCounter.Increment _) as [[|] c'].
    + apply HF in H; [exact H|cbn; congruence|exact Hm].
    + inversion H; subst. cbn. congruence.
  - inversion H; subst. exact Hf.
  - unfold InputFinished in H.
    destruct (AtomicCounter.SetTotal _ _) as [[|] c'].
    + apply HF in H; [exact H|exact Hf|exact Hm].
    + inversion H; subst. exact Hf.
  - unfold StopProducing in H.
    destruct (AtomicCounter.Cancel _) as [[|] c']; inversion H; subst;
      cbn in *; [discriminate|exact Hf].
Qed.

Lemma run_after_completion (calls : list Call) : forall nd nd' es,
  run KernelState calls nd = Some (nd', es) ->
  finished_ nd = false ->
  AtomicCounter.complete_ (input_counter_ nd) = true ->
  finished_ nd' = false
  /\ AtomicCounter.complete_ (input_counter_ nd') = true.
Proof.
  induction calls as [|c rest IH]; intros nd nd' es H Hf Hc; cbn in H.
  - inversion H; subst. split; assumption.
  - destruct (call KernelState c nd) as [[nd1 es1]|] eqn:E1; cbn in H;
      [|discriminate].
    destruct (run KernelState rest nd1) as [[nd2 es2]|] eqn:E2; cbn in H;
      [|discriminate].
    inversion H; subst.
    pose proof (call_marks_at_most_once c nd nd1 es1 E1) as (M1 & _).
    destruct (M1 Hc) as [Hc1 Hm1].
    pose proof (call_resolves_with_mark c nd nd1 es1 E1 Hf Hm1) as Hf1.
    exact (IH _ _ _ E2 Hf1 Hc1).
Qed.

(** X20.  When Finish fails in the scalar aggregate node (MergeAll or a
    finalize returns an error), which happens with the input counter
    complete, the error goes to [error_received] downstream, no batch is
    delivered and [finished_] is not resolved; and no later call resolves
    it or delivers a batch: StopProducing finds the counter complete, so
    its Cancel does not win. *)
Theorem X20_scalar_aggregate_failed_Finish_never_resolves
    nd (st : Status) nd1 (es1 : list Event)
    (calls : list Call) nd2 (es2 : list Event) :
  finished_ nd = false ->
  AtomicCounter.complete_ (input_counter_ nd) = true ->
  Finish KernelState nd = Some (st, nd1, es1) ->
  ok st = false ->
  run KernelState calls nd1 = Some (nd2, es2) ->
  es1 = []
  /\ Finish_or_error KernelState nd = Some (nd1, [Output_ErrorReceived st])
  /\ finished_ nd2 = false
  /\ count_MarkFinished es2 = 0%nat
  /\ count_InputReceived es2 = 0%nat.
Proof.
  intros Hf Hc HFin Hok Hrun.
  assert (H1 : es1 = [] /\ finished_ nd1 = false
               /\ input_counter_ nd1 = input_counter_ nd).
  { unfold Finish in HFin.
    destruct (Finish_from _ _ _ _ _ _) as [[[values|st'] states]|];
      cbn in HFin; inversion HFin; subst; [discriminate|].
    repeat split. exact Hf. }
  destruct H1 as (-> & Hf1 & Hc1).
  split; [reflexivity|]. split.
  { unfold Finish_or_error. rewrite HFin. cbn. unfold ErrorIfNotOk.
    now rewrite Hok. }
  rewrite <- Hc1 in Hc.
  destruct (run_after_completion calls nd1 nd2 es2 Hrun Hf1 Hc) as [Hf2 _].
  destruct (run_marks_at_most_once calls nd1 nd2 es2 Hrun) as (M1 & _ & M3).
  specialize (M1 Hc). split; [exact Hf2|]. split; [exact M1|lia].
Qed.

End ScalarAggregateNodeMore.

Lemma X12_scalar_aggregate_threads_do_not_interfere_witness :
  exists st nd',
    ScalarAggregateNode.DoConsume Z
      (SourceNode.example_batch [Int64 1; Int64 2; Int64 3; Int64 4]) 1
      ScalarAggregateNode.example_node = Some (st, nd')
    /\ ScalarAggregateNode.states_ nd' = [[0; 10; 0]]
    /\ forall i row,
         ScalarAggregateNode.states_ ScalarAggregateNode.example_node !! i
         = Some row ->
         exists row',
           ScalarAggregateNode.states_ nd' !! i = Some row'
           /\ List.length row' = List.length row
           /\ forall j, j <> 1%nat -> row' !! j = row !! j.
Proof.
  eexists. eexists.
  assert (H : ScalarAggregateNode.DoConsume Z
                (SourceNode.example_batch [Int64 1; Int64 2; Int64 3; Int64 4])
                1 ScalarAggregateNode.example_node
              = Some (Status_OK,
                      ScalarAggregateNode.mk true [0%nat]
                        [ScalarAggregateNode.sum_kernel] [[0; 10; 0]]
                        AtomicCounter.init)) by reflexivity.
  split; [exact H|]. split; [reflexivity|].
  exact (proj2 (proj2 (proj2 (proj2 (proj2
           (X12_scalar_aggregate_threads_do_not_interfere _ _ _ _ _ H)))))).
Defined.

Lemma X13_scalar_aggregate_finishes_once_witness :
  (count_MarkFinished
     [Output_InputFinished 1; MarkFinished; Input_StopProducing;
      Input_StopProducing] <= 1)%nat.
Proof.
  refine (proj1 (@X13_scalar_aggregate_finishes_once Z
                   [ScalarAggregateNode.Call_StartProducing;
                    ScalarAggregateNode.Call_StopProducing;
                    ScalarAggregateNode.Call_InputFinished 0;
                    ScalarAggregateNode.Call_StopProducing]
                   ScalarAggregateNode.example_node _ _ _)).
  reflexivity.
Defined.

(** A node whose kernel cannot finalize: the input ends, Finish fails, and
    StopProducing then finds the counter complete. *)
Lemma X20_scalar_aggregate_failed_Finish_never_resolves_witness :
  exists nd1 nd2,
    ScalarAggregateNode.Finish_or_error Z
      ScalarAggregateNode.example_failing_node
    = Some (nd1, [Output_ErrorReceived (Status_Invalid "sum does not fit")])
    /\ ScalarAggregateNode.run Z [ScalarAggregateNode.Call_StopProducing] nd1
       = Some (nd2, [Input_StopProducing])
    /\ ScalarAggregateNode.finished_ nd2 = false.
Proof.
  set (nd1 := ScalarAggregateNode.mk false [0%nat]
                [ScalarAggregateNode.failing_kernel] [[]]
                (AtomicCounter.mk 0 0 true)).
  exists nd1, nd1.
  destruct (@X20_scalar_aggregate_failed_Finish_never_resolves Z
              ScalarAggregateNode.example_failing_node
              (Status_Invalid "sum does not fit") nd1 []
              [ScalarAggregateNode.Call_StopProducing] nd1
              [Input_StopProducing]
              eq_refl eq_refl eq_refl eq_refl eq_refl)
    as (_ & H1 & H2 & _).
  split; [exact H1|]. split; [reflexivity|exact H2].
Defined.

(* ===================================================================== *)
(** * More on the group-by node *)
(* ===================================================================== *)

Section GroupByNodeMore.
Import GroupByNode.
Context {KernelState Grouper FunctionOptions Executor : Type}.
Context (ext : Externals KernelState Grouper FunctionOptions Executor).
Implicit Types (nd : t KernelState Grouper FunctionOptions Executor).

(** ** Consume changes one thread slot *)

Lemma set_local_states_same nd : set_local_states nd (local_states_ nd) = nd.
Proof. now destruct nd. Qed.

Lemma Consume_frame thread_index batch nd st nd' :
  Consume ext thread_index batch nd = Some (st, nd') ->
  exists state,
    nd' = set_local_states nd (<[thread_index := state]> (local_states_ nd)).
Proof.
  unfold Consume. intros H.
  destruct (_ <=? _)%nat eqn:E.
  { inversion H; subst. exists ThreadLocalState_default.
    apply Nat.leb_le in E.
    rewrite list_insert_ge by exact E. now rewrite set_local_states_same. }
  destruct (local_states_ nd !! thread_index) as [state|];
    cbn [mbind option_bind] in H; [|discriminate].
  destruct (InitLocalStateIfNeeded ext nd state) as [[st1 state1]|];
    cbn [mbind option_bind] in H; [|discriminate].
  destruct (negb (ok st1)); [inversion H; subst; now eexists|].
  destruct (mapM _ _) as [keys|]; cbn [mbind option_bind] in H;
    [|discriminate].
  destruct (grouper state1) as [g|]; cbn [mbind option_bind] in H;
    [|discriminate].
  destruct (Grouper_Consume ext g _) as [[id_batch|st2] g'].
  - destruct (Consume_kernels _ _ _ _ _ _ _) as [[st3 states]|];
      cbn [mbind option_bind] in H; [|discriminate].
    inversion H; subst; now eexists.
  - inversion H; subst; now eexists.
Qed.

(** X14.  Consume on thread [thread_index] changes, in the group-by
    node, nothing but the slot [local_states_[thread_index]]: the slots of
    the other threads, the number of slots, both counters, [finished_] and
    the output data are as before, whether Consume succeeds or not. *)
Theorem X14_group_by_threads_do_not_interfere
    nd (thread_index : nat) (batch : ExecBatch.t) (st : Status) nd' :
  Consume ext thread_index batch nd = Some (st, nd') ->
  nd' = set_local_states nd (local_states_ nd')
  /\ List.length (local_states_ nd') = List.length (local_states_ nd)
  /\ (forall j, j <> thread_index ->
                local_states_ nd' !! j = local_states_ nd !! j)
  /\ input_counter_ nd' = input_counter_ nd
  /\ output_counter_ nd' = output_counter_ nd
  /\ finished_ nd' = finished_ nd
  /\ out_data_ nd' = out_data_ nd.
Proof.
  intros H. apply Consume_frame in H as (state & ->).
  cbn. split; [reflexivity|]. split; [apply length_insert|].
  split; [intros j Hj; now apply list_lookup_insert_ne|].
  repeat split.
Qed.


(** ** [finished_] is resolved once *)

Lemma marks_quiet nd nd' es :
  output_counter_ nd' = output_counter_ nd ->
  count_MarkFinished es = 0%nat ->
  marks nd nd' es.
Proof.
  intros Hc He. unfold marks. rewrite Hc, He.
  split; [intros H; split; [exact H|reflexivity]|].
  split; [lia|discriminate].
Qed.

Lemma marks_trans nd1 nd2 nd3 es1 es2 :
  marks nd1 nd2 es1 -> marks nd2 nd3 es2 -> marks nd1 nd3 (es1 ++ es2).
Proof.
  intros (A1 & A2 & A3) (B1 & B2 & B3). unfold marks.
  rewrite count_MarkFinished_app.
  split; [|split].
  - intros H. destruct (A1 H) as [H2 ->]. destruct (B1 H2) as [H3 ->].
    split; [exact H3|reflexivity].
  - destruct (count_MarkFinished es1) as [|[|k]] eqn:E; [lia| |lia].
    destruct (B1 (A3 eq_refl)) as [_ ->]. lia.
  - intros H.
    destruct (count_MarkFinished es1) as [|[|k]] eqn:E.
    + apply B3. lia.
    + now destruct (B1 (A3 eq_refl)).
    + lia.
Qed.

Lemma settles_quiet nd nd' :
  output_counter_ nd' = output_counter_ nd ->
  finished_ nd' = finished_ nd ->
  settles nd nd'.
Proof.
  intros Hc Hf. unfold settles. rewrite Hc, Hf.
  split; [easy|]. intros H. now left.
Qed.

Lemma settles_trans nd1 nd2 nd3 :
  settles nd1 nd2 -> settles nd2 nd3 -> settles nd1 nd3.
Proof.
  intros [A1 A2] [B1 B2]. split; [auto|].
  intros H. destruct (B2 H) as [H2|H2]; [|now right].
  destruct (A2 H2) as [H1|H1]; [now left|right; auto].
Qed.

(** An operation of the output counter, followed by the resolution of
    [finished_] when it answers that the counter is complete. *)
Lemma counter_step nd (r : bool * AtomicCounter.t) :
  (r = AtomicCounter.Increment (output_counter_ nd)
   \/ (exists n, r = AtomicCounter.SetTotal (output_counter_ nd) n)
   \/ r = AtomicCounter.Cancel (output_counter_ nd)) ->
  forall es0,
  count_MarkFinished es0 = 0%nat ->
  let nd1 := set_output_counter nd (snd r) in
  marks nd (if fst r then set_finished nd1 true else nd1)
    (if fst r then es0 ++ [MarkFinished] else es0)
  /\ settles nd (if fst r then set_finished nd1 true else nd1).
Proof.
  intros Hr es0 He nd1.
  destruct (completion_observed_once (output_counter_ nd) r Hr)
    as (F1 & F2 & F3).
  destruct r as [[|] c]; cbn [fst snd] in *; subst nd1.
  - split.
    + unfold marks. rewrite count_MarkFinished_app, He. cbn.
      split; [intros H; rewrite F1 in H; [discriminate|reflexivity]|].
      split; [lia|]. intros _. now apply F3.
    + split; [reflexivity|]. intros _. now right.
  - split.
    + unfold marks. rewrite He. cbn.
      split; [intros H; split; [now apply F2|reflexivity]|].
      split; [lia|discriminate].
    + split; [easy|]. cbn. intros H. left.
      destruct Hr as [Hr|[[n Hr]|Hr]];
        unfold AtomicCounter.Increment, AtomicCounter.SetTotal,
          AtomicCounter.Cancel, AtomicCounter.DoneOnce in Hr;
        cbn in Hr;
        repeat match type of Hr with
               | context [if ?b then _ else _] => destruct b
               end;
        inversion Hr; subst; cbn in *;
        try (destruct (AtomicCounter.complete_ (output_counter_ nd));
             [reflexivity|discriminate]);
        assumption.
Qed.

Lemma Merge_frame nd st nd' :
  Merge ext nd = Some (st, nd') ->
  exists l, nd' = set_local_states nd l.
Proof.
  unfold Merge. intros H.
  destruct (local_states_ nd !! 0%nat); cbn [mbind option_bind] in H;
    [|discriminate].
  destruct (Merge_from _ _ _ _ _) as [[st1 l1]|];
    cbn [mbind option_bind] in H; [|discriminate].
  inversion H; subst. now eexists.
Qed.

Lemma Finalize_marks nd r nd' es :
  Finalize ext nd = Some (r, nd', es) ->
  marks nd nd' es /\ settles nd nd'
  /\ forallb (fun e => negb (is_output e)) es = true.
Proof.
  unfold Finalize. intros H.
  assert (Q : forall state,
             marks nd (set_local_states nd (<[0%nat := state]> (local_states_ nd))) []
             /\ settles nd (set_local_states nd (<[0%nat := state]> (local_states_ nd)))
             /\ forallb (fun e => negb (is_output e)) [] = true).
  { intros state. split; [now apply marks_quiet|].
    split; [now apply settles_quiet|reflexivity]. }
  destruct (local_states_ nd !! 0%nat) as [state|];
    cbn [mbind option_bind] in H; [|discriminate].
  destruct (InitLocalStateIfNeeded ext nd state) as [[st1 state1]|];
    cbn [mbind option_bind] in H; [|discriminate].
  destruct (negb (ok st1)); [inversion H; subst; apply Q|].
  destruct (grouper state1) as [g|]; cbn [mbind option_bind] in H;
    [|discriminate].
  destruct (Finalize_kernels _ _ _ _ _) as [[[st2 values] states]|];
    cbn [mbind option_bind] in H; [|discriminate].
  destruct (negb (ok st2)); [inversion H; subst; apply Q|].
  destruct (Grouper_GetUniques ext g) as [[out_keys|st3] g'];
    [|inversion H; subst; apply Q].
  destruct (move_into _ _ _) as [values'|]; cbn [mbind option_bind] in H;
    [|discriminate].
  destruct (CeilDiv _ _) as [total|]; cbn [mbind option_bind] in H;
    [|discriminate].
  match type of H with
  | context [AtomicCounter.SetTotal (output_counter_ ?n) ?k] =>
      pose proof (counter_step n (AtomicCounter.SetTotal (output_counter_ n) k)
                    (or_intror (or_introl (ex_intro _ k eq_refl))) [] eq_refl)
        as [HM HS];
      destruct (AtomicCounter.SetTotal (output_counter_ n) k) as [[|] c];
      cbn [fst snd app] in HM, HS; inversion H; subst
  end.
  - split; [|split; [|reflexivity]].
    + eapply (marks_trans _ _ _ [] _); [|exact HM]. now apply marks_quiet.
    + eapply settles_trans; [|exact HS]. now apply settles_quiet.
  - split; [|split; [|reflexivity]].
    + eapply (marks_trans _ _ _ [] _); [|exact HM]. now apply marks_quiet.
    + eapply settles_trans; [|exact HS]. now apply settles_quiet.
Qed.

Lemma OutputNthBatch_marks n nd :
  marks nd (fst (OutputNthBatch n nd)) (snd (OutputNthBatch n nd))
  /\ settles nd (fst (OutputNthBatch n nd)).
Proof.
  unfold OutputNthBatch.
  destruct (finished_ nd) eqn:Ef.
  { split; [now apply marks_quiet|now apply settles_quiet]. }
  match goal with
  | |- context [Output_InputReceived ?b] =>
      pose proof (counter_step nd (AtomicCounter.Increment (output_counter_ nd))
                    (or_introl eq_refl) [Output_InputReceived b] eq_refl)
        as [HM HS]
  end.
  destruct (AtomicCounter.Increment (output_counter_ nd)) as [[|] c];
    cbn [fst snd app] in *; split; assumption.
Qed.

Lemma OutputResult_loop_marks n : forall i nd,
  marks nd (snd (fst (OutputResult_loop ext i n nd)))
    (snd (OutputResult_loop ext i n nd))
  /\ settles nd (snd (fst (OutputResult_loop ext i n nd))).
Proof.
  induction n as [|n IH]; intros i nd.
  { cbn. split; [now apply marks_quiet|now apply settles_quiet]. }
  cbn [OutputResult_loop].
  destruct (executor (ctx_ nd)) as [e|].
  - destruct (finished_ nd).
    { cbn. split; [now apply marks_quiet|now apply settles_quiet]. }
    destruct (Spawn ext e i) as [st e'].
    destruct (negb (ok st)).
    { cbn. split; [now apply marks_quiet|now apply settles_quiet]. }
    specialize (IH (i + 1)
                  (set_ctx nd (mkExecContext (exec_chunksize (ctx_ nd)) (Some e')))).
    destruct (OutputResult_loop _ _ _ _) as [[st' nd''] es].
    cbn [fst snd] in *. destruct IH as [IM IS]. split.
    + eapply (marks_trans nd _ nd'' [Executor_Spawn i] es); [|exact IM].
      now apply marks_quiet.
    + eapply settles_trans; [|exact IS]. now apply settles_quiet.
  - pose proof (OutputNthBatch_marks i nd) as [HM HS].
    destruct (OutputNthBatch i nd) as [nd' es].
    specialize (IH (i + 1) nd').
    destruct (OutputResult_loop _ _ _ _) as [[st' nd''] es'].
    cbn [fst snd] in *. destruct IH as [IM IS]. split.
    + eapply marks_trans; eassumption.
    + eapply settles_trans; eassumption.
Qed.

Lemma ErrorIfNotOk_no_mark st : count_MarkFinished (snd (ErrorIfNotOk st)) = 0%nat.
Proof. unfold ErrorIfNotOk. now destruct (ok st). Qed.

Lemma OutputResult_or_error_marks nd nd' es :
  OutputResult_or_error ext nd = Some (nd', es) ->
  marks nd nd' es /\ settles nd nd'.
Proof.
  unfold OutputResult_or_error, OutputResult. intros H.
  destruct (Merge ext nd) as [[st1 nd1]|] eqn:EM;
    cbn [mbind option_bind] in H; [|discriminate].
  apply Merge_frame in EM as (l & ->).
  destruct (negb (ok st1)).
  { cbn in H. inversion H; subst. split.
    - apply marks_quiet; [reflexivity|apply ErrorIfNotOk_no_mark].
    - now apply settles_quiet. }
  destruct (Finalize ext _) as [[[r nd2] es2]|] eqn:EF;
    cbn [mbind option_bind] in H; [|discriminate].
  apply Finalize_marks in EF as (FM & FS & _).
  assert (FM' : marks nd nd2 es2).
  { eapply (marks_trans nd _ nd2 [] es2); [now apply marks_quiet|exact FM]. }
  assert (FS' : settles nd nd2).
  { eapply settles_trans; [|exact FS]. now apply settles_quiet. }
  destruct r as [out_data|st2].
  - destruct (AtomicCounter.total _) as [num|];
      cbn [mbind option_bind] in H; [|discriminate].
    pose proof (OutputResult_loop_marks (Z.to_nat num) 0
                  (set_out_data nd2 out_data)) as [LM LS].
    destruct (OutputResult_loop _ _ _ _) as [[st3 nd3] es3].
    cbn [fst snd] in *. inversion H; subst. split.
    + rewrite <- !app_assoc.
      eapply marks_trans; [exact FM'|].
      eapply (marks_trans nd2 (set_out_data nd2 out_data) nd'
               [Output_InputFinished num] (es3 ++ snd (ErrorIfNotOk st3)));
        [now apply marks_quiet|].
      eapply marks_trans; [exact LM|].
      apply marks_quiet; [reflexivity|apply ErrorIfNotOk_no_mark].
    + eapply settles_trans; [exact FS'|].
      eapply settles_trans; [|exact LS]. now apply settles_quiet.
  - cbn in H. inversion H; subst. split.
    + eapply marks_trans; [exact FM'|].
      apply marks_quiet; [reflexivity|apply ErrorIfNotOk_no_mark].
    + exact FS'.
Qed.

Lemma call_marks c nd nd' es :
  call ext c nd = Some (nd', es) ->
  marks nd nd' es /\ (is_StartProducing c = false -> settles nd nd').
Proof.
  destruct c as [cap|ti batch|error|total| |n]; cbn [call]; intros H.
  - inversion H; subst. split; [now apply marks_quiet|discriminate].
  - unfold InputReceived in H.
    destruct (finished_ nd) eqn:Ef.
    { inversion H; subst.
      split; [now apply marks_quiet|intros _; now apply settles_quiet]. }
    destruct (Consume ext ti batch nd) as [[st nd1]|] eqn:EC;
      cbn [mbind option_bind] in H; [|discriminate].
    apply Consume_frame in EC as (state & ->).
    unfold ErrorIfNotOk in H. destruct (ok st).
    + destruct (AtomicCounter.Increment _) as [[|] c].
      * apply OutputResult_or_error_marks in H as [HM HS]. split.
        -- eapply (marks_trans nd _ nd' [] es); [now apply marks_quiet|exact HM].
        -- intros _. eapply settles_trans; [|exact HS]. now apply settles_quiet.
      * inversion H; subst.
        split; [now apply marks_quiet|intros _; now apply settles_quiet].
    + inversion H; subst.
      split; [now apply marks_quiet|intros _; now apply settles_quiet].
  - inversion H; subst.
    split; [now apply marks_quiet|intros _; now apply settles_quiet].
  - unfold InputFinished in H.
    destruct (finished_ nd) eqn:Ef.
    { inversion H; subst.
      split; [now apply marks_quiet|intros _; now apply settles_quiet]. }
    destruct (AtomicCounter.SetTotal _ _) as [[|] c].
    + apply OutputResult_or_error_marks in H as [HM HS]. split.
      * eapply (marks_trans nd _ nd' [] es); [now apply marks_quiet|exact HM].
      * intros _. eapply settles_trans; [|exact HS]. now apply settles_quiet.
    + inversion H; subst.
      split; [now apply marks_quiet|intros _; now apply settles_quiet].
  - unfold StopProducing in H.
    destruct (AtomicCounter.Cancel (input_counter_ nd)) as [w1 c1].
    match type of H with
    | context [AtomicCounter.Cancel (output_counter_ ?n)] =>
        pose proof (counter_step n (AtomicCounter.Cancel (output_counter_ n))
                      (or_intror (or_intror eq_refl)) [] eq_refl) as [HM HS];
        destruct (AtomicCounter.Cancel (output_counter_ n)) as [[|] c]
    end; cbn [fst snd app] in *; inversion H; subst.
    + split.
      * change [MarkFinished; Input_StopProducing]
          with ([] ++ [MarkFinished] ++ [Input_StopProducing]).
        eapply marks_trans; [now apply marks_quiet|].
        eapply marks_trans; [exact HM|]. now apply marks_quiet.
      * intros _. eapply settles_trans; [|exact HS]. now apply settles_quiet.
    + split.
      * change [Input_StopProducing]
          with ([] ++ [] ++ [Input_StopProducing]).
        eapply marks_trans; [now apply marks_quiet|].
        eapply marks_trans; [exact HM|]. now apply marks_quiet.
      * intros _. eapply settles_trans; [|exact HS]. now apply settles_quiet.
  - inversion H as [H1].
    pose proof (OutputNthBatch_marks n nd) as [HM HS].
    rewrite H1 in HM, HS. cbn [fst snd] in *. split; [exact HM|now intros _].
Qed.

Lemma run_marks calls : forall nd nd' es,
  run ext calls nd = Some (nd', es) ->
  marks nd nd' es
  /\ (forallb (fun c => negb (is_StartProducing c)) calls = true ->
      settles nd nd').
Proof.
  induction calls as [|c calls IH]; intros nd nd' es H; cbn in H.
  - inversion H; subst.
    split; [now apply marks_quiet|intros _; now apply settles_quiet].
  - destruct (call ext c nd) as [[nd1 es1]|] eqn:E1;
      cbn [mbind option_bind] in H; [|discriminate].
    destruct (run ext calls nd1) as [[nd2 es2]|] eqn:E2;
      cbn [mbind option_bind] in H; [|discriminate].
    inversion H; subst.
    apply call_marks in E1 as [M1 S1]. apply IH in E2 as [M2 S2].
    split; [eapply marks_trans; eassumption|].
    cbn. intros Hall. apply andb_true_iff in Hall as [Hc Hall].
    apply negb_true_iff in Hc.
    eapply settles_trans; [exact (S1 Hc)|exact (S2 Hall)].
Qed.

(** X15.  In every sequence of calls on a group-by node, tasks of chunks
    included, [finished_] is resolved at most once, only as the output
    counter becomes complete, and not at all if the output counter was
    complete from the start. *)
Theorem X15_group_by_finishes_once
    (calls : list Call) nd nd' (es : list Event) :
  run ext calls nd = Some (nd', es) ->
  (count_MarkFinished es <= 1)%nat
  /\ (AtomicCounter.complete_ (output_counter_ nd) = true ->
      count_MarkFinished es = 0%nat)
  /\ (count_MarkFinished es = 1%nat ->
      AtomicCounter.complete_ (output_counter_ nd') = true).
Proof.
  intros H. apply run_marks in H as [(H1 & H2 & H3) _].
  split; [exact H2|]. split; [|exact H3].
  intros Hc. now destruct (H1 Hc).
Qed.


(** ** A node that was stopped *)

Lemma counter_complete_Cancel (c : AtomicCounter.t) :
  AtomicCounter.complete_ c = true -> AtomicCounter.Cancel c = (false, c).
Proof.
  intros H. destruct c as [n tt cp]. cbn in *. subst.
  reflexivity.
Qed.

(** A node whose counters are complete and whose [finished_] is resolved
    does nothing but pass errors on. *)
Lemma stopped_node_is_inert calls : forall nd,
  finished_ nd = true ->
  AtomicCounter.complete_ (input_counter_ nd) = true ->
  AtomicCounter.complete_ (output_counter_ nd) = true ->
  forallb (fun c => negb (is_StartProducing c)) calls = true ->
  exists es,
    run ext calls nd = Some (nd, es)
    /\ forallb (fun e => negb (is_output e)) es = true
    /\ count_MarkFinished es = 0%nat.
Proof.
  induction calls as [|c calls IH]; intros nd Hf Hi Ho Hall.
  - exists []. repeat split.
  - cbn in Hall. apply andb_true_iff in Hall as [Hc Hall].
    destruct (IH nd Hf Hi Ho Hall) as (es & Hrun & Hout & Hmark).
    assert (Hcall : exists es1,
               call ext c nd = Some (nd, es1)
               /\ forallb (fun e => negb (is_output e)) es1 = true
               /\ count_MarkFinished es1 = 0%nat).
    { destruct c as [cap|ti batch|error|total| |n]; cbn [call];
        try discriminate.
      - unfold InputReceived. rewrite Hf. now exists [].
      - eexists. split; [reflexivity|]. split; reflexivity.
      - unfold InputFinished. rewrite Hf. now exists [].
      - unfold StopProducing.
        rewrite (counter_complete_Cancel _ Hi).
        replace (set_input_counter nd (input_counter_ nd)) with nd
          by now destruct nd.
        rewrite (counter_complete_Cancel _ Ho).
        replace (set_output_counter nd (output_counter_ nd)) with nd
          by now destruct nd.
        eexists. split; [reflexivity|]. split; reflexivity.
      - unfold OutputNthBatch. rewrite Hf. now exists []. }
    destruct Hcall as (es1 & Hc1 & Hout1 & Hmark1).
    exists (es1 ++ es). cbn [run]. rewrite Hc1. cbn [mbind option_bind].
    rewrite Hrun. cbn [mbind option_bind].
    split; [reflexivity|].
    rewrite forallb_app, Hout1, Hout, count_MarkFinished_app, Hmark1, Hmark.
    split; reflexivity.
Qed.

(** X16.  A group-by node that was started once and is then stopped has
    its [finished_] resolved, and from then on sends no batch and no
    [input_finished] downstream and stays as StopProducing left it,
    whatever is called on it short of StartProducing: batches and the end
    of the input are ignored, a task of a chunk outputs nothing, another
    StopProducing only stops the input again; errors received are still
    passed on. *)
Theorem X16_group_by_stopped_node_sends_nothing
    (capacity : nat) (before after : list Call) nd0 nd1 (es1 : list Event) :
  AtomicCounter.complete_ (output_counter_ nd0) = false ->
  forallb (fun c => negb (is_StartProducing c)) before = true ->
  forallb (fun c => negb (is_StartProducing c)) after = true ->
  run ext (Call_StartProducing capacity :: before) nd0 = Some (nd1, es1) ->
  let stopped := fst (StopProducing nd1) in
  finished_ stopped = true
  /\ exists es2,
       run ext (Call_StopProducing :: after) nd1
       = Some (stopped, snd (StopProducing nd1) ++ es2)
       /\ forallb (fun e => negb (is_output e)) es2 = true
       /\ count_MarkFinished es2 = 0%nat.
Proof.
  intros Hc0 Hb Ha Hrun stopped.
  (* the resolution of [finished_] follows the output counter *)
  assert (HJ : AtomicCounter.complete_ (output_counter_ nd1) = true ->
               finished_ nd1 = true).
  { cbn [run call StartProducing mbind option_bind] in Hrun.
    destruct (run ext before _) as [[nd2 es2]|] eqn:E;
      cbn [mbind option_bind] in Hrun; [|discriminate].
    inversion Hrun; subst.
    apply run_marks in E as [_ HS]. destruct (HS Hb) as [_ HS2].
    intros Hc. destruct (HS2 Hc) as [Hx|Hx]; [|exact Hx].
    cbn in Hx. congruence. }
  assert (Hstop : finished_ stopped = true
                  /\ AtomicCounter.complete_ (input_counter_ stopped) = true
                  /\ AtomicCounter.complete_ (output_counter_ stopped) = true).
  { subst stopped. unfold StopProducing, AtomicCounter.Cancel,
      AtomicCounter.DoneOnce. cbn.
    destruct (AtomicCounter.complete_ (output_counter_ nd1)) eqn:E; cbn.
    - split; [now apply HJ|]. split; reflexivity.
    - repeat split. }
  destruct Hstop as (Hf & Hi & Ho). split; [exact Hf|].
  destruct (stopped_node_is_inert after stopped Hf Hi Ho Ha)
    as (es2 & Hrun2 & Hout & Hmark).
  exists es2. cbn [run call]. cbn [mbind option_bind].
  fold stopped.
  destruct (StopProducing nd1) as [nd_s es_s] eqn:Es.
  cbn [fst snd] in *. subst stopped. cbn [fst] in Hrun2.
  rewrite Hrun2. cbn [mbind option_bind].
  split; [reflexivity|]. split; assumption.
Qed.


(** ** Make: field references that do not resolve *)

Lemma find_field_ids_error refs schema n : forall i ids d ref st,
  (d < n)%nat ->
  refs !! (i + d)%nat = Some ref ->
  FindOne ref schema = Err st ->
  (forall j, (i <= j < i + d)%nat -> resolves schema refs j) ->
  find_field_ids refs schema i n ids = Some (Err st).
Proof.
  induction n as [|n IH]; intros i ids d ref st Hd Hr Hf Hbefore; [lia|].
  cbn [find_field_ids].
  destruct d as [|d].
  - rewrite Nat.add_0_r in Hr. rewrite Hr. cbn. now rewrite Hf.
  - destruct (Hbefore i ltac:(lia)) as (r & id & Hri & Hfi).
    rewrite Hri. cbn. rewrite Hfi.
    apply (IH (S i) _ d ref st); [lia| |exact Hf|].
    + now replace (S i + d)%nat with (i + S d)%nat by lia.
    + intros j Hj. apply Hbefore. lia.
Qed.

Lemma find_field_ids_ok refs schema n : forall i ids,
  (forall j, (i <= j < i + n)%nat -> resolves schema refs j) ->
  exists ids', find_field_ids refs schema i n ids = Some (Ok ids').
Proof.
  induction n as [|n IH]; intros i ids Hall; [now eexists|].
  cbn [find_field_ids].
  destruct (Hall i ltac:(lia)) as (r & id & Hri & Hfi).
  rewrite Hri. cbn. rewrite Hfi.
  apply IH. intros j Hj. apply Hall. lia.
Qed.

(** X17.  GroupByNode::Make returns the error of FindOne, and builds no
    node, for the first key that does not match exactly one field of the
    input schema, and, when every key matches, for the first target of an
    aggregate that does not. *)
Theorem X17_group_by_Make_reports_unresolved_reference
    (input_schema : Schema) (ctx : ExecContext Executor)
    (opts : AggregateNodeOptions FunctionOptions)
    (i : nat) (ref : FieldRef) (st : Status) :
  FindOne ref input_schema = Err st ->
  (keys opts !! i = Some ref ->
   (forall j, (j < i)%nat -> resolves input_schema (keys opts) j) ->
   Make ext input_schema ctx opts = Some (Err st))
  /\ (targets opts !! i = Some ref ->
      (i < List.length (aggregates opts))%nat ->
      (forall j, (j < List.length (keys opts))%nat ->
                 resolves input_schema (keys opts) j) ->
      (forall j, (j < i)%nat -> resolves input_schema (targets opts) j) ->
      Make ext input_schema ctx opts = Some (Err st)).
Proof.
  intros Hf. split.
  - intros Hk Hbefore. unfold Make.
    rewrite (find_field_ids_error (keys opts) input_schema _ 0 _ i ref st);
      try assumption.
    + reflexivity.
    + now apply lookup_lt_Some in Hk.
    + intros j Hj. apply Hbefore. lia.
  - intros Ht Hi Hkeys Hbefore. unfold Make.
    destruct (find_field_ids_ok (keys opts) input_schema
                (List.length (keys opts)) 0
                (replicate (List.length (keys opts)) 0%nat))
      as (key_field_ids & ->).
    { intros j Hj. apply Hkeys. lia. }
    cbn [mbind option_bind].
    rewrite (find_field_ids_error (targets opts) input_schema _ 0 _ i ref st);
      try assumption.
    + reflexivity.
    + intros j Hj. apply Hbefore. lia.
Qed.

(** ** Merge leaves one grouper *)

Lemma Merge_slot_spec nd i l st l' :
  grouper_errors_are_errors ext ->
  Merge_slot ext nd i l = Some (st, l') ->
  ok st = true -> i <> 0%nat ->
  (forall state, l' !! i = Some state -> grouper state = None)
  /\ (forall j, j <> 0%nat -> j <> i -> l' !! j = l !! j).
Proof.
  unfold Merge_slot. intros [HE1 HE2] H Hok Hi.
  destruct (l !! 0%nat) as [state0|] eqn:E0; cbn [mbind option_bind] in H;
    [|discriminate].
  destruct (l !! i) as [state|] eqn:Ei; cbn [mbind option_bind] in H;
    [|discriminate].
  destruct (grouper state) as [g|] eqn:Eg.
  2:{ inversion H; subst. split; [|reflexivity].
      intros s Hs. rewrite Ei in Hs. now inversion Hs; subst. }
  destruct (Grouper_GetUniques ext g) as [[other_keys|st1] g'] eqn:EU.
  2:{ inversion H; subst. apply HE1 in EU. congruence. }
  destruct (grouper state0) as [g0|]; cbn [mbind option_bind] in H;
    [|discriminate].
  destruct (Grouper_Consume ext g0 other_keys) as [[transposition|st2] g0']
    eqn:EC.
  2:{ inversion H; subst. apply HE2 in EC. congruence. }
  destruct (Merge_kernels _ _ _ _ _ _ _) as [[[st3 s0] s1]|];
    cbn [mbind option_bind] in H; [|discriminate].
  inversion H; subst. split.
  - intros s Hs.
    rewrite list_lookup_insert_ne in Hs by congruence.
    rewrite list_lookup_insert_eq in Hs by now apply lookup_lt_Some in Ei.
    now inversion Hs.
  - intros j Hj0 Hji.
    rewrite list_lookup_insert_ne by congruence.
    now rewrite list_lookup_insert_ne by congruence.
Qed.

Lemma Merge_from_spec nd n : forall i l st l',
  grouper_errors_are_errors ext ->
  Merge_from ext nd i n l = Some (st, l') ->
  ok st = true -> i <> 0%nat ->
  (forall j state, (i <= j < i + n)%nat ->
                   l' !! j = Some state -> grouper state = None)
  /\ (forall j, j <> 0%nat -> (j < i \/ i + n <= j)%nat -> l' !! j = l !! j).
Proof.
  induction n as [|n IH]; intros i l st l' HE H Hok Hi; cbn in H.
  - inversion H; subst. split; [intros j state Hj; lia|reflexivity].
  - destruct (Merge_slot ext nd i l) as [[st1 l1]|] eqn:E;
      cbn [mbind option_bind] in H; [|discriminate].
    destruct (ok st1) eqn:Hok1; cbn [negb] in H.
    2:{ inversion H; subst. congruence. }
    destruct (Merge_slot_spec nd i l st1 l1 HE E Hok1 Hi) as [S1 S2].
    destruct (IH (S i) l1 st l' HE H Hok ltac:(lia)) as [I1 I2].
    split.
    + intros j state Hj Hl.
      destruct (Nat.eq_dec j i) as [->|Hne].
      * rewrite I2 in Hl by lia. now apply S1.
      * apply (I1 j state); [lia|exact Hl].
    + intros j Hj0 Hj. rewrite I2 by lia. apply S2; lia.
Qed.

(** X18.  A Merge of the group-by node that succeeds leaves a grouper in
    slot 0 only: every other slot has had its grouper reset.  It changes
    nothing but the thread slots, and not their number.  (The grouper
    returns real errors: a Result that holds a status is not OK.) *)
Theorem X18_group_by_Merge_leaves_one_grouper nd (st : Status) nd' :
  grouper_errors_are_errors ext ->
  Merge ext nd = Some (st, nd') ->
  ok st = true ->
  nd' = set_local_states nd (local_states_ nd')
  /\ List.length (local_states_ nd') = List.length (local_states_ nd)
  /\ forall i state,
       (1 <= i)%nat -> local_states_ nd' !! i = Some state ->
       grouper state = None.
Proof.
  intros HE H Hok.
  pose proof (Merge_shape ext nd st nd' H) as [Hlen _].
  unfold Merge in H.
  destruct (local_states_ nd !! 0%nat) as [state0|] eqn:E0;
    cbn [mbind option_bind] in H; [|discriminate].
  destruct (Merge_from _ _ _ _ _) as [[st1 l1]|] eqn:E;
    cbn [mbind option_bind] in H; [|discriminate].
  inversion H; subst. cbn [local_states_ set_local_states] in *.
  split; [reflexivity|]. split; [exact Hlen|].
  intros i state Hi Hl.
  destruct (Merge_from_spec nd _ _ _ _ _ HE E Hok ltac:(lia)) as [M1 _].
  apply (M1 i state); [|exact Hl].
  apply lookup_lt_Some in Hl. lia.
Qed.

(** ** An executor that refuses a task *)


End GroupByNodeMore.

Lemma X14_group_by_threads_do_not_interfere_witness :
  exists st nd',
    GroupByNode.Consume GroupByNode.example_externals 1
      GroupByNode.example_batch_2 (GroupByNode.example_consumed 1)
    = Some (st, nd')
    /\ GroupByNode.local_states_ nd' !! 0%nat
       = GroupByNode.local_states_ (GroupByNode.example_consumed 1) !! 0%nat.
Proof.
  destruct (GroupByNode.Consume GroupByNode.example_externals 1
              GroupByNode.example_batch_2 (GroupByNode.example_consumed 1))
    as [[st nd']|] eqn:E; [|vm_compute in E; discriminate].
  exists st, nd'. split; [reflexivity|].
  destruct (X14_group_by_threads_do_not_interfere _ _ _ _ _ _ E)
    as (_ & _ & H & _).
  apply H. lia.
Defined.

Lemma X15_group_by_finishes_once_witness :
  exists nd' es,
    GroupByNode.run GroupByNode.example_externals
      [GroupByNode.Call_StartProducing 2;
       GroupByNode.Call_InputReceived 0 GroupByNode.example_batch_1;
       GroupByNode.Call_InputFinished 1;
       GroupByNode.Call_StopProducing]
      (GroupByNode.example_made 1)
    = Some (nd', es)
    /\ (count_MarkFinished es <= 1)%nat.
Proof.
  destruct (GroupByNode.run GroupByNode.example_externals
              [GroupByNode.Call_StartProducing 2;
               GroupByNode.Call_InputReceived 0 GroupByNode.example_batch_1;
               GroupByNode.Call_InputFinished 1;
               GroupByNode.Call_StopProducing]
              (GroupByNode.example_made 1))
    as [[nd' es]|] eqn:E; [|vm_compute in E; discriminate].
  exists nd', es. split; [reflexivity|].
  exact (proj1 (X15_group_by_finishes_once _ _ _ _ _ E)).
Defined.

(** The node is stopped after its first batch: the second batch, the end
    of the input and a task for chunk 0 then send nothing downstream. *)
Lemma X16_group_by_stopped_node_sends_nothing_witness :
  let nd1 := GroupByNode.example_consumed 1 in
  exists es2,
    GroupByNode.run GroupByNode.example_externals
      [GroupByNode.Call_StopProducing;
       GroupByNode.Call_InputReceived 1 GroupByNode.example_batch_2;
       GroupByNode.Call_InputFinished 2;
       GroupByNode.Call_OutputNthBatch 0]
      nd1
    = Some (fst (GroupByNode.StopProducing nd1),
            snd (GroupByNode.StopProducing nd1) ++ es2)
    /\ forallb (fun e => negb (is_output e)) es2 = true.
Proof.
  intros nd1.
  destruct (X16_group_by_stopped_node_sends_nothing
              GroupByNode.example_externals 2
              [GroupByNode.Call_InputReceived 0 GroupByNode.example_batch_1]
              [GroupByNode.Call_InputReceived 1 GroupByNode.example_batch_2;
               GroupByNode.Call_InputFinished 2;
               GroupByNode.Call_OutputNthBatch 0]
              (GroupByNode.example_made 1) nd1 [])
    as (_ & es2 & H1 & H2 & _).
  - reflexivity.
  - reflexivity.
  - reflexivity.
  - vm_compute. reflexivity.
  - exists es2. split; [exact H1|exact H2].
Defined.

Lemma X17_group_by_Make_reports_unresolved_reference_witness :
  GroupByNode.Make GroupByNode.example_externals GroupByNode.example_schema
    (GroupByNode.mkExecContext 1 None)
    (GroupByNode.mkAggregateNodeOptions
       [GroupByNode.mkAggregate "hash_sum" None]
       [GroupByNode.FieldRef_name "v"] ["sum"]
       [GroupByNode.FieldRef_name "k"; GroupByNode.FieldRef_name "zz"])
  = Some (Err (Status_Invalid "No match for FieldRef")).
Proof.
  refine (proj1 (X17_group_by_Make_reports_unresolved_reference
                   GroupByNode.example_externals GroupByNode.example_schema
                   (GroupByNode.mkExecContext 1 None) _ 1
                   (GroupByNode.FieldRef_name "zz") _ _) _ _).
  - reflexivity.
  - reflexivity.
  - intros j Hj. destruct j as [|j]; [|lia].
    exists (GroupByNode.FieldRef_name "k"), 0%nat. split; reflexivity.
Defined.

Lemma example_grouper_errors_are_errors :
  GroupByNode.grouper_errors_are_errors GroupByNode.example_externals.
Proof.
  split.
  - intros g st g' H. cbn in H. unfold GroupByNode.RowGrouper_GetUniques in H.
    inversion H.
  - intros g batch st g' H. cbn in H.
    unfold GroupByNode.RowGrouper_Consume in H.
    destruct (GroupByNode.RowGrouper_ids _ _). inversion H.
Defined.

(** Two threads have each consumed a batch; Merge folds slot 1 into
    slot 0. *)
Lemma X18_group_by_Merge_leaves_one_grouper_witness :
  exists nd nd',
    GroupByNode.run GroupByNode.example_externals
      [GroupByNode.Call_StartProducing 2;
       GroupByNode.Call_InputReceived 0 GroupByNode.example_batch_1;
       GroupByNode.Call_InputReceived 1 GroupByNode.example_batch_2]
      (GroupByNode.example_made 1)
    = Some (nd, [])
    /\ GroupByNode.Merge GroupByNode.example_externals nd
       = Some (Status_OK, nd')
    /\ (forall state,
          GroupByNode.local_states_ nd' !! 1%nat = Some state ->
          GroupByNode.grouper state = None).
Proof.
  destruct (GroupByNode.run GroupByNode.example_externals
              [GroupByNode.Call_StartProducing 2;
               GroupByNode.Call_InputReceived 0 GroupByNode.example_batch_1;
               GroupByNode.Call_InputReceived 1 GroupByNode.example_batch_2]
              (GroupByNode.example_made 1))
    as [[nd es]|] eqn:E; [|vm_compute in E; discriminate].
  assert (Hes : es = []).
  { vm_compute in E. inversion E. reflexivity. }
  subst es.
  destruct (GroupByNode.Merge GroupByNode.example_externals nd)
    as [[st nd']|] eqn:EM.
  2:{ exfalso. vm_compute in E. inversion E; subst nd.
      vm_compute in EM. discriminate. }
  assert (Hst : st = Status_OK).
  { vm_compute in E. inversion E; subst nd.
    vm_compute in EM. inversion EM. reflexivity. }
  subst st.
  exists nd, nd'. split; [reflexivity|]. split; [exact EM|].
  intros state Hs.
  destruct (X18_group_by_Merge_leaves_one_grouper
              GroupByNode.example_externals nd Status_OK nd'
              example_grouper_errors_are_errors EM eq_refl)
    as (_ & _ & H).
  apply (H 1%nat state); [lia|exact Hs].
Defined.

